(** * QuantLib market models: the evolution description and its numeraire measures

    A shallow embedding of [ql/MarketModels/evolutiondescription.cpp]:
    the constructor of [EvolutionDescription] with its coherence checks and
    derived tables, [checkCompatibility], and the generators and
    classifiers of the terminal and money-market(-plus) measures.

    Modelling choices.
    - [Time] (a C++ [double]) is a rational number.  Every finite double
      is a rational and the comparisons of the source agree with the
      rational order.  The one arithmetic operation of the file, the
      subtraction that yields the accrual periods, is the subtraction of
      IEEE 754 binary64: the exact difference rounded to the nearest
      value of the format, ties to even, with gradual underflow.
      Infinities and NaN are outside the model.
    - [Size] ([std::size_t], 64 bits) is an integer in [0, 2^64) with the
      wrap-around of [-] and [+] written out.
    - A [std::vector] is a list.  Reading or writing outside the vector
      with [operator[]] is undefined behaviour in C++; the model stops
      there with the failure [Undefined].
    - [QL_REQUIRE] throws; the exception is the failure [Throw] carrying
      which requirement failed and the values its message reports.
    - Loops run on fuel; the fuel passed by each function is shown to be
      enough, so the failure [OutOfFuel] never comes out of them. *)

From Stdlib Require Import ZArith QArith Qminmax Qabs Qround Qpower Lqa Lia.
From stdpp Require Import base list.

Local Open Scope Z_scope.

(** ** Scalars *)

(** Modelled from the spec: the typedefs [Time] and [Size] of ql/types.hpp
    are not among the sources.  The specification speaks of floating-point
    time values and of rate and step indices; in QuantLib they are
    [double] and [std::size_t]. *)
Definition Time : Type := Q.
Definition Size : Type := Z.

Definition Size_modulus : Z := 2 ^ 64.

(** Unsigned subtraction and addition of [std::size_t]. *)
Definition Size_sub (a b : Size) : Size :=
  if b <=? a then a - b else a - b + Size_modulus.

Definition Size_add (a b : Size) : Size :=
  if a + b <? Size_modulus then a + b else a + b - Size_modulus.

(** [a < b] on doubles, from [Qle_bool]. *)
Definition Qlt_bool (a b : Time) : bool := negb (Qle_bool b a).

(** [std::min(a, b)] is [(b < a) ? b : a]. *)
Definition min_Time (a b : Time) : Time := if Qlt_bool b a then b else a.
Definition min_Size (a b : Size) : Size := if b <? a then b else a.

(** *** Subtraction of doubles

    [a - b] on doubles is the exact difference rounded to binary64 in
    the default rounding mode of IEEE 754, to nearest with ties to even.
    The format has 53 significant bits; the unit in the last place of a
    value is a power of two that is never below 2^-1074, the least
    subnormal. *)

(** [2^e], for an exponent of either sign. *)
Definition pow2 (e : Z) : Q := (2 ^ e)%Q.

(** [floor (log2 |x|)] for [x] other than zero: the difference of the
    bit lengths of numerator and denominator, or one less. *)
Definition ilog2 (x : Q) : Z :=
  let e0 := Z.log2 (Z.abs (Qnum x)) - Z.log2 (Zpos (Qden x)) in
  if Qle_bool (pow2 e0) (Qabs x) then e0 else e0 - 1.

(** The nearest integer, the even one of the two when [x] is half way. *)
Definition round_half_even (x : Q) : Z :=
  let f := Qfloor x in
  match (x - inject_Z f ?= 1 # 2)%Q with
  | Lt => f
  | Gt => f + 1
  | Eq => if Z.even f then f else f + 1
  end.

Definition binary64_prec : Z := 53.
Definition binary64_emin : Z := -1074.
Definition binary64_emax : Z := 971.

(** Rounding to binary64: [x] is scaled by its unit in the last place,
    rounded to an integer and scaled back; the result is in lowest terms.
    The exponent is bounded below only: a result above the largest finite
    double would be an infinity, which [Time] does not have.  The
    differences the constructor computes do not exceed their first
    operand (lemma [Time_sub_bounds]). *)
Definition round_binary64 (x : Q) : Q :=
  let e := Z.max (ilog2 x - (binary64_prec - 1)) binary64_emin in
  Qred (inject_Z (round_half_even (x / pow2 e)) * pow2 e).

(** [a - b] on doubles. *)
Definition Time_sub (a b : Time) : Time := round_binary64 (a - b).

Arguments Time_sub : simpl never.

(** ** Failures and the error monad *)

(** The requirement that failed in a [QL_REQUIRE], with the values the
    message is built from. *)
Inductive Error : Type :=
| RateTimesTooFew              (* "Rate times must have 2 elements at least" *)
| FirstRateTimeNegative        (* "first rate time must be non negative" *)
| RateTimesNotIncreasing       (* "rate times must be strictly increasing" *)
| EvolutionTimesEmpty          (* "Evolution times must have 1 elements at least" *)
| EvolutionTimesNotIncreasing  (* "Evolution times must be strictly increasing" *)
| LastEvolutionPastLastRate    (* "The last evolution time is past the last rate time" *)
| RelevanceRatesMismatch       (* "relevanceRates / evolutionTimes mismatch" *)
| NumerairesSizeMismatch (numeraires_size n : Size)
    (* "Size mismatch between numeraires (..) and evolution times (..)" *)
| NumeraireExpired (i : Size) (evolutionTime : Time)
                   (numeraire : Size) (rateTime : Time)
    (* ".. step, evolution time ..: the numeraire (..), corresponding to
       rate time .., is expired" *)
| OffsetTooLarge (offset maxNumeraire : Size).
    (* "offset (..) is greater than the max allowed value for numeraire (..)" *)

Inductive Failure : Type :=
| Throw (e : Error)   (* QuantLib::Error raised by QL_REQUIRE *)
| LengthError         (* std::length_error raised by a vector constructor *)
| Undefined           (* access outside a vector: undefined behaviour *)
| OutOfFuel.          (* the model's loop bound was reached *)

Inductive Outcome (A : Type) : Type :=
| Ok (a : A)
| Fail (f : Failure).

Arguments Ok {A} a.
Arguments Fail {A} f.

Definition bind {A B} (c : Outcome A) (k : A -> Outcome B) : Outcome B :=
  match c with
  | Ok a => k a
  | Fail f => Fail f
  end.

Notation "'let*' x ':=' c 'in' k" := (bind c (fun x => k))
  (at level 10, x pattern, c at level 200, k at level 200).

(** Modelled from the spec: the macro [QL_REQUIRE] of ql/errors.hpp is not
    among the sources.  Every failure of the specification is a fail-fast
    precondition violation that carries a message and aborts the
    construction or the check: the macro throws when its condition does
    not hold. *)
Definition QL_REQUIRE (condition : bool) (e : Error) : Outcome unit :=
  if condition then Ok tt else Fail (Throw e).

Definition is_Ok {A} (c : Outcome A) : bool :=
  match c with Ok _ => true | Fail _ => false end.

(** ** Vectors *)

Definition size {A} (v : list A) : Size := Z.of_nat (length v).

(** [v[i]] read. *)
Definition at_ {A} (v : list A) (i : Size) : Outcome A :=
  if i <? 0 then Fail Undefined
  else match v !! Z.to_nat i with
       | Some x => Ok x
       | None => Fail Undefined
       end.

(** [v[i] = x]. *)
Definition set_at {A} (v : list A) (i : Size) (x : A) : Outcome (list A) :=
  if (0 <=? i) && (i <? size v) then Ok (<[Z.to_nat i := x]> v)
  else Fail Undefined.

(** [std::vector<double>::max_size()] on an LP64 platform: the largest
    object size [PTRDIFF_MAX] over the eight bytes of an element.  Memory
    exhaustion below that bound is not modelled. *)
Definition max_size : Size := 2 ^ 60 - 1.

(** [std::vector<T>(n, x)] and [std::vector<T>(n)]. *)
Definition vector_n {A} (n : Size) (x : A) : Outcome (list A) :=
  if n <=? max_size then Ok (replicate (Z.to_nat n) x)
  else Fail LengthError.

(** [std::vector<T>(v.begin(), v.end()-1)]: [v.end()-1] on an empty vector
    is outside the vector. *)
Definition vector_but_last {A} (v : list A) : Outcome (list A) :=
  if size v =? 0 then Fail Undefined
  else Ok (take (Z.to_nat (size v - 1)) v).

(** [v.back()] *)
Definition back {A} (v : list A) : Outcome A := at_ v (size v - 1).

(** Modelled from the spec: the class [Matrix] of ql/Math/matrix.hpp is not
    among the sources.  The specification takes it as a dense 2-D
    container of time values, [steps] rows by [n] columns here; the model
    is the list of its rows, with [Matrix(rows, columns)],
    [m[j][i] = x] and the read [m[j][i]]. *)
Definition Matrix : Type := list (list Time).

Definition Matrix_new (rows columns : Size) : Matrix :=
  replicate (Z.to_nat rows) (replicate (Z.to_nat columns) 0%Q).

Definition Matrix_set (m : Matrix) (j i : Size) (x : Time) : Outcome Matrix :=
  let* row := at_ m j in
  let* row' := set_at row i x in
  set_at m j row'.

Definition Matrix_get (m : Matrix) (j i : Size) : Outcome Time :=
  let* row := at_ m j in at_ row i.

(** ** Loops *)

(** [for (i = i0; i < n; ++i) body]: the loop variable is below a vector
    size when it is incremented, so [++i] never wraps. *)
Fixpoint for_loop {S} (fuel : nat) (i n : Size)
         (body : Size -> S -> Outcome S) (s : S) : Outcome S :=
  if i <? n then
    match fuel with
    | O => Fail OutOfFuel
    | S fuel' => let* s' := body i s in for_loop fuel' (i + 1) n body s'
    end
  else Ok s.

(** [while (cond) body] *)
Fixpoint while_loop {S} (fuel : nat) (cond : S -> Outcome bool)
         (body : S -> Outcome S) (s : S) : Outcome S :=
  match fuel with
  | O => Fail OutOfFuel
  | S fuel' =>
      let* c := cond s in
      if (c : bool) then let* s' := body s in while_loop fuel' cond body s'
      else Ok s
  end.

(** ** EvolutionDescription *)

(** The data members.  The class declaration (evolutiondescription.hpp)
    is not among the sources: the members and their order are those of
    the initialiser list of the constructor, their types those the
    accessors return. *)
Record EvolutionDescription : Type := {
  rateTimes_ : list Time;
  evolutionTimes_ : list Time;
  steps_ : Size;
  relevanceRates_ : list (Size * Size);
  rateTaus_ : list Time;
  effStopTime_ : Matrix;
  firstAliveRate_ : list Size
}.

(** [EvolutionDescription::EvolutionDescription()] *)
Definition EvolutionDescription_default : EvolutionDescription :=
  {| rateTimes_ := []; evolutionTimes_ := []; steps_ := 0;
     relevanceRates_ := []; rateTaus_ := []; effStopTime_ := [];
     firstAliveRate_ := [] |}.

(** The check loops of the constructor. *)
Definition check_increasing (v : list Time) (n : Size) (e : Error)
  : Outcome unit :=
  for_loop (Z.to_nat n) 1 n
    (fun i _ =>
       let* a := at_ v i in
       let* b := at_ v (i - 1) in
       QL_REQUIRE (Qlt_bool b a) e) tt.

(** [for (i=0; i<rateTaus_.size(); i++)
       rateTaus_[i] = rateTimes_[i+1] - rateTimes_[i];] *)
Definition fill_rateTaus (rateTimes_ rateTaus_ : list Time)
  : Outcome (list Time) :=
  for_loop (Z.to_nat (size rateTaus_)) 0 (size rateTaus_)
    (fun i rateTaus_ =>
       let* a := at_ rateTimes_ (i + 1) in
       let* b := at_ rateTimes_ i in
       set_at rateTaus_ i (Time_sub a b)) rateTaus_.

(** The two nested loops that fill the effective stop times. *)
Definition fill_effStopTime (rateTimes_ evolutionTimes_ : list Time)
           (steps_ : Size) (effStopTime_ : Matrix) : Outcome Matrix :=
  for_loop (Z.to_nat steps_) 0 steps_
    (fun j effStopTime_ =>
       for_loop (Z.to_nat (Size_sub (size rateTimes_) 1)) 0
                (Size_sub (size rateTimes_) 1)
         (fun i effStopTime_ =>
            let* e := at_ evolutionTimes_ j in
            let* r := at_ rateTimes_ i in
            Matrix_set effStopTime_ j i (min_Time e r)) effStopTime_)
    effStopTime_.

(** The first-alive-rate sweep; the state is
    [(currentEvolutionTime, firstAliveRate, firstAliveRate_)]. *)
Definition fill_firstAliveRate (rateTimes_ evolutionTimes_ : list Time)
           (steps_ : Size) (firstAliveRate_ : list Size)
  : Outcome (list Size) :=
  let* (_, _, firstAliveRate_) :=
    for_loop (Z.to_nat steps_) 0 steps_
      (fun j '(currentEvolutionTime, firstAliveRate, firstAliveRate_) =>
         let* firstAliveRate :=
           while_loop (S (length rateTimes_))
             (fun firstAliveRate =>
                let* r := at_ rateTimes_ firstAliveRate in
                Ok (Qle_bool r currentEvolutionTime))
             (fun firstAliveRate => Ok (firstAliveRate + 1))
             firstAliveRate in
         let* firstAliveRate_ := set_at firstAliveRate_ j firstAliveRate in
         let* currentEvolutionTime := at_ evolutionTimes_ j in
         Ok (currentEvolutionTime, firstAliveRate, firstAliveRate_))
      (0%Q, 0, firstAliveRate_) in
  Ok firstAliveRate_.

(** The initialiser of [evolutionTimes_]:
    [evolutionTimes.size()>0 ? evolutionTimes
       : std::vector<Time>(rateTimes.begin(), rateTimes.end()-1)]. *)
Definition init_evolutionTimes (rateTimes evolutionTimes : list Time)
  : Outcome (list Time) :=
  if size evolutionTimes >? 0 then Ok evolutionTimes
  else vector_but_last rateTimes.

(** [EvolutionDescription::EvolutionDescription(rateTimes, evolutionTimes,
    relevanceRates)]: the member initialisers in their order, then the
    body. *)
Definition EvolutionDescription_new
           (rateTimes evolutionTimes : list Time)
           (relevanceRates : list (Size * Size))
  : Outcome EvolutionDescription :=
  let rateTimes_ := rateTimes in
  let* evolutionTimes_ := init_evolutionTimes rateTimes evolutionTimes in
  let steps_ := size evolutionTimes_ in
  let relevanceRates_ := relevanceRates in
  let* rateTaus_ := vector_n (Size_sub (size rateTimes_) 1) 0%Q in
  let effStopTime_ :=
    Matrix_new (size evolutionTimes_) (Size_sub (size rateTimes_) 1) in
  let* firstAliveRate_ := vector_n (size evolutionTimes_) 0 in
  (* rate times *)
  let* _ := QL_REQUIRE (size rateTimes_ >? 1) RateTimesTooFew in
  let* r0 := at_ rateTimes_ 0 in
  let* _ := QL_REQUIRE (Qle_bool 0 r0) FirstRateTimeNegative in
  let* _ := check_increasing rateTimes (size rateTimes)
                             RateTimesNotIncreasing in
  (* evolution times *)
  let* _ := QL_REQUIRE (steps_ >? 0) EvolutionTimesEmpty in
  let* _ := check_increasing evolutionTimes_ steps_
                             EvolutionTimesNotIncreasing in
  let* rlast := back rateTimes in
  let* elast := back evolutionTimes_ in
  let* _ := QL_REQUIRE (Qle_bool elast rlast) LastEvolutionPastLastRate in
  (* relevance rates *)
  let* relevanceRates_ :=
    if size relevanceRates =? 0
    then vector_n steps_ (0, Size_sub (size rateTimes) 1)
    else let* _ := QL_REQUIRE (size relevanceRates =? steps_)
                              RelevanceRatesMismatch in
         Ok relevanceRates_ in
  (* times *)
  let* rateTaus_ := fill_rateTaus rateTimes_ rateTaus_ in
  let* effStopTime_ :=
    fill_effStopTime rateTimes_ evolutionTimes_ steps_ effStopTime_ in
  let* firstAliveRate_ :=
    fill_firstAliveRate rateTimes_ evolutionTimes_ steps_ firstAliveRate_ in
  Ok {| rateTimes_ := rateTimes_;
        evolutionTimes_ := evolutionTimes_;
        steps_ := steps_;
        relevanceRates_ := relevanceRates_;
        rateTaus_ := rateTaus_;
        effStopTime_ := effStopTime_;
        firstAliveRate_ := firstAliveRate_ |}.

(** Accessors. *)
Definition rateTimes (ev : EvolutionDescription) := rateTimes_ ev.
Definition rateTaus (ev : EvolutionDescription) := rateTaus_ ev.
Definition evolutionTimes (ev : EvolutionDescription) := evolutionTimes_ ev.
Definition effectiveStopTime (ev : EvolutionDescription) := effStopTime_ ev.
Definition firstAliveRate (ev : EvolutionDescription) := firstAliveRate_ ev.
Definition relevanceRates (ev : EvolutionDescription) := relevanceRates_ ev.
Definition numberOfRates (ev : EvolutionDescription) : Size :=
  Size_sub (size (rateTimes_ ev)) 1.
Definition numberOfSteps (ev : EvolutionDescription) : Size :=
  size (evolutionTimes_ ev).

(** ** The compatibility check *)

Definition checkCompatibility (evolution : EvolutionDescription)
           (numeraires : list Size) : Outcome unit :=
  let evolutionTimes := evolutionTimes evolution in
  let n := size evolutionTimes in
  let* _ := QL_REQUIRE (size numeraires =? n)
                       (NumerairesSizeMismatch (size numeraires) n) in
  let rateTimes := rateTimes evolution in
  for_loop (S (length numeraires)) 0 (Size_sub n 1)
    (fun i _ =>
       let* num := at_ numeraires i in
       let* r := at_ rateTimes num in
       let* e := at_ evolutionTimes i in
       QL_REQUIRE (Qle_bool e r) (NumeraireExpired i e num r)) tt.

(** ** Measures *)

(** [*std::min_element(first, last)]: the first smallest element; on an
    empty range the iterator returned is [last], which cannot be read. *)
Fixpoint min_element_from (smallest : Size) (v : list Size) : Size :=
  match v with
  | [] => smallest
  | x :: v' => min_element_from (if x <? smallest then x else smallest) v'
  end.

Definition deref_min_element (v : list Size) : Outcome Size :=
  match v with
  | [] => Fail Undefined
  | x :: v' => Ok (min_element_from x v')
  end.

Definition isInTerminalMeasure (evolution : EvolutionDescription)
           (numeraires : list Size) : Outcome bool :=
  let rateTimes := rateTimes evolution in
  let* m := deref_min_element numeraires in
  Ok (m =? Size_sub (size rateTimes) 1).

(** [while (rateTimes[j] < evolutionTimes[i]) j++;] *)
Definition advance_cursor (rateTimes evolutionTimes : list Time)
           (i j : Size) : Outcome Size :=
  while_loop (S (length rateTimes))
    (fun j => let* r := at_ rateTimes j in
              let* e := at_ evolutionTimes i in
              Ok (Qlt_bool r e))
    (fun j => Ok (j + 1)) j.

Definition isInMoneyMarketPlusMeasure (evolution : EvolutionDescription)
           (numeraires : list Size) (offset : Size) : Outcome bool :=
  let res := true in
  let rateTimes := rateTimes evolution in
  let maxNumeraire := Size_sub (size rateTimes) 1 in
  let* _ := QL_REQUIRE (offset <=? maxNumeraire)
                       (OffsetTooLarge offset maxNumeraire) in
  let evolutionTimes := evolutionTimes evolution in
  let* (_, res) :=
    for_loop (Z.to_nat (size evolutionTimes)) 0 (size evolutionTimes)
      (fun i '(j, res) =>
         let* j := advance_cursor rateTimes evolutionTimes i j in
         let* num := at_ numeraires i in
         Ok (j, (num =? min_Size (Size_add j offset) maxNumeraire) && res))
      (0, res) in
  Ok res.

Definition isInMoneyMarketMeasure (evolution : EvolutionDescription)
           (numeraires : list Size) : Outcome bool :=
  isInMoneyMarketPlusMeasure evolution numeraires 0.

Definition terminalMeasure (evolution : EvolutionDescription)
  : Outcome (list Size) :=
  vector_n (size (evolutionTimes evolution))
           (Size_sub (size (rateTimes evolution)) 1).

Definition moneyMarketPlusMeasure (ev : EvolutionDescription)
           (offset : Size) : Outcome (list Size) :=
  let rateTimes := rateTimes ev in
  let maxNumeraire := Size_sub (size rateTimes) 1 in
  let* _ := QL_REQUIRE (offset <=? maxNumeraire)
                       (OffsetTooLarge offset maxNumeraire) in
  let evolutionTimes := evolutionTimes ev in
  let n := size evolutionTimes in
  let* numeraires := vector_n n 0 in
  let* (_, numeraires) :=
    for_loop (Z.to_nat n) 0 n
      (fun i '(j, numeraires) =>
         let* j := advance_cursor rateTimes evolutionTimes i j in
         let* numeraires :=
           set_at numeraires i (min_Size (Size_add j offset) maxNumeraire) in
         Ok (j, numeraires))
      (0, numeraires) in
  Ok numeraires.

Definition moneyMarketMeasure (evol : EvolutionDescription)
  : Outcome (list Size) :=
  moneyMarketPlusMeasure evol 0.

(** * Specification vocabulary *)

(** The shape of the cursor loops, [while (p(v[j])) j++]. *)
Definition cursor_loop (fuel : nat) (v : list Time) (p : Time -> bool)
           (j : Size) : Outcome Size :=
  while_loop fuel (fun j => let* r := at_ v j in Ok (p r))
             (fun j => Ok (j + 1)) j.

(** [v[i] > v[i-1]] for every [i] from 1 on, as the constructor checks it. *)
Definition increasing (v : list Time) : Prop :=
  forall i a b, at_ v (i - 1) = Ok a -> at_ v i = Ok b -> (a < b)%Q.

(** The finite values of binary64: an integer of at most 53 bits times
    a power of two, from [2^-1074] for the subnormals up to [2^971] for
    the largest doubles. *)
Definition binary64 (x : Q) : Prop :=
  exists m e : Z,
    Z.abs m < 2 ^ binary64_prec /\ binary64_emin <= e <= binary64_emax /\
    (x == inject_Z m * pow2 e)%Q.

(** Accrual periods: every entry is written, with the difference of the
    two rate times around it as the subtraction of doubles gives it. *)
Definition rateTaus_filled (rateTimes_ rateTaus_ : list Time) (k : Size)
  : Prop :=
  forall i, 0 <= i < k ->
    exists a b, at_ rateTimes_ (i + 1) = Ok a /\ at_ rateTimes_ i = Ok b /\
                at_ rateTaus_ i = Ok (Time_sub a b).

(** Effective stop times: the matrix has its rows and columns, and the
    entries up to row [j], column [i] are written. *)
Definition Matrix_shape (m : Matrix) (rows columns : Size) : Prop :=
  size m = rows /\ forall j row, at_ m j = Ok row -> size row = columns.

Definition effStopTime_filled (rateTimes_ evolutionTimes_ : list Time)
           (m : Matrix) (j i : Size) : Prop :=
  forall j' i', 0 <= j' -> 0 <= i' < Size_sub (size rateTimes_) 1 ->
    j' < j \/ (j' = j /\ i' < i) ->
    exists e r, at_ evolutionTimes_ j' = Ok e /\ at_ rateTimes_ i' = Ok r /\
                Matrix_get m j' i' = Ok (min_Time e r).

(** First alive rates.  [first_above v t f]: [f] is the smallest index of
    [v] whose element is above [t]. *)
Definition first_above (v : list Time) (t : Time) (f : Size) : Prop :=
  (exists r, at_ v f = Ok r /\ (t < r)%Q) /\
  forall k r, 0 <= k < f -> at_ v k = Ok r -> (r <= t)%Q.

(** The running evolution time at the head of step [j]:
    [evolutionTimes[j-1]], and 0 at the first step. *)
Definition previous_time (evolutionTimes : list Time) (j : Size)
  : Outcome Time :=
  if j =? 0 then Ok 0%Q else at_ evolutionTimes (j - 1).

(** The invariant of the first-alive-rate sweep at the head of step [j],
    on the state [(currentEvolutionTime, firstAliveRate, firstAliveRate_)]. *)
Definition sweep_invariant (rateTimes_ evolutionTimes_ : list Time)
           (j : Size) (s : Time * Size * list Size) : Prop :=
  let '(cur, f, fa) := s in
  size fa = size evolutionTimes_ /\
  previous_time evolutionTimes_ j = Ok cur /\
  (exists r, at_ rateTimes_ f = Ok r /\ (0 < j -> (0 < r)%Q)) /\
  (forall i r, 0 <= i < f -> at_ rateTimes_ i = Ok r -> (r <= Qmax 0 cur)%Q) /\
  (forall j', 0 <= j' < j ->
     exists t f', previous_time evolutionTimes_ j' = Ok t /\
                  at_ fa j' = Ok f' /\
                  first_above rateTimes_ (Qmax 0 t) f').

(** The evolution times after defaulting: the rate times but the last
    when none are given. *)
Definition evolutionTimes_or_default (rateTimes evolutionTimes : list Time)
  : list Time :=
  if size evolutionTimes >? 0 then evolutionTimes
  else take (Z.to_nat (size rateTimes - 1)) rateTimes.

(** The preconditions of the constructor, in the order it checks them. *)
Record preconditions (rateTimes evolutionTimes : list Time)
       (relevanceRates : list (Size * Size)) : Prop := {
  pre_size : 1 < size rateTimes;
  pre_first : forall r0, at_ rateTimes 0 = Ok r0 -> (0 <= r0)%Q;
  pre_rt_increasing : increasing rateTimes;
  pre_et_nonempty :
    0 < size (evolutionTimes_or_default rateTimes evolutionTimes);
  pre_et_increasing :
    increasing (evolutionTimes_or_default rateTimes evolutionTimes);
  pre_last :
    forall r e,
      back rateTimes = Ok r ->
      back (evolutionTimes_or_default rateTimes evolutionTimes) = Ok e ->
      (e <= r)%Q;
  pre_relevance :
    relevanceRates <> [] ->
    size relevanceRates
    = size (evolutionTimes_or_default rateTimes evolutionTimes)
}.

(** What the constructor builds. *)
Record constructed (rateTimes evolutionTimes : list Time)
       (relevanceRates : list (Size * Size)) (ev : EvolutionDescription)
  : Prop := {
  con_rateTimes : rateTimes_ ev = rateTimes;
  con_evolutionTimes :
    evolutionTimes_ ev = evolutionTimes_or_default rateTimes evolutionTimes;
  con_steps : steps_ ev = size (evolutionTimes_ ev);
  con_relevanceRates :
    relevanceRates_ ev =
    if size relevanceRates =? 0
    then replicate (Z.to_nat (steps_ ev)) (0, size rateTimes - 1)
    else relevanceRates;
  con_rateTaus_size : size (rateTaus_ ev) = size rateTimes - 1;
  con_rateTaus :
    rateTaus_filled rateTimes (rateTaus_ ev) (size rateTimes - 1);
  con_effStopTime_shape :
    Matrix_shape (effStopTime_ ev) (size (evolutionTimes_ ev))
                 (size rateTimes - 1);
  con_effStopTime :
    effStopTime_filled rateTimes (evolutionTimes_ ev) (effStopTime_ ev)
                       (size (evolutionTimes_ ev)) 0;
  con_firstAliveRate_size :
    size (firstAliveRate_ ev) = size (evolutionTimes_ ev);
  con_firstAliveRate :
    forall j, 0 <= j < size (evolutionTimes_ ev) ->
      exists t f, previous_time (evolutionTimes_ ev) j = Ok t /\
                  at_ (firstAliveRate_ ev) j = Ok f /\
                  first_above rateTimes (Qmax 0 t) f
}.

(** The facts about the two time vectors that the functions on a
    description rely on. *)
Record well_formed (ev : EvolutionDescription) : Prop := {
  wf_size : 1 < size (rateTimes_ ev);
  wf_first : exists r0, at_ (rateTimes_ ev) 0 = Ok r0 /\ (0 <= r0)%Q;
  wf_rt_increasing : increasing (rateTimes_ ev);
  wf_steps : 0 < size (evolutionTimes_ ev);
  wf_et_increasing : increasing (evolutionTimes_ ev);
  wf_last :
    forall r e, back (rateTimes_ ev) = Ok r ->
                back (evolutionTimes_ ev) = Ok e -> (e <= r)%Q;
  wf_rt_max : size (rateTimes_ ev) - 1 <= max_size;
  wf_et_max : size (evolutionTimes_ ev) <= max_size
}.

(** [first_at_least v t j]: [j] is the smallest index of [v] whose element
    is at least [t]. *)
Definition first_at_least (v : list Time) (t : Time) (j : Size) : Prop :=
  (exists r, at_ v j = Ok r /\ (t <= r)%Q) /\
  forall k r, 0 <= k < j -> at_ v k = Ok r -> (r < t)%Q.

(** The cursor at the head of step [i]: inside the rate times, with every
    rate time before it below the evolution time of the step. *)
Definition cursor_ready (ev : EvolutionDescription) (i j : Size) : Prop :=
  0 <= j < size (rateTimes_ ev) /\
  forall k r e, 0 <= k < j -> at_ (rateTimes_ ev) k = Ok r ->
                at_ (evolutionTimes_ ev) i = Ok e -> (r < e)%Q.

(** The numeraire of step [i] in the money-market-plus measure:
    [min(j + offset, maxNumeraire)] for the first rate index [j] whose
    rate time is at least the evolution time of the step. *)
Definition expected_numeraire (ev : EvolutionDescription)
           (offset i v : Size) : Prop :=
  exists e j,
    at_ (evolutionTimes_ ev) i = Ok e /\
    first_at_least (rateTimes_ ev) e j /\
    v = min_Size (Size_add j offset) (Size_sub (size (rateTimes_ ev)) 1).

(** [m] is the minimum of [v]. *)
Definition is_minimum (m : Size) (v : list Size) : Prop :=
  In m v /\ forall x, In x v -> m <= x.

(** The scenario of the specification: rateTimes = [0,1,2,3] with the
    default evolution times and relevance rates. *)
Definition scenario_rateTimes : list Time := [0; 1; 2; 3]%Q.

(** The description built from [scenario_rateTimes] with the defaults. *)
Definition scenario : EvolutionDescription :=
  {| rateTimes_ := [0; 1; 2; 3]%Q;
     evolutionTimes_ := [0; 1; 2]%Q;
     steps_ := 3;
     relevanceRates_ := [(0, 3); (0, 3); (0, 3)];
     rateTaus_ := [1; 1; 1]%Q;
     effStopTime_ := [[0; 0; 0]; [0; 1; 1]; [0; 1; 2]]%Q;
     firstAliveRate_ := [1; 1; 2] |}.

(** The scenario of the compatibility check: rateTimes = [0,1,2] with
    evolutionTimes = [0,1]. *)
Definition scenario2 : EvolutionDescription :=
  {| rateTimes_ := [0; 1; 2]%Q;
     evolutionTimes_ := [0; 1]%Q;
     steps_ := 2;
     relevanceRates_ := [(0, 2); (0, 2)];
     rateTaus_ := [1; 1]%Q;
     effStopTime_ := [[0; 0]; [0; 1]]%Q;
     firstAliveRate_ := [1; 1] |}.

(** ** The failures of the constructor *)

(** The vectors the constructor creates can be allocated. *)
Definition allocatable (rateTimes evolutionTimes : list Time) : Prop :=
  Size_sub (size rateTimes) 1 <= max_size /\
  size (evolutionTimes_or_default rateTimes evolutionTimes) <= max_size.

(** The failure of the constructor on given arguments: each case is the
    first step of the constructor that does not pass, with what passed
    before it. *)
Inductive constructor_failure (rateTimes evolutionTimes : list Time)
          (relevanceRates : list (Size * Size)) : Failure -> Prop :=
| cf_outside :
    rateTimes = [] -> evolutionTimes = [] ->
    constructor_failure rateTimes evolutionTimes relevanceRates Undefined
| cf_length :
    ~ (rateTimes = [] /\ evolutionTimes = []) ->
    ~ allocatable rateTimes evolutionTimes ->
    constructor_failure rateTimes evolutionTimes relevanceRates LengthError
| cf_too_few :
    allocatable rateTimes evolutionTimes ->
    size rateTimes = 1 ->
    constructor_failure rateTimes evolutionTimes relevanceRates
                        (Throw RateTimesTooFew)
| cf_first_negative :
    allocatable rateTimes evolutionTimes ->
    1 < size rateTimes ->
    forall r0, at_ rateTimes 0 = Ok r0 -> (r0 < 0)%Q ->
    constructor_failure rateTimes evolutionTimes relevanceRates
                        (Throw FirstRateTimeNegative)
| cf_rates_not_increasing :
    allocatable rateTimes evolutionTimes ->
    1 < size rateTimes ->
    (forall r0, at_ rateTimes 0 = Ok r0 -> (0 <= r0)%Q) ->
    ~ increasing rateTimes ->
    constructor_failure rateTimes evolutionTimes relevanceRates
                        (Throw RateTimesNotIncreasing)
| cf_evolution_not_increasing :
    allocatable rateTimes evolutionTimes ->
    1 < size rateTimes ->
    (forall r0, at_ rateTimes 0 = Ok r0 -> (0 <= r0)%Q) ->
    increasing rateTimes ->
    ~ increasing (evolutionTimes_or_default rateTimes evolutionTimes) ->
    constructor_failure rateTimes evolutionTimes relevanceRates
                        (Throw EvolutionTimesNotIncreasing)
| cf_last_past :
    allocatable rateTimes evolutionTimes ->
    1 < size rateTimes ->
    (forall r0, at_ rateTimes 0 = Ok r0 -> (0 <= r0)%Q) ->
    increasing rateTimes ->
    increasing (evolutionTimes_or_default rateTimes evolutionTimes) ->
    forall r e,
      back rateTimes = Ok r ->
      back (evolutionTimes_or_default rateTimes evolutionTimes) = Ok e ->
      (r < e)%Q ->
    constructor_failure rateTimes evolutionTimes relevanceRates
                        (Throw LastEvolutionPastLastRate)
| cf_relevance :
    allocatable rateTimes evolutionTimes ->
    1 < size rateTimes ->
    (forall r0, at_ rateTimes 0 = Ok r0 -> (0 <= r0)%Q) ->
    increasing rateTimes ->
    increasing (evolutionTimes_or_default rateTimes evolutionTimes) ->
    (forall r e,
       back rateTimes = Ok r ->
       back (evolutionTimes_or_default rateTimes evolutionTimes) = Ok e ->
       (e <= r)%Q) ->
    relevanceRates <> [] ->
    size relevanceRates
    <> size (evolutionTimes_or_default rateTimes evolutionTimes) ->
    constructor_failure rateTimes evolutionTimes relevanceRates
                        (Throw RelevanceRatesMismatch).

(** The sum of a vector of times. *)
Definition Qsum (v : list Time) : Time := fold_right Qplus 0%Q v.

(** The description built from rateTimes = [0,1,2] and
    evolutionTimes = [1,2]. *)
Definition scenario3 : EvolutionDescription :=
  {| rateTimes_ := [0; 1; 2]%Q;
     evolutionTimes_ := [1; 2]%Q;
     steps_ := 2;
     relevanceRates_ := [(0, 2); (0, 2)];
     rateTaus_ := [1; 1]%Q;
     effStopTime_ := [[0; 1]; [0; 1]]%Q;
     firstAliveRate_ := [1; 2] |}.

(** ** The Singapore calendar *)

(** The dates of [Singapore::SgxImpl::isBusinessDay].  The classes [Date]
    and [Calendar] are not among the sources: a date is the record of
    what the accessors [weekday()], [dayOfMonth()], [dayOfYear()],
    [month()] and [year()] return, the only things the function reads. *)
Inductive Weekday : Type :=
| Sunday | Monday | Tuesday | Wednesday | Thursday | Friday | Saturday.

Inductive Month : Type :=
| January | February | March | April | May | June
| July | August | September | October | November | December.

Definition Day : Type := Z.
Definition Year : Type := Z.

Record Date : Type := {
  weekday : Weekday;
  dayOfMonth : Day;
  dayOfYear : Day;
  month : Month;
  year : Year
}.

(** [m == January] and the like. *)
Definition Month_eqb (m m' : Month) : bool :=
  match m, m' with
  | January, January | February, February | March, March | April, April
  | May, May | June, June | July, July | August, August
  | September, September | October, October | November, November
  | December, December => true
  | _, _ => false
  end.

Section Singapore.

(** [isWeekend] and [easterMonday] belong to the base class of the
    calendar, which is not among the sources: they are parameters. *)
Variable isWeekend : Weekday -> bool.
Variable easterMonday : Year -> Day.

(** [Singapore::SgxImpl::isBusinessDay] *)
Definition isBusinessDay (date : Date) : bool :=
  let w := weekday date in
  let d := dayOfMonth date in
  let dd := dayOfYear date in
  let m := month date in
  let y := year date in
  let em := easterMonday y in
  if isWeekend w
     (* New Year's Day *)
     || ((d =? 1) && Month_eqb m January)
     (* Good Friday *)
     || (dd =? em - 3)
     (* Labor Day *)
     || ((d =? 1) && Month_eqb m May)
     (* National Day *)
     || ((d =? 9) && Month_eqb m August)
     || ((d =? 10) && Month_eqb m August && (y =? 2009))
     (* Christmas Day *)
     || ((d =? 25) && Month_eqb m December)
     (* Chinese New Year *)
     || (((d =? 22) || (d =? 23)) && Month_eqb m January && (y =? 2004))
     || (((d =? 9) || (d =? 10)) && Month_eqb m February && (y =? 2005))
     || (((d =? 30) || (d =? 31)) && Month_eqb m January && (y =? 2006))
     || (((d =? 19) || (d =? 20)) && Month_eqb m February && (y =? 2007))
     || (((d =? 7) || (d =? 8)) && Month_eqb m February && (y =? 2008))
     || (((d =? 26) || (d =? 27)) && Month_eqb m January && (y =? 2009))
     (* Hari Raya Haji *)
     || (((d =? 1) || (d =? 2)) && Month_eqb m February && (y =? 2004))
     || ((d =? 21) && Month_eqb m January && (y =? 2005))
     || ((d =? 10) && Month_eqb m January && (y =? 2006))
     || ((d =? 2) && Month_eqb m January && (y =? 2007))
     || ((d =? 20) && Month_eqb m December && (y =? 2007))
     || ((d =? 8) && Month_eqb m December && (y =? 2008))
     || ((d =? 27) && Month_eqb m November && (y =? 2009))
     (* Vesak Poya Day *)
     || ((d =? 2) && Month_eqb m June && (y =? 2004))
     || ((d =? 22) && Month_eqb m May && (y =? 2005))
     || ((d =? 12) && Month_eqb m May && (y =? 2006))
     || ((d =? 31) && Month_eqb m May && (y =? 2007))
     || ((d =? 18) && Month_eqb m May && (y =? 2008))
     || ((d =? 9) && Month_eqb m May && (y =? 2009))
     (* Deepavali *)
     || ((d =? 11) && Month_eqb m November && (y =? 2004))
     || ((d =? 8) && Month_eqb m November && (y =? 2007))
     || ((d =? 28) && Month_eqb m October && (y =? 2008))
     || ((d =? 16) && Month_eqb m November && (y =? 2009))
     (* Diwali *)
     || ((d =? 1) && Month_eqb m November && (y =? 2005))
     (* Hari Raya Puasa *)
     || (((d =? 14) || (d =? 15)) && Month_eqb m November && (y =? 2004))
     || ((d =? 3) && Month_eqb m November && (y =? 2005))
     || ((d =? 24) && Month_eqb m October && (y =? 2006))
     || ((d =? 13) && Month_eqb m October && (y =? 2007))
     || ((d =? 1) && Month_eqb m October && (y =? 2008))
     || ((d =? 21) && Month_eqb m September && (y =? 2009))
  then false
  else true.

(** The holidays that do not depend on the year, and the weekends. *)
Definition recurring_holiday (date : Date) : bool :=
  isWeekend (weekday date)
  || ((dayOfMonth date =? 1) && Month_eqb (month date) January)
  || (dayOfYear date =? easterMonday (year date) - 3)
  || ((dayOfMonth date =? 1) && Month_eqb (month date) May)
  || ((dayOfMonth date =? 9) && Month_eqb (month date) August)
  || ((dayOfMonth date =? 25) && Month_eqb (month date) December).

End Singapore.

(** * Properties *)

(** ** Scalars *)

Lemma Qle_bool_true (a b : Q) : Qle_bool a b = true <-> (a <= b)%Q.
Proof. apply Qle_bool_iff. Qed.

Lemma Qle_bool_false (a b : Q) : Qle_bool a b = false <-> (b < a)%Q.
Proof.
  split.
  - intros H. apply Qnot_le_lt. intros Hle.
    apply Qle_bool_iff in Hle. congruence.
  - intros H. destruct (Qle_bool a b) eqn:E; [|reflexivity].
    apply Qle_bool_iff in E. apply Qle_not_lt in E. contradiction.
Qed.

Lemma Qlt_bool_true (a b : Q) : Qlt_bool a b = true <-> (a < b)%Q.
Proof.
  unfold Qlt_bool. rewrite negb_true_iff. apply Qle_bool_false.
Qed.

Lemma Qlt_bool_false (a b : Q) : Qlt_bool a b = false <-> (b <= a)%Q.
Proof.
  unfold Qlt_bool. rewrite negb_false_iff. apply Qle_bool_true.
Qed.

Lemma Size_sub_ge (a b : Size) : b <= a -> Size_sub a b = a - b.
Proof. intros H. unfold Size_sub. destruct (Z.leb_spec b a); lia. Qed.

(** [0 - 1] wraps to the largest [std::size_t]. *)
Example Size_sub_zero_one : Size_sub 0 1 = Size_modulus - 1.
Proof. reflexivity. Qed.

Lemma Size_add_small (a b : Size) :
  a + b < Size_modulus -> Size_add a b = a + b.
Proof. intros H. unfold Size_add. destruct (Z.ltb_spec (a + b) Size_modulus); lia. Qed.

Lemma size_nonneg {A} (v : list A) : 0 <= size v.
Proof. unfold size. lia. Qed.

Lemma size_nil_iff {A} (v : list A) : size v = 0 <-> v = [].
Proof. unfold size. destruct v; simpl; split; intros; try congruence; lia. Qed.

(** ** Subtraction of doubles *)

Lemma pow2_pos (e : Z) : (0 < pow2 e)%Q.
Proof. apply Qpower_0_lt. reflexivity. Qed.

Lemma pow2_add (a b : Z) : (pow2 (a + b) == pow2 a * pow2 b)%Q.
Proof. apply Qpower_plus. discriminate. Qed.

Lemma pow2_le (a b : Z) : a <= b -> (pow2 a <= pow2 b)%Q.
Proof. intros H. apply Qpower_le_compat_l; [exact H | discriminate]. Qed.

Lemma pow2_lt (a b : Z) : a < b -> (pow2 a < pow2 b)%Q.
Proof. intros H. apply Qpower_lt_compat_l; [exact H | reflexivity]. Qed.

Lemma pow2_lt_inv (a b : Z) : (pow2 a < pow2 b)%Q -> a < b.
Proof. intros H. apply (Qpower_lt_compat_l_inv 2); [exact H | reflexivity]. Qed.

Lemma pow2_Z (e : Z) : 0 <= e -> (pow2 e == inject_Z (2 ^ e))%Q.
Proof. intros H. unfold pow2. rewrite Zpower_Qpower by exact H. reflexivity. Qed.

Lemma pow2_0 : (pow2 0 == 1)%Q.
Proof. reflexivity. Qed.

Lemma pow2_div (x : Q) (e : Z) : (x / pow2 e * pow2 e == x)%Q.
Proof.
  pose proof (pow2_pos e). field. intros H0. rewrite H0 in H. lra.
Qed.

Lemma pow2_S (e : Z) : (pow2 (e + 1) == 2 * pow2 e)%Q.
Proof. rewrite pow2_add. change (pow2 1) with 2%Q. ring. Qed.

(** floor(log2 |x|) *)
Lemma ilog2_spec (x : Q) :
  ~ (x == 0)%Q ->
  (pow2 (ilog2 x) <= Qabs x)%Q /\ (Qabs x < pow2 (ilog2 x + 1))%Q.
Proof.
  intros Hx. unfold ilog2.
  set (n := Z.abs (Qnum x)). set (d := Zpos (Qden x)).
  assert (Hn : 0 < n).
  { unfold n. destruct x as [xn xd]. unfold Qeq in Hx. cbn in *. lia. }
  assert (Hd : 0 < d) by (unfold d; lia).
  assert (Habs : (Qabs x == inject_Z n / inject_Z d)%Q).
  { destruct x as [xn xd]. unfold n, d. cbn [Qabs Qnum Qden].
    rewrite (Qmake_Qdiv (Z.abs xn) xd). reflexivity. }
  destruct (Z.log2_spec n Hn) as [Hn1 Hn2].
  destruct (Z.log2_spec d Hd) as [Hd1 Hd2].
  set (ln := Z.log2 n) in *. set (ld := Z.log2 d) in *.
  assert (Hln : 0 <= ln) by apply Z.log2_nonneg.
  assert (Hld : 0 <= ld) by apply Z.log2_nonneg.
  assert (HdQ : (0 < inject_Z d)%Q).
  { change 0%Q with (inject_Z 0). rewrite <- Zlt_Qlt. exact Hd. }
  (* bounds on n and d in Q *)
  assert (Qn1 : (pow2 ln <= inject_Z n)%Q)
    by (rewrite pow2_Z by lia; rewrite <- Zle_Qle; exact Hn1).
  assert (Qn2 : (inject_Z n < pow2 (ln + 1))%Q).
  { rewrite pow2_Z by lia. rewrite <- Zlt_Qlt.
    replace (ln + 1) with (Z.succ ln) by lia. exact Hn2. }
  assert (Qd1 : (pow2 ld <= inject_Z d)%Q)
    by (rewrite pow2_Z by lia; rewrite <- Zle_Qle; exact Hd1).
  assert (Qd2 : (inject_Z d < pow2 (ld + 1))%Q).
  { rewrite pow2_Z by lia. rewrite <- Zlt_Qlt.
    replace (ld + 1) with (Z.succ ld) by lia. exact Hd2. }
  (* x * d = n *)
  assert (Hmul : (Qabs x * inject_Z d == inject_Z n)%Q).
  { rewrite Habs. field. intros H0. rewrite H0 in HdQ. lra. }
  assert (Hlow : (pow2 (ln - ld - 1) < Qabs x)%Q).
  { apply (Qmult_lt_r _ _ (inject_Z d) HdQ). rewrite Hmul.
    apply Qlt_le_trans with (pow2 (ln - ld - 1) * pow2 (ld + 1))%Q.
    - apply Qmult_lt_l; [apply pow2_pos | exact Qd2].
    - rewrite <- pow2_add. replace (ln - ld - 1 + (ld + 1)) with ln by lia.
      exact Qn1. }
  assert (Hhigh : (Qabs x < pow2 (ln - ld + 1))%Q).
  { apply (Qmult_lt_r _ _ (inject_Z d) HdQ). rewrite Hmul.
    apply Qlt_le_trans with (pow2 (ln + 1)); [exact Qn2|].
    replace (ln + 1) with (ln - ld + 1 + ld) by lia. rewrite pow2_add.
    apply Qmult_le_l; [apply pow2_pos | exact Qd1]. }
  destruct (Qle_bool (pow2 (ln - ld)) (Qabs x)) eqn:Hc.
  - apply Qle_bool_iff in Hc. split; [exact Hc | exact Hhigh].
  - split; [apply Qlt_le_weak; exact Hlow|].
    replace (ln - ld - 1 + 1) with (ln - ld) by lia.
    apply Qnot_le_lt. intros Hle. apply Qle_bool_iff in Hle. congruence.
Qed.

Lemma Qfloor_bounds (x : Q) :
  (inject_Z (Qfloor x) <= x)%Q /\ (x < inject_Z (Qfloor x) + 1)%Q.
Proof.
  split; [apply Qfloor_le|].
  pose proof (Qlt_floor x) as H. rewrite inject_Z_plus in H. exact H.
Qed.

Lemma round_half_even_cases (x : Q) :
  (round_half_even x = Qfloor x /\ (x - inject_Z (Qfloor x) <= 1 # 2)%Q) \/
  (round_half_even x = Qfloor x + 1 /\ (1 # 2 <= x - inject_Z (Qfloor x))%Q).
Proof.
  unfold round_half_even.
  destruct (x - inject_Z (Qfloor x) ?= 1 # 2)%Q eqn:Hc.
  - apply Qeq_alt in Hc. destruct (Z.even (Qfloor x)); [left|right];
      (split; [reflexivity | rewrite Hc; apply Qle_refl]).
  - apply Qlt_alt in Hc. left. split; [reflexivity | apply Qlt_le_weak, Hc].
  - apply Qgt_alt in Hc. right. split; [reflexivity | apply Qlt_le_weak, Hc].
Qed.

(** The nearest integer is within a half. *)
Lemma round_half_even_error (x : Q) :
  (Qabs (inject_Z (round_half_even x) - x) <= 1 # 2)%Q.
Proof.
  destruct (Qfloor_bounds x) as [H1 H2].
  apply Qabs_Qle_condition.
  destruct (round_half_even_cases x) as [[-> H]|[-> H]];
    [|rewrite inject_Z_plus; change (inject_Z 1) with 1%Q]; split; lra.
Qed.

Lemma round_half_even_floor (x : Q) :
  Qfloor x <= round_half_even x <= Qfloor x + 1.
Proof. destruct (round_half_even_cases x) as [[-> _]|[-> _]]; lia. Qed.

(** An integer is its own nearest integer. *)
Lemma round_half_even_Z (x : Q) (k : Z) :
  (x == inject_Z k)%Q -> round_half_even x = k.
Proof.
  intros H.
  assert (Hf : Qfloor x = k) by (rewrite H; apply Qfloor_Z).
  destruct (round_half_even_cases x) as [[-> _]|[_ Hr]]; [exact Hf|].
  rewrite Hf in Hr. exfalso. generalize dependent (inject_Z k). intros q H Hr. lra.
Qed.

Lemma round_half_even_mono (x y : Q) :
  (x <= y)%Q -> round_half_even x <= round_half_even y.
Proof.
  intros Hxy.
  pose proof (Qfloor_resp_le x y Hxy) as Hf.
  destruct (Z.eq_dec (Qfloor x) (Qfloor y)) as [Heq|Hne].
  - destruct (round_half_even_cases x) as [[Hx Hrx]|[Hx Hrx]];
      destruct (round_half_even_cases y) as [[Hy Hry]|[Hy Hry]];
      try lia.
    (* x rounds up, y rounds down: both are the tie *)
    rewrite <- Heq in Hry.
    assert (Hxt : (x - inject_Z (Qfloor x) == 1 # 2)%Q) by lra.
    assert (Hyt : (y - inject_Z (Qfloor x) == 1 # 2)%Q) by lra.
    apply Qeq_alt in Hxt, Hyt.
    unfold round_half_even. rewrite <- Heq, Hxt, Hyt. lia.
  - pose proof (round_half_even_floor x). pose proof (round_half_even_floor y).
    lia.
Qed.

(** *** Rounding to binary64 *)

Lemma round_binary64_eq (x : Q) :
  let e := Z.max (ilog2 x - (binary64_prec - 1)) binary64_emin in
  (round_binary64 x == inject_Z (round_half_even (x / pow2 e)) * pow2 e)%Q.
Proof. cbv zeta. unfold round_binary64. apply Qred_correct. Qed.

(** A value on the grid of its own exponent is not changed. *)
Lemma round_binary64_exact (x : Q) (k : Z) :
  (x == inject_Z k
        * pow2 (Z.max (ilog2 x - (binary64_prec - 1)) binary64_emin))%Q ->
  (round_binary64 x == x)%Q.
Proof.
  intros H. rewrite round_binary64_eq.
  set (e := Z.max _ _) in *.
  rewrite (round_half_even_Z _ k).
  - symmetry. exact H.
  - pose proof (pow2_pos e) as Hp. rewrite H at 1. field.
    intros H0. rewrite H0 in Hp. lra.
Qed.

(** The absolute error is half a unit in the last place. *)
Lemma round_binary64_error (x : Q) :
  let e := Z.max (ilog2 x - (binary64_prec - 1)) binary64_emin in
  (Qabs (round_binary64 x - x) <= pow2 (e - 1))%Q.
Proof.
  cbv zeta. rewrite round_binary64_eq. set (e := Z.max _ _).
  pose proof (pow2_pos e) as Hp.
  pose proof (round_half_even_error (x / pow2 e)) as Herr.
  set (k := round_half_even (x / pow2 e)) in *.
  assert (Heq : (inject_Z k * pow2 e - x
                 == (inject_Z k - x / pow2 e) * pow2 e)%Q).
  { field. intros H0. rewrite H0 in Hp. lra. }
  rewrite Heq, Qabs_Qmult, (Qabs_pos (pow2 e)) by lra.
  assert (Hh : (pow2 (e - 1) == (1 # 2) * pow2 e)%Q).
  { replace e with (e - 1 + 1) at 2 by lia. rewrite pow2_S. field. }
  rewrite Hh. apply Qmult_le_compat_r; [exact Herr | lra].
Qed.

(** Values at or above the least subnormal do not round to zero. *)
Lemma round_binary64_pos (x : Q) :
  (pow2 binary64_emin <= x)%Q -> (0 < round_binary64 x)%Q.
Proof.
  intros Hx. pose proof (pow2_pos binary64_emin) as Hmin.
  assert (Hx0 : ~ (x == 0)%Q) by (intros H0; rewrite H0 in Hx; lra).
  destruct (ilog2_spec x Hx0) as [Hlo _].
  rewrite Qabs_pos in Hlo by lra.
  rewrite round_binary64_eq. set (e := Z.max _ _).
  pose proof (pow2_pos e) as Hp.
  assert (He : (pow2 e <= x)%Q).
  { unfold e. destruct (Z.max_spec (ilog2 x - (binary64_prec - 1))
                                   binary64_emin) as [[_ ->]|[_ ->]].
    - exact Hx.
    - apply Qle_trans with (pow2 (ilog2 x)); [|exact Hlo].
      apply pow2_le. unfold binary64_prec. lia. }
  assert (H1 : (1 <= x / pow2 e)%Q).
  { apply Qle_shift_div_l; [exact Hp | lra]. }
  assert (Hf : 1 <= Qfloor (x / pow2 e)).
  { rewrite <- (Qfloor_Z 1). apply Qfloor_resp_le. exact H1. }
  pose proof (round_half_even_floor (x / pow2 e)) as Hr.
  apply Qmult_lt_0_compat; [|exact Hp].
  change 0%Q with (inject_Z 0). rewrite <- Zlt_Qlt. lia.
Qed.

(** *** The values of binary64 *)

Lemma binary64_grid (x : Q) :
  binary64 x -> exists k, (x == inject_Z k * pow2 binary64_emin)%Q.
Proof.
  intros [m [e [_ [[He _] Hx]]]].
  exists (m * 2 ^ (e - binary64_emin)).
  rewrite Hx, inject_Z_mult, <- pow2_Z by lia.
  rewrite <- Qmult_assoc, <- pow2_add.
  replace (e - binary64_emin + binary64_emin) with e by lia. reflexivity.
Qed.

Lemma grid_sub (a b : Q) :
  (exists k, (a == inject_Z k * pow2 binary64_emin)%Q) ->
  (exists k, (b == inject_Z k * pow2 binary64_emin)%Q) ->
  exists k, (a - b == inject_Z k * pow2 binary64_emin)%Q.
Proof.
  intros [ka Ha] [kb Hb]. exists (ka - kb).
  rewrite Ha, Hb. unfold Z.sub. rewrite inject_Z_plus, inject_Z_opp. ring.
Qed.

Lemma grid_pos_ge (x : Q) :
  (exists k, (x == inject_Z k * pow2 binary64_emin)%Q) ->
  (0 < x)%Q -> (pow2 binary64_emin <= x)%Q.
Proof.
  intros [k Hk] Hpos. pose proof (pow2_pos binary64_emin) as Hp.
  assert (Hk1 : 1 <= k).
  { destruct (Z_lt_le_dec 0 k) as [|Hle]; [lia|]. exfalso.
    assert (inject_Z k <= 0)%Q
      by (change 0%Q with (inject_Z 0); rewrite <- Zle_Qle; exact Hle).
    rewrite Hk in Hpos. nra. }
  assert (1 <= inject_Z k)%Q
    by (change 1%Q with (inject_Z 1); rewrite <- Zle_Qle; exact Hk1).
  rewrite Hk. nra.
Qed.

(** Rounding a value of the grid of least subnormals: the relative error
    is at most 2^-53. *)
Lemma round_binary64_relative_error (x : Q) :
  (exists k, (x == inject_Z k * pow2 binary64_emin)%Q) ->
  (Qabs (round_binary64 x - x) <= pow2 (- binary64_prec) * Qabs x)%Q.
Proof.
  intros [k Hk].
  destruct (Z.max_spec (ilog2 x - (binary64_prec - 1)) binary64_emin)
    as [[Hlt He]|[Hle He]].
  - (* subnormal: exact *)
    assert (Hx : (round_binary64 x == x)%Q).
    { apply (round_binary64_exact x k). rewrite He. exact Hk. }
    assert (Hz : (round_binary64 x - x == 0)%Q) by (rewrite Hx; ring).
      rewrite Hz.
    pose proof (pow2_pos (- binary64_prec)). pose proof (Qabs_nonneg x).
    change (Qabs 0) with 0%Q. nra.
  - destruct (Qeq_dec x 0) as [H0|H0].
    + assert (Hx : (round_binary64 x == x)%Q).
      { apply (round_binary64_exact x 0). rewrite H0 at 1.
        change (inject_Z 0) with 0%Q. ring. }
      assert (Hz : (round_binary64 x - x == 0)%Q) by (rewrite Hx; ring).
      rewrite Hz.
      pose proof (pow2_pos (- binary64_prec)). pose proof (Qabs_nonneg x).
      change (Qabs 0) with 0%Q. nra.
    + pose proof (round_binary64_error x) as Herr. cbv zeta in Herr.
      rewrite He in Herr.
      destruct (ilog2_spec x H0) as [Hlo _].
      eapply Qle_trans; [exact Herr|].
      replace (ilog2 x - (binary64_prec - 1) - 1)
        with (- binary64_prec + ilog2 x) by lia.
      rewrite pow2_add. apply Qmult_le_l; [apply pow2_pos | exact Hlo].
Qed.

(** A binary64 value is not changed by rounding. *)
Lemma round_binary64_id (x : Q) : binary64 x -> (round_binary64 x == x)%Q.
Proof.
  intros [m [e [Hm [[He _] Hx]]]].
  destruct (Qeq_dec x 0) as [H0|H0].
  { apply (round_binary64_exact x 0). rewrite H0 at 1.
    change (inject_Z 0) with 0%Q. ring. }
  set (e' := Z.max (ilog2 x - (binary64_prec - 1)) binary64_emin).
  assert (He' : e' <= e).
  { unfold e'. apply Z.max_lub; [|exact He].
    destruct (ilog2_spec x H0) as [Hlo _].
    assert (Hlt : (Qabs x < pow2 (binary64_prec + e))%Q).
    { rewrite Hx, Qabs_Qmult, (Qabs_pos (pow2 e))
        by (apply Qlt_le_weak, pow2_pos).
      rewrite pow2_add. apply Qmult_lt_r; [apply pow2_pos|].
      rewrite pow2_Z by (unfold binary64_prec; lia).
      change (Qabs (inject_Z m)) with (inject_Z (Z.abs m)).
      rewrite <- Zlt_Qlt. exact Hm. }
    assert (ilog2 x < binary64_prec + e)
      by (apply pow2_lt_inv; eapply Qle_lt_trans; eassumption).
    lia. }
  apply (round_binary64_exact x (m * 2 ^ (e - e'))). fold e'.
  rewrite Hx at 1. rewrite inject_Z_mult, <- pow2_Z by lia.
  rewrite <- Qmult_assoc, <- pow2_add.
  replace (e - e' + e') with e by lia. reflexivity.
Qed.

(** Rounding is monotone on the positive values. *)
Lemma round_binary64_mono (x y : Q) :
  (0 < x)%Q -> (x <= y)%Q -> (round_binary64 x <= round_binary64 y)%Q.
Proof.
  intros Hx Hxy.
  assert (Hx0 : ~ (x == 0)%Q) by (intros H0; rewrite H0 in Hx; lra).
  assert (Hy0 : ~ (y == 0)%Q) by (intros H0; rewrite H0 in Hxy; lra).
  destruct (ilog2_spec x Hx0) as [Hxlo Hxhi].
  destruct (ilog2_spec y Hy0) as [Hylo Hyhi].
  rewrite Qabs_pos in Hxlo, Hxhi by lra.
  rewrite Qabs_pos in Hylo, Hyhi by lra.
  assert (Hlog : ilog2 x <= ilog2 y).
  { assert (ilog2 x < ilog2 y + 1); [|lia].
    apply pow2_lt_inv. lra. }
  rewrite !round_binary64_eq.
  set (ex := Z.max (ilog2 x - (binary64_prec - 1)) binary64_emin).
  set (ey := Z.max (ilog2 y - (binary64_prec - 1)) binary64_emin).
  pose proof (pow2_pos ex) as Hpx. pose proof (pow2_pos ey) as Hpy.
  assert (Hexy : ex <= ey) by (unfold ex, ey; lia).
  destruct (Z.eq_dec ex ey) as [Heq|Hne].
  - rewrite <- Heq. apply Qmult_le_compat_r; [|lra].
    rewrite <- Zle_Qle. apply round_half_even_mono.
    apply Qmult_le_compat_r; [exact Hxy|].
    apply Qlt_le_weak, Qinv_lt_0_compat, Hpx.
  - (* the exponent of y is larger: a power of two lies between *)
    assert (Hey : ey = ilog2 y - (binary64_prec - 1)) by (unfold ex, ey in *; lia).
    assert (Hlt : ilog2 x + 1 <= ilog2 y) by (unfold ex, ey in *; lia).
    apply Qle_trans with (pow2 (ilog2 y)).
    + (* round x <= 2^(ilog2 y) *)
      set (g := Z.max (ilog2 x + 1 - ex) 0).
      assert (Hm : (x / pow2 ex <= inject_Z (2 ^ g))%Q).
      { rewrite <- pow2_Z by (unfold g; lia).
        apply Qle_shift_div_r; [exact Hpx|]. rewrite <- pow2_add.
        apply Qle_trans with (pow2 (ilog2 x + 1)); [lra|].
        apply pow2_le. unfold g. lia. }
      apply round_half_even_mono in Hm.
      rewrite (round_half_even_Z (inject_Z (2 ^ g)) (2 ^ g)) in Hm
        by reflexivity.
      apply Qle_trans with (inject_Z (2 ^ g) * pow2 ex)%Q.
      * apply Qmult_le_compat_r; [|lra]. rewrite <- Zle_Qle. exact Hm.
      * rewrite <- pow2_Z by (unfold g; lia). rewrite <- pow2_add.
        apply pow2_le. unfold g, ex, ey, binary64_prec in *. lia.
    + (* 2^(ilog2 y) <= round y *)
      assert (Hm : (inject_Z (2 ^ (binary64_prec - 1)) <= y / pow2 ey)%Q).
      { rewrite <- pow2_Z by (unfold binary64_prec; lia).
        apply Qle_shift_div_l; [exact Hpy|]. rewrite <- pow2_add.
        replace (binary64_prec - 1 + ey) with (ilog2 y) by lia. exact Hylo. }
      apply round_half_even_mono in Hm.
      rewrite (round_half_even_Z (inject_Z (2 ^ (binary64_prec - 1)))
                                 (2 ^ (binary64_prec - 1))) in Hm
        by reflexivity.
      apply Qle_trans
        with (inject_Z (2 ^ (binary64_prec - 1)) * pow2 ey)%Q.
      * rewrite <- pow2_Z by (unfold binary64_prec; lia).
        rewrite <- pow2_add.
        replace (binary64_prec - 1 + ey) with (ilog2 y) by lia.
        apply Qle_refl.
      * apply Qmult_le_compat_r; [|lra]. rewrite <- Zle_Qle. exact Hm.
Qed.

(** The rounded difference of two binary64 values [0 <= b < a] is
    positive and not above [a]: it does not underflow to zero and does
    not overflow. *)
Lemma Time_sub_bounds (a b : Time) :
  binary64 a -> binary64 b -> (0 <= b)%Q -> (b < a)%Q ->
  (0 < Time_sub a b)%Q /\ (Time_sub a b <= a)%Q.
Proof.
  intros Ha Hb Hb0 Hlt. unfold Time_sub. split.
  - apply round_binary64_pos, grid_pos_ge; [|lra].
    apply grid_sub; apply binary64_grid; assumption.
  - rewrite <- (round_binary64_id a Ha) at 2.
    apply round_binary64_mono; lra.
Qed.

Lemma Time_sub_relative_error (a b : Time) :
  binary64 a -> binary64 b -> (b <= a)%Q ->
  (Qabs (Time_sub a b - (a - b)) <= pow2 (- binary64_prec) * (a - b))%Q.
Proof.
  intros Ha Hb Hle. unfold Time_sub.
  rewrite <- (Qabs_pos (a - b)) at 3 by lra.
  apply round_binary64_relative_error.
  apply grid_sub; apply binary64_grid; assumption.
Qed.

Lemma Time_sub_exact (a b : Time) :
  binary64 (a - b) -> (Time_sub a b == a - b)%Q.
Proof. apply round_binary64_id. Qed.

(** The difference is rounded: [1 - 2^-60] is not a double, the nearest
    one is [1]. *)
Example Time_sub_rounds : Time_sub 1%Q (pow2 (-60)) = 1%Q.
Proof. vm_compute. reflexivity. Qed.

Lemma binary64_inject_Z (k : Z) :
  Z.abs k < 2 ^ binary64_prec -> binary64 (inject_Z k).
Proof.
  intros Hk. exists k, 0. split; [exact Hk|].
  split; [unfold binary64_emin, binary64_emax; lia|].
  change (pow2 0) with 1%Q. ring.
Qed.

(** ** The error monad *)

Lemma bind_Ok {A B} (c : Outcome A) (k : A -> Outcome B) (a : A)
      (r : Outcome B) :
  c = Ok a -> k a = r -> bind c k = r.
Proof. intros -> <-. reflexivity. Qed.

Lemma bind_Fail {A B} (c : Outcome A) (k : A -> Outcome B) (f : Failure) :
  c = Fail f -> bind c k = Fail f.
Proof. intros ->. reflexivity. Qed.

Lemma bind_Ok_inv {A B} (c : Outcome A) (k : A -> Outcome B) (b : B) :
  bind c k = Ok b -> exists a, c = Ok a /\ k a = Ok b.
Proof. destruct c as [a|f]; simpl; [eauto | discriminate]. Qed.

Lemma QL_REQUIRE_Ok (c : bool) (e : Error) (u : unit) :
  QL_REQUIRE c e = Ok u <-> c = true.
Proof. destruct c, u; simpl; split; congruence. Qed.

(** ** Vector reads and writes *)

Lemma at_Ok_iff {A} (v : list A) (i : Size) (x : A) :
  at_ v i = Ok x <-> 0 <= i /\ v !! Z.to_nat i = Some x.
Proof.
  unfold at_. destruct (Z.ltb_spec i 0).
  - split; [discriminate | lia].
  - destruct (v !! Z.to_nat i) eqn:E; split; intros H1;
      try (inversion H1; subst); auto; try discriminate;
      destruct H1 as [? H1]; inversion H1; subst; auto.
Qed.

Lemma at_Ok_range {A} (v : list A) (i : Size) (x : A) :
  at_ v i = Ok x -> 0 <= i < size v.
Proof.
  rewrite at_Ok_iff. intros [H0 H]. apply lookup_lt_Some in H.
  unfold size. lia.
Qed.

Lemma at_in_range {A} (v : list A) (i : Size) :
  0 <= i < size v -> exists x, at_ v i = Ok x.
Proof.
  intros H. unfold size in H.
  destruct (v !! Z.to_nat i) eqn:E.
  - exists a. apply at_Ok_iff. split; [lia | assumption].
  - apply lookup_ge_None in E. lia.
Qed.

Lemma at_out_of_range {A} (v : list A) (i : Size) :
  ~ (0 <= i < size v) -> at_ v i = Fail Undefined.
Proof.
  intros H. unfold at_. destruct (Z.ltb_spec i 0); [reflexivity|].
  destruct (v !! Z.to_nat i) eqn:E; [|reflexivity].
  apply lookup_lt_Some in E. unfold size in H. lia.
Qed.

Lemma at_Fail {A} (v : list A) (i : Size) (f : Failure) :
  at_ v i = Fail f -> f = Undefined /\ ~ (0 <= i < size v).
Proof.
  intros H. split.
  - unfold at_ in H. destruct (i <? 0); [congruence|].
    destruct (v !! Z.to_nat i); congruence.
  - intros Hr. apply at_in_range in Hr. destruct Hr as [x Hx]. congruence.
Qed.

Lemma set_at_Ok {A} (v : list A) (i : Size) (x : A) :
  0 <= i < size v -> set_at v i x = Ok (<[Z.to_nat i := x]> v).
Proof.
  intros H. unfold set_at.
  destruct (Z.leb_spec 0 i); [|lia]. destruct (Z.ltb_spec i (size v)); [|lia].
  reflexivity.
Qed.

Lemma set_at_out_of_range {A} (v : list A) (i : Size) (x : A) :
  ~ (0 <= i < size v) -> set_at v i x = Fail Undefined.
Proof.
  intros H. unfold set_at.
  destruct (Z.leb_spec 0 i); destruct (Z.ltb_spec i (size v)); simpl;
    try reflexivity; lia.
Qed.

Lemma size_insert {A} (v : list A) (i : nat) (x : A) :
  size (<[i := x]> v) = size v.
Proof. unfold size. now rewrite length_insert. Qed.

Lemma at_insert_eq {A} (v : list A) (i : Size) (x : A) :
  0 <= i < size v -> at_ (<[Z.to_nat i := x]> v) i = Ok x.
Proof.
  intros H. apply at_Ok_iff. split; [lia|].
  apply list_lookup_insert_eq. unfold size in H. lia.
Qed.

Lemma at_insert_ne {A} (v : list A) (i k : Size) (x : A) :
  0 <= i -> 0 <= k -> i <> k -> at_ (<[Z.to_nat i := x]> v) k = at_ v k.
Proof.
  intros Hi Hk Hne. unfold at_. destruct (k <? 0); [reflexivity|].
  rewrite list_lookup_insert_ne by lia. reflexivity.
Qed.

Lemma size_replicate {A} (n : Size) (x : A) :
  0 <= n -> size (replicate (Z.to_nat n) x) = n.
Proof. intros H. unfold size. rewrite length_replicate. lia. Qed.

Lemma at_replicate {A} (n i : Size) (x : A) :
  0 <= i < n -> at_ (replicate (Z.to_nat n) x) i = Ok x.
Proof.
  intros H. apply at_Ok_iff. split; [lia|].
  apply lookup_replicate_2. lia.
Qed.

(** ** Loop rules *)

(** The rule of the [for] loop: an invariant [I] kept by every body that
    returns, and a description [F] of the failures a body can raise.  With
    fuel for the remaining iterations the loop either ends in a state of
    the invariant or fails as one of its bodies did. *)
Lemma for_loop_spec {S} (I : Size -> S -> Prop) (F : Size -> Failure -> Prop)
      (n : Size) (body : Size -> S -> Outcome S) :
  forall (fuel : nat) (i : Size) (s : S),
    i <= n ->
    n - i <= Z.of_nat fuel ->
    I i s ->
    (forall k t, i <= k < n -> I k t ->
                 match body k t with
                 | Ok t' => I (k + 1) t'
                 | Fail f => F k f
                 end) ->
    match for_loop fuel i n body s with
    | Ok s' => I n s'
    | Fail f => exists k, i <= k < n /\ F k f
    end.
Proof.
  induction fuel as [|fuel IH]; intros i s Hle Hfuel Hinv Hbody; simpl.
  - destruct (Z.ltb_spec i n); [lia|]. replace n with i by lia. exact Hinv.
  - destruct (Z.ltb_spec i n).
    + specialize (Hbody i s ltac:(lia) Hinv) as Hb.
      destruct (body i s) as [t'|f]; simpl.
      * specialize (IH (i + 1) t' ltac:(lia) ltac:(lia) Hb).
        assert (Hb' : forall k t, i + 1 <= k < n -> I k t ->
                 match body k t with Ok t' => I (k + 1) t' | Fail f => F k f end)
          by (intros k t Hk; apply Hbody; lia).
        specialize (IH Hb').
        destruct (for_loop fuel (i + 1) n body t'); [exact IH|].
        destruct IH as [k [Hk HF]]. exists k. split; [lia | exact HF].
      * exists i. split; [lia | exact Hb].
    + replace n with i by lia. exact Hinv.
Qed.

(** Case analysis on the outcome a loop rule speaks about. *)
Ltac loop_cases H x f E :=
  match type of H with
  | match ?l with _ => _ end =>
      let o := fresh "o" in
      remember l as o eqn:E in H; symmetry in E; destruct o as [x|f]
  end.

(** A [for] loop whose range is empty returns its state. *)
Lemma for_loop_empty {S} (fuel : nat) (i n : Size)
      (body : Size -> S -> Outcome S) (s : S) :
  n <= i -> for_loop fuel i n body s = Ok s.
Proof.
  intros H. destruct fuel; simpl; destruct (Z.ltb_spec i n); auto; lia.
Qed.

(** Two conditions that agree give the same [while] loop. *)
Lemma while_loop_ext {S} (cond cond' : S -> Outcome bool)
      (body : S -> Outcome S) :
  (forall s, cond s = cond' s) ->
  forall fuel s, while_loop fuel cond body s = while_loop fuel cond' body s.
Proof.
  intros Hc. induction fuel as [|fuel IH]; intros s; simpl; [reflexivity|].
  rewrite Hc. destruct (cond' s) as [[|]|]; simpl; auto.
  destruct (body s); simpl; auto.
Qed.

(** With fuel for the elements that remain, the cursor loop stops at the
    first index from [j] on whose element fails [p], and it runs off the
    vector exactly when there is none. *)
Lemma cursor_loop_spec (v : list Time) (p : Time -> bool) :
  forall (fuel : nat) (j : Size),
    0 <= j ->
    (0 < fuel)%nat ->
    size v - j < Z.of_nat fuel ->
    match cursor_loop fuel v p j with
    | Ok j' =>
        j <= j' < size v /\
        (exists r, at_ v j' = Ok r /\ p r = false) /\
        (forall k, j <= k < j' -> exists r, at_ v k = Ok r /\ p r = true)
    | Fail f =>
        f = Undefined /\
        (forall k, j <= k < size v -> exists r, at_ v k = Ok r /\ p r = true)
    end.
Proof.
  unfold cursor_loop.
  induction fuel as [|fuel IH]; intros j Hj Hpos Hfuel.
  - lia.
  - simpl. destruct (at_ v j) as [r|f] eqn:Hat; simpl.
    + pose proof (at_Ok_range _ _ _ Hat) as Hr.
      destruct (p r) eqn:Hp; simpl.
      * specialize (IH (j + 1) ltac:(lia) ltac:(lia) ltac:(lia)).
        revert IH.
        match goal with
        | |- context [while_loop ?n ?c ?b ?s] =>
            destruct (while_loop n c b s) as [j'|f]
        end; intros IH.
        -- destruct IH as [Hj' [Hstop Hbelow]]. split; [lia|]. split; [exact Hstop|].
           intros k Hk. destruct (Z.eq_dec k j) as [->|Hne]; [eauto|].
           apply Hbelow. lia.
        -- destruct IH as [Hf Hall]. split; [exact Hf|].
           intros k Hk. destruct (Z.eq_dec k j) as [->|Hne]; [eauto|].
           apply Hall. lia.
      * split; [lia|]. split; [eauto|]. intros k Hk. lia.
    + apply at_Fail in Hat. destruct Hat as [-> Hout]. split; [reflexivity|].
      intros k Hk. lia.
Qed.

(** ** Strictly increasing vectors *)

Lemma increasing_lt (v : list Time) :
  increasing v ->
  forall i j a b, i < j -> at_ v i = Ok a -> at_ v j = Ok b -> (a < b)%Q.
Proof.
  intros Hinc i j a b Hij Ha.
  assert (Hgen : forall d : nat, forall j b,
             j = i + 1 + Z.of_nat d -> at_ v j = Ok b -> (a < b)%Q).
  { induction d as [|d IH]; intros j' b' Hj' Hb'.
    - apply (Hinc j'); [|exact Hb']. replace (j' - 1) with i by lia. exact Ha.
    - pose proof (at_Ok_range _ _ _ Hb') as Hr.
      pose proof (at_Ok_range _ _ _ Ha) as Hr0.
      destruct (at_in_range v (j' - 1) ltac:(lia)) as [c Hc].
      specialize (IH (j' - 1) c ltac:(lia) Hc).
      specialize (Hinc j' c b' Hc Hb'). lra. }
  intros Hb. apply (Hgen (Z.to_nat (j - i - 1)) j b); [lia | exact Hb].
Qed.

Lemma increasing_le (v : list Time) :
  increasing v ->
  forall i j a b, i <= j -> at_ v i = Ok a -> at_ v j = Ok b -> (a <= b)%Q.
Proof.
  intros Hinc i j a b Hij Ha Hb.
  destruct (Z.eq_dec i j) as [->|Hne].
  - rewrite Ha in Hb. inversion Hb. lra.
  - apply Qlt_le_weak. apply (increasing_lt v Hinc i j); auto. lia.
Qed.

(** The check loop succeeds exactly on the increasing vectors, and
    otherwise throws its error. *)
Lemma check_increasing_spec (v : list Time) (e : Error) :
  match check_increasing v (size v) e with
  | Ok _ => increasing v
  | Fail f => f = Throw e /\ ~ increasing v
  end.
Proof.
  unfold check_increasing.
  destruct (Z.le_gt_cases 1 (size v)) as [Hn|Hn].
  - pose proof (for_loop_spec
      (fun k (_ : unit) => forall i a b, 1 <= i < k ->
           at_ v (i - 1) = Ok a -> at_ v i = Ok b -> (a < b)%Q)
      (fun _ f => f = Throw e /\ ~ increasing v)
      (size v)
      (fun i _ => let* a := at_ v i in let* b := at_ v (i - 1) in
                  QL_REQUIRE (Qlt_bool b a) e)
      (Z.to_nat (size v)) 1 tt Hn ltac:(lia)) as Hloop.
    simpl in Hloop.
    match type of Hloop with ?P -> ?Q -> _ =>
      assert (H1 : P) by (intros; lia); assert (H2 : Q) end.
    { intros k [] Hk Hinv.
      destruct (at_in_range v k ltac:(lia)) as [a Ha].
      destruct (at_in_range v (k - 1) ltac:(lia)) as [b Hb].
      rewrite Ha, Hb. simpl. unfold QL_REQUIRE.
      destruct (Qlt_bool b a) eqn:Hlt.
      - intros i a' b' Hi Ha' Hb'.
        destruct (Z.eq_dec i k) as [->|Hne].
        + rewrite Ha in Hb'. rewrite Hb in Ha'.
          inversion Ha'; inversion Hb'; subst.
          apply Qlt_bool_true. exact Hlt.
        + apply (Hinv i); auto. lia.
      - split; [reflexivity|]. intros Hinc.
        specialize (Hinc k b a Hb Ha).
        apply Qlt_bool_false in Hlt. lra. }
    specialize (Hloop H1 H2).
    match goal with |- match ?l with _ => _ end =>
      destruct l as [[]|f] end.
    + intros i a b Ha Hb. apply (Hloop i); auto.
      pose proof (at_Ok_range _ _ _ Ha). pose proof (at_Ok_range _ _ _ Hb). lia.
    + destruct Hloop as [k [_ Hk]]. exact Hk.
  - rewrite for_loop_empty by lia.
    intros i a b Ha Hb.
    pose proof (at_Ok_range _ _ _ Ha). pose proof (at_Ok_range _ _ _ Hb). lia.
Qed.

(** ** The derived tables *)

Lemma fill_rateTaus_spec (rateTimes_ taus0 : list Time) :
  size taus0 = size rateTimes_ - 1 ->
  exists taus,
    fill_rateTaus rateTimes_ taus0 = Ok taus /\
    size taus = size taus0 /\
    rateTaus_filled rateTimes_ taus (size taus).
Proof.
  intros Hsize. unfold fill_rateTaus.
  pose proof (size_nonneg taus0) as Hnn.
  pose proof (for_loop_spec
    (fun k taus => size taus = size taus0 /\ rateTaus_filled rateTimes_ taus k)
    (fun _ _ => False)
    (size taus0)
    (fun i taus => let* a := at_ rateTimes_ (i + 1) in
                   let* b := at_ rateTimes_ i in
                   set_at taus i (Time_sub a b))
    (Z.to_nat (size taus0)) 0 taus0 Hnn ltac:(lia)) as Hloop.
  simpl in Hloop.
  match type of Hloop with ?P -> ?Q -> _ =>
    assert (H1 : P); [|assert (H2 : Q); [|specialize (Hloop H1 H2)]] end.
  - split; [reflexivity|]. intros i Hi. lia.
  - intros k taus Hk [Hsz Hfilled].
    destruct (at_in_range rateTimes_ (k + 1) ltac:(lia)) as [a Ha].
    destruct (at_in_range rateTimes_ k ltac:(lia)) as [b Hb].
    rewrite Ha, Hb. simpl. rewrite set_at_Ok by lia.
    split; [rewrite size_insert; exact Hsz|].
    intros i Hi. destruct (Z.eq_dec i k) as [->|Hne].
    + exists a, b. repeat split; auto. apply at_insert_eq. lia.
    + destruct (Hfilled i ltac:(lia)) as [a' [b' [Ha' [Hb' Ht]]]].
      exists a', b'. repeat split; auto.
      rewrite at_insert_ne by lia. exact Ht.
  - loop_cases Hloop taus f E.
    + destruct Hloop as [Hsz Hfilled]. exists taus.
      split; [exact E|]. split; [exact Hsz|]. rewrite Hsz. exact Hfilled.
    + destruct Hloop as [k [_ []]].
Qed.

Lemma Matrix_new_shape (rows columns : Size) :
  0 <= rows -> 0 <= columns ->
  Matrix_shape (Matrix_new rows columns) rows columns.
Proof.
  intros Hr Hc. unfold Matrix_new. split.
  - apply size_replicate. exact Hr.
  - intros j row Hat. apply at_Ok_iff in Hat. destruct Hat as [_ Hat].
    apply lookup_replicate in Hat. destruct Hat as [-> _].
    apply size_replicate. exact Hc.
Qed.

Lemma Matrix_set_spec (m : Matrix) (rows columns j i : Size) (x : Time) :
  Matrix_shape m rows columns ->
  0 <= j < rows -> 0 <= i < columns ->
  exists m',
    Matrix_set m j i x = Ok m' /\
    Matrix_shape m' rows columns /\
    Matrix_get m' j i = Ok x /\
    forall j' i', 0 <= j' -> 0 <= i' -> (j', i') <> (j, i) ->
                  Matrix_get m' j' i' = Matrix_get m j' i'.
Proof.
  intros [Hrows Hcols] Hj Hi. unfold Matrix_set.
  destruct (at_in_range m j ltac:(lia)) as [row Hrow].
  rewrite Hrow. simpl.
  pose proof (Hcols j row Hrow) as Hsz.
  rewrite set_at_Ok by lia. simpl. rewrite set_at_Ok by lia.
  eexists. split; [reflexivity|]. split; [|split].
  - split; [rewrite size_insert; exact Hrows|].
    intros j' row' Hat. destruct (Z.eq_dec j' j) as [->|Hne].
    + rewrite at_insert_eq in Hat by lia. inversion Hat.
      rewrite size_insert. exact Hsz.
    + pose proof (at_Ok_range _ _ _ Hat).
      rewrite at_insert_ne in Hat by lia. eauto.
  - unfold Matrix_get. rewrite at_insert_eq by lia. simpl.
    apply at_insert_eq. lia.
  - intros j' i' Hj' Hi' Hne. unfold Matrix_get.
    destruct (Z.eq_dec j' j) as [->|Hnej].
    + rewrite at_insert_eq by lia. rewrite Hrow. simpl.
      apply at_insert_ne; try lia. intros ->. apply Hne. reflexivity.
    + rewrite at_insert_ne by lia. reflexivity.
Qed.

Lemma fill_effStopTime_spec (rateTimes_ evolutionTimes_ : list Time)
      (m0 : Matrix) :
  1 <= size rateTimes_ ->
  Matrix_shape m0 (size evolutionTimes_) (Size_sub (size rateTimes_) 1) ->
  exists m,
    fill_effStopTime rateTimes_ evolutionTimes_ (size evolutionTimes_) m0
      = Ok m /\
    Matrix_shape m (size evolutionTimes_) (Size_sub (size rateTimes_) 1) /\
    effStopTime_filled rateTimes_ evolutionTimes_ m (size evolutionTimes_) 0.
Proof.
  intros Hrt Hshape. unfold fill_effStopTime.
  rewrite (Size_sub_ge _ _ Hrt) in *.
  set (rows := size evolutionTimes_) in *.
  set (cols := size rateTimes_ - 1) in *.
  assert (Hfilled_eq : effStopTime_filled rateTimes_ evolutionTimes_ =
    fun m j i => forall j' i', 0 <= j' -> 0 <= i' < cols ->
      j' < j \/ (j' = j /\ i' < i) ->
      exists e r, at_ evolutionTimes_ j' = Ok e /\ at_ rateTimes_ i' = Ok r /\
                  Matrix_get m j' i' = Ok (min_Time e r)).
  { unfold effStopTime_filled. rewrite (Size_sub_ge _ _ Hrt). reflexivity. }
  pose proof (size_nonneg evolutionTimes_) as Hrows.
  set (inner := fun j => for_loop (Z.to_nat cols) 0 cols
     (fun i m => let* e := at_ evolutionTimes_ j in
                 let* r := at_ rateTimes_ i in
                 Matrix_set m j i (min_Time e r))).
  assert (Hinner : forall j m, 0 <= j < rows ->
     Matrix_shape m rows cols ->
     effStopTime_filled rateTimes_ evolutionTimes_ m j 0 ->
     match inner j m with
     | Ok m' => Matrix_shape m' rows cols /\
                effStopTime_filled rateTimes_ evolutionTimes_ m' (j + 1) 0
     | Fail _ => False
     end).
  { intros j m Hj Hsh Hfill. unfold inner.
    pose proof (for_loop_spec
      (fun i m => Matrix_shape m rows cols /\
                  effStopTime_filled rateTimes_ evolutionTimes_ m j i)
      (fun _ _ => False) cols
      (fun i m => let* e := at_ evolutionTimes_ j in
                  let* r := at_ rateTimes_ i in
                  Matrix_set m j i (min_Time e r))
      (Z.to_nat cols) 0 m ltac:(lia) ltac:(lia) (conj Hsh Hfill)) as Hloop.
    simpl in Hloop.
    match type of Hloop with ?P -> _ => assert (H1 : P) end.
    { intros k t Hk [Hsh' Hfill'].
      destruct (at_in_range evolutionTimes_ j Hj) as [e He].
      destruct (at_in_range rateTimes_ k ltac:(lia)) as [r Hr].
      rewrite He, Hr. simpl.
      destruct (Matrix_set_spec t rows cols j k (min_Time e r) Hsh' Hj Hk)
        as [m' [Hset [Hsh'' [Hget Hother]]]].
      rewrite Hset. split; [exact Hsh''|].
      rewrite Hfilled_eq in *. intros j' i' Hj' Hi' Hlt.
      destruct (Z.eq_dec j' j) as [->|Hnej];
        [destruct (Z.eq_dec i' k) as [->|Hnei]|].
      - exists e, r. auto.
      - rewrite Hother by first [lia | intros Heq; inversion Heq; lia].
        apply Hfill'; auto. lia.
      - rewrite Hother by first [lia | intros Heq; inversion Heq; lia].
        apply Hfill'; auto. lia. }
    specialize (Hloop H1).
    loop_cases Hloop m' f E; rewrite E.
    - destruct Hloop as [Hsh' Hfill']. split; [exact Hsh'|].
      rewrite Hfilled_eq in *. intros j' i' Hj' Hi' Hlt.
      apply Hfill'; auto. lia.
    - destruct Hloop as [k [_ []]]. }
  pose proof (for_loop_spec
    (fun j m => Matrix_shape m rows cols /\
                effStopTime_filled rateTimes_ evolutionTimes_ m j 0)
    (fun _ _ => False) rows inner
    (Z.to_nat rows) 0 m0 Hrows ltac:(lia)) as Hloop.
  simpl in Hloop.
  match type of Hloop with ?P -> ?Q -> _ =>
    assert (H1 : P); [|assert (H2 : Q); [|specialize (Hloop H1 H2)]] end.
  - split; [exact Hshape|]. rewrite Hfilled_eq. intros j' i' Hj' Hi' Hlt. lia.
  - intros k t Hk [Hsh Hfill]. specialize (Hinner k t Hk Hsh Hfill).
    destruct (inner k t); [exact Hinner | exact Hinner].
  - loop_cases Hloop m f E.
    + exists m. split; [exact E|]. exact Hloop.
    + destruct Hloop as [k [_ []]].
Qed.

Ltac qmax :=
  repeat match goal with
  | |- context [Qmax ?a ?b] =>
      let m := fresh "m" in let Hm := fresh "Hm" in
      destruct (Q.max_spec a b) as [[? Hm]|[? Hm]];
      set (m := Qmax a b) in *; clearbody m
  | H : context [Qmax ?a ?b] |- _ =>
      let m := fresh "m" in let Hm := fresh "Hm" in
      destruct (Q.max_spec a b) as [[? Hm]|[? Hm]];
      set (m := Qmax a b) in *; clearbody m
  end.

Lemma first_above_mono (v : list Time) (t u : Time) (f g : Size) :
  (t <= u)%Q -> 0 <= g ->
  first_above v t f -> first_above v u g -> f <= g.
Proof.
  intros Htu Hg [[r [Hr Hlt]] Hbelow] [[r' [Hr' Hlt']] Hbelow'].
  destruct (Z.le_gt_cases f g) as [H|H]; [exact H|].
  specialize (Hbelow g r' ltac:(lia) Hr'). lra.
Qed.

Section FirstAliveRate.

Variables rateTimes_ evolutionTimes_ : list Time.
Hypothesis rt_size : 1 < size rateTimes_.
Hypothesis rt_first : exists r0, at_ rateTimes_ 0 = Ok r0 /\ (0 <= r0)%Q.
Hypothesis rt_increasing : increasing rateTimes_.
Hypothesis et_increasing : increasing evolutionTimes_.
Hypothesis last_times :
  forall r e, back rateTimes_ = Ok r -> back evolutionTimes_ = Ok e ->
              (e <= r)%Q.

(** Before every step the running time is below the last rate time:
    the sweep has a rate to stop at. *)
Lemma previous_time_below_last (j : Size) (cur : Time) :
  0 <= j < size evolutionTimes_ ->
  previous_time evolutionTimes_ j = Ok cur ->
  exists rl, back rateTimes_ = Ok rl /\ (cur < rl)%Q.
Proof.
  intros Hj Hprev.
  destruct (at_in_range rateTimes_ (size rateTimes_ - 1) ltac:(lia))
    as [rl Hrl].
  exists rl. split; [exact Hrl|].
  unfold previous_time in Hprev. destruct (Z.eqb_spec j 0) as [->|Hne].
  - inversion Hprev; subst. destruct rt_first as [r0 [Hr0 Hpos]].
    pose proof (increasing_lt _ rt_increasing 0 (size rateTimes_ - 1)
                  r0 rl ltac:(lia) Hr0 Hrl).
    lra.
  - destruct (at_in_range evolutionTimes_ (size evolutionTimes_ - 1)
                ltac:(lia)) as [el Hel].
    pose proof (increasing_lt _ et_increasing (j - 1)
                  (size evolutionTimes_ - 1) cur el ltac:(lia) Hprev Hel).
    pose proof (last_times rl el Hrl Hel). lra.
Qed.

(** The running times do not decrease once capped below by 0. *)
Lemma previous_time_mono (j j' : Size) (t t' : Time) :
  0 <= j <= j' ->
  previous_time evolutionTimes_ j = Ok t ->
  previous_time evolutionTimes_ j' = Ok t' ->
  (Qmax 0 t <= Qmax 0 t')%Q.
Proof.
  intros Hj Ht Ht'. unfold previous_time in *.
  destruct (Z.eqb_spec j 0) as [->|Hne]; destruct (Z.eqb_spec j' 0) as [->|Hne'];
    try lia.
  - inversion Ht; inversion Ht'; subst. lra.
  - inversion Ht; subst. qmax; lra.
  - pose proof (increasing_le _ et_increasing (j - 1) (j' - 1) t t'
                  ltac:(lia) Ht Ht').
    qmax; lra.
Qed.

Lemma fill_firstAliveRate_spec (fa0 : list Size) :
  size fa0 = size evolutionTimes_ ->
  exists fa,
    fill_firstAliveRate rateTimes_ evolutionTimes_ (size evolutionTimes_) fa0
      = Ok fa /\
    size fa = size evolutionTimes_ /\
    forall j, 0 <= j < size evolutionTimes_ ->
      exists t f, previous_time evolutionTimes_ j = Ok t /\
                  at_ fa j = Ok f /\
                  first_above rateTimes_ (Qmax 0 t) f.
Proof.
  intros Hsz0. unfold fill_firstAliveRate.
  pose proof (size_nonneg evolutionTimes_) as Hsteps.
  destruct rt_first as [r0 [Hr0 Hr0pos]].
  match goal with
  | |- exists _, bind (for_loop ?fuel ?i ?n ?body ?s) _ = _ /\ _ =>
      pose proof (for_loop_spec (sweep_invariant rateTimes_ evolutionTimes_)
                      (fun _ _ => False)
                    n body fuel i s Hsteps ltac:(lia)) as Hloop
  end.
  match type of Hloop with ?P -> ?Q -> _ =>
    assert (H1 : P); [|assert (H2 : Q); [|specialize (Hloop H1 H2)]] end.
  - simpl. split; [exact Hsz0|]. split; [reflexivity|].
    split; [exists r0; split; [exact Hr0 | lia]|].
    split; intros; lia.
  - intros k [[cur f] fa] Hk (Hsz & Hprev & [rf [Hrf Hrfpos]] & Hbelow & Hdone).
    destruct (previous_time_below_last k cur Hk Hprev) as [rl [Hrl Hlt]].
    pose proof (at_Ok_range _ _ _ Hrf) as Hfr.
    pose proof (cursor_loop_spec rateTimes_ (fun r => Qle_bool r cur)
                  (S (length rateTimes_)) f ltac:(lia) ltac:(lia)
                  ltac:(unfold size; lia)) as Hcur.
    unfold cursor_loop in Hcur.
    loop_cases Hcur f' e E; rewrite E; simpl.
    + destruct Hcur as [Hf' [[r' [Hr' Hp']] Hbetween]].
      apply Qle_bool_false in Hp'.
      rewrite set_at_Ok by lia. simpl.
      destruct (at_in_range evolutionTimes_ k Hk) as [ek Hek].
      rewrite Hek. simpl.
      assert (Hr'pos : (0 < r')%Q).
      { destruct (Z.eq_dec k 0) as [->|Hne].
        - unfold previous_time in Hprev. simpl in Hprev.
          inversion Hprev; subst. exact Hp'.
        - pose proof (increasing_le _ rt_increasing f f' rf r'
                        ltac:(lia) Hrf Hr').
          specialize (Hrfpos ltac:(lia)). lra. }
      assert (Hbelow' : forall i r, 0 <= i < f' -> at_ rateTimes_ i = Ok r ->
                                    (r <= Qmax 0 cur)%Q).
      { intros i r Hi Hr. destruct (Z.lt_ge_cases i f) as [Hlo|Hhi].
        - apply (Hbelow i); auto. lia.
        - destruct (Hbetween i ltac:(lia)) as [r'' [Hr'' Hp'']].
          rewrite Hr in Hr''. inversion Hr''; subst.
          apply Qle_bool_true in Hp''. qmax; lra. }
      assert (Hnext : previous_time evolutionTimes_ (k + 1) = Ok ek).
      { unfold previous_time. destruct (Z.eqb_spec (k + 1) 0); [lia|].
        replace (k + 1 - 1) with k by lia. exact Hek. }
      split; [rewrite size_insert; exact Hsz|].
      split; [exact Hnext|].
      split; [exists r'; split; [exact Hr' | intros _; exact Hr'pos]|].
      split.
      * intros i r Hi Hr. specialize (Hbelow' i r Hi Hr).
        pose proof (previous_time_mono k (k + 1) cur ek ltac:(lia) Hprev Hnext).
        lra.
      * intros j' Hj'. destruct (Z.eq_dec j' k) as [->|Hne].
        -- exists cur, f'. split; [exact Hprev|].
           split; [apply at_insert_eq; lia|].
           split; [|exact Hbelow'].
           exists r'. split; [exact Hr'|]. qmax; lra.
        -- destruct (Hdone j' ltac:(lia)) as [t [g [Ht [Hg Hfa]]]].
           exists t, g. split; [exact Ht|]. split; [|exact Hfa].
           rewrite at_insert_ne by lia. exact Hg.
    + destruct Hcur as [_ Hall].
      destruct (Hall (size rateTimes_ - 1) ltac:(lia)) as [r [Hr Hp]].
      unfold back in Hrl. rewrite Hrl in Hr. inversion Hr; subst.
      apply Qle_bool_true in Hp. lra.
  - loop_cases Hloop s f E.
    + destruct s as [[cur f] fa].
      destruct Hloop as (Hsz & _ & _ & _ & Hdone).
      exists fa. split; [|split; [exact Hsz | exact Hdone]].
      eapply bind_Ok; [exact E | reflexivity].
    + destruct Hloop as [k [_ []]].
Qed.

End FirstAliveRate.

(** ** The constructor *)

Lemma init_evolutionTimes_Ok (rateTimes evolutionTimes v : list Time) :
  init_evolutionTimes rateTimes evolutionTimes = Ok v ->
  v = evolutionTimes_or_default rateTimes evolutionTimes.
Proof.
  unfold init_evolutionTimes, evolutionTimes_or_default, vector_but_last.
  destruct (size evolutionTimes >? 0); [congruence|].
  destruct (size rateTimes =? 0); congruence.
Qed.

Lemma init_evolutionTimes_total (rateTimes evolutionTimes : list Time) :
  0 < size rateTimes ->
  init_evolutionTimes rateTimes evolutionTimes
  = Ok (evolutionTimes_or_default rateTimes evolutionTimes).
Proof.
  intros H.
  unfold init_evolutionTimes, evolutionTimes_or_default, vector_but_last.
  destruct (size evolutionTimes >? 0); [reflexivity|].
  destruct (Z.eqb_spec (size rateTimes) 0); [lia | reflexivity].
Qed.

Lemma init_evolutionTimes_Fail (rateTimes evolutionTimes : list Time)
      (f : Failure) :
  init_evolutionTimes rateTimes evolutionTimes = Fail f ->
  f = Undefined /\ rateTimes = [] /\ evolutionTimes = [].
Proof.
  unfold init_evolutionTimes, vector_but_last. rewrite Z.gtb_ltb.
  destruct (Z.ltb_spec 0 (size evolutionTimes)); [discriminate|].
  destruct (Z.eqb_spec (size rateTimes) 0); [|discriminate].
  intros H1. inversion H1. split; [reflexivity|].
  pose proof (size_nonneg evolutionTimes).
  split; apply size_nil_iff; lia.
Qed.

Lemma vector_n_Ok {A} (n : Size) (x : A) :
  n <= max_size -> vector_n n x = Ok (replicate (Z.to_nat n) x).
Proof.
  intros H. unfold vector_n. destruct (Z.leb_spec n max_size); [reflexivity | lia].
Qed.

Lemma vector_n_inv {A} (n : Size) (x : A) (v : list A) :
  vector_n n x = Ok v -> n <= max_size /\ v = replicate (Z.to_nat n) x.
Proof.
  unfold vector_n. destruct (Z.leb_spec n max_size); [|discriminate].
  intros H1. inversion H1. auto.
Qed.

Lemma vector_n_Fail {A} (n : Size) (x : A) (f : Failure) :
  vector_n n x = Fail f -> f = LengthError /\ max_size < n.
Proof.
  unfold vector_n. destruct (Z.leb_spec n max_size); [discriminate|].
  intros H1. inversion H1. auto.
Qed.

(** Inputs that meet the preconditions are constructed. *)
Lemma EvolutionDescription_new_complete
      (rateTimes evolutionTimes : list Time)
      (relevanceRates : list (Size * Size)) :
  size rateTimes - 1 <= max_size ->
  size (evolutionTimes_or_default rateTimes evolutionTimes) <= max_size ->
  preconditions rateTimes evolutionTimes relevanceRates ->
  exists ev,
    EvolutionDescription_new rateTimes evolutionTimes relevanceRates = Ok ev /\
    constructed rateTimes evolutionTimes relevanceRates ev.
Proof.
  intros Hb1 Hb2 [Hsize Hfirst Hrinc Hene Heinc Hlast Hrel].
  unfold EvolutionDescription_new.
  rewrite init_evolutionTimes_total by lia. cbn [bind].
  set (et := evolutionTimes_or_default rateTimes evolutionTimes) in *.
  rewrite (Size_sub_ge (size rateTimes) 1) by lia.
  rewrite (vector_n_Ok (size rateTimes - 1)) by lia. cbn [bind].
  rewrite (vector_n_Ok (size et)) by lia. cbn [bind].
  rewrite Z.gtb_ltb. destruct (Z.ltb_spec 1 (size rateTimes)); [|lia].
  cbn [bind QL_REQUIRE].
  destruct (at_in_range rateTimes 0 ltac:(lia)) as [r0 Hr0].
  rewrite Hr0. cbn [bind].
  rewrite (proj2 (Qle_bool_true 0 r0) (Hfirst r0 Hr0)). cbn [bind QL_REQUIRE].
  pose proof (check_increasing_spec rateTimes RateTimesNotIncreasing) as Hc1.
  destruct (check_increasing rateTimes (size rateTimes) _) as [[]|f];
    [|destruct Hc1 as [_ Hc1]; contradiction].
  cbn [bind].
  rewrite Z.gtb_ltb. destruct (Z.ltb_spec 0 (size et)); [|lia].
  cbn [bind QL_REQUIRE].
  pose proof (check_increasing_spec et EvolutionTimesNotIncreasing) as Hc2.
  destruct (check_increasing et (size et) _) as [[]|f];
    [|destruct Hc2 as [_ Hc2]; contradiction].
  cbn [bind].
  destruct (at_in_range rateTimes (size rateTimes - 1) ltac:(lia))
    as [rl Hrl].
  destruct (at_in_range et (size et - 1) ltac:(lia)) as [el Hel].
  unfold back at 1 2. rewrite Hrl, Hel. cbn [bind].
  rewrite (proj2 (Qle_bool_true el rl) (Hlast rl el Hrl Hel)).
  cbn [bind QL_REQUIRE].
  assert (Hshape : Matrix_shape (Matrix_new (size et) (size rateTimes - 1))
                                (size et) (size rateTimes - 1))
    by (apply Matrix_new_shape; lia).
  assert (Hsz_taus : size (replicate (Z.to_nat (size rateTimes - 1)) 0%Q)
                     = size rateTimes - 1) by (apply size_replicate; lia).
  assert (Hsz_fa : size (replicate (Z.to_nat (size et)) 0) = size et)
    by (apply size_replicate; lia).
  destruct (fill_rateTaus_spec rateTimes _ Hsz_taus)
    as [taus [Etaus [Htsz Htaus]]].
  rewrite <- (Size_sub_ge (size rateTimes) 1) in Hshape by lia.
  destruct (fill_effStopTime_spec rateTimes et _ ltac:(lia) Hshape)
    as [m [Em [Hmshape Hm]]].
  rewrite (Size_sub_ge (size rateTimes) 1) in Hmshape, Em by lia.
  destruct (fill_firstAliveRate_spec rateTimes et Hsize
              (ex_intro _ r0 (conj Hr0 (Hfirst r0 Hr0))) Hrinc Heinc Hlast
              _ Hsz_fa) as [fa [Efa [Hfsz Hfa]]].
  assert (Hrr : exists rr,
    (if size relevanceRates =? 0
     then vector_n (size et) (0, size rateTimes - 1)
     else let* _ := QL_REQUIRE (size relevanceRates =? size et)
                               RelevanceRatesMismatch in Ok relevanceRates)
    = Ok rr /\
    rr = if size relevanceRates =? 0
         then replicate (Z.to_nat (size et)) (0, size rateTimes - 1)
         else relevanceRates).
  { destruct (Z.eqb_spec (size relevanceRates) 0) as [Hz|Hnz].
    - rewrite vector_n_Ok by lia. eauto.
    - assert (Hne : relevanceRates <> [])
        by (intros ->; apply Hnz; reflexivity).
      rewrite (Hrel Hne). fold et. rewrite Z.eqb_refl. simpl. eauto. }
  destruct Hrr as [rr [Err Hrr]].
  eexists. split.
  { eapply bind_Ok; [exact Err|]. eapply bind_Ok; [exact Etaus|].
    eapply bind_Ok; [exact Em|]. eapply bind_Ok; [exact Efa|]. reflexivity. }
  constructor; cbn [rateTimes_ evolutionTimes_ steps_ relevanceRates_
                     rateTaus_ effStopTime_ firstAliveRate_]; auto.
  - etransitivity; [exact Htsz | exact Hsz_taus].
  - assert (Esz : size taus = size rateTimes - 1)
      by (etransitivity; [exact Htsz | exact Hsz_taus]).
    rewrite <- Esz. exact Htaus.
Qed.

Ltac bind_inv H x Hx :=
  apply bind_Ok_inv in H; destruct H as [x [Hx H]].

(** A constructed description comes from inputs that meet the
    preconditions, and its vectors could be allocated. *)
Lemma EvolutionDescription_new_sound
      (rateTimes evolutionTimes : list Time)
      (relevanceRates : list (Size * Size)) (ev : EvolutionDescription) :
  EvolutionDescription_new rateTimes evolutionTimes relevanceRates = Ok ev ->
  preconditions rateTimes evolutionTimes relevanceRates /\
  size rateTimes - 1 <= max_size /\
  size (evolutionTimes_or_default rateTimes evolutionTimes) <= max_size.
Proof.
  intros H. unfold EvolutionDescription_new in H.
  bind_inv H et Het. apply init_evolutionTimes_Ok in Het. subst et.
  set (et := evolutionTimes_or_default rateTimes evolutionTimes) in *.
  bind_inv H taus0 Htaus0. apply vector_n_inv in Htaus0.
  destruct Htaus0 as [Hb1 _].
  bind_inv H fa0 Hfa0. apply vector_n_inv in Hfa0. destruct Hfa0 as [Hb2 _].
  bind_inv H u1 Hsize. apply QL_REQUIRE_Ok in Hsize.
  rewrite Z.gtb_ltb in Hsize. apply Z.ltb_lt in Hsize.
  rewrite (Size_sub_ge (size rateTimes) 1) in Hb1 by lia.
  bind_inv H r0 Hr0. bind_inv H u2 Hfirst. apply QL_REQUIRE_Ok in Hfirst.
  apply Qle_bool_true in Hfirst.
  bind_inv H u3 Hrinc.
  pose proof (check_increasing_spec rateTimes RateTimesNotIncreasing) as Hc1.
  rewrite Hrinc in Hc1.
  bind_inv H u4 Hne. apply QL_REQUIRE_Ok in Hne.
  rewrite Z.gtb_ltb in Hne. apply Z.ltb_lt in Hne.
  bind_inv H u5 Heinc.
  pose proof (check_increasing_spec et EvolutionTimesNotIncreasing) as Hc2.
  rewrite Heinc in Hc2.
  bind_inv H rl Hrl. bind_inv H el Hel. bind_inv H u6 Hlast.
  apply QL_REQUIRE_Ok in Hlast. apply Qle_bool_true in Hlast.
  bind_inv H rr Hrr.
  split; [|split; [exact Hb1 | exact Hb2]].
  constructor; auto.
  - intros r0' Hr0'. rewrite Hr0 in Hr0'. inversion Hr0'; subst. exact Hfirst.
  - intros r e Hr He. fold et in He. rewrite Hrl in Hr. rewrite Hel in He.
    inversion Hr; inversion He; subst. exact Hlast.
  - intros Hnonempty. fold et.
    destruct (Z.eqb_spec (size relevanceRates) 0) as [Hz|Hnz].
    + apply size_nil_iff in Hz. contradiction.
    + bind_inv Hrr u7 Hq. apply QL_REQUIRE_Ok in Hq.
      apply Z.eqb_eq in Hq. exact Hq.
Qed.

(** The two together: a constructed description has the derived tables
    the constructor computes. *)
Lemma EvolutionDescription_new_constructed
      (rateTimes evolutionTimes : list Time)
      (relevanceRates : list (Size * Size)) (ev : EvolutionDescription) :
  EvolutionDescription_new rateTimes evolutionTimes relevanceRates = Ok ev ->
  constructed rateTimes evolutionTimes relevanceRates ev.
Proof.
  intros H.
  destruct (EvolutionDescription_new_sound _ _ _ _ H) as [Hpre [Hb1 Hb2]].
  destruct (EvolutionDescription_new_complete _ _ _ Hb1 Hb2 Hpre)
    as [ev' [H' Hcon]].
  rewrite H in H'. inversion H'. subst. exact Hcon.
Qed.

(** ** Constructed descriptions *)

Lemma EvolutionDescription_new_well_formed
      (rateTimes evolutionTimes : list Time)
      (relevanceRates : list (Size * Size)) (ev : EvolutionDescription) :
  EvolutionDescription_new rateTimes evolutionTimes relevanceRates = Ok ev ->
  well_formed ev.
Proof.
  intros H.
  destruct (EvolutionDescription_new_sound _ _ _ _ H) as [Hpre [Hb1 Hb2]].
  destruct (EvolutionDescription_new_constructed _ _ _ _ H)
    as [Hrt Het _ _ _ _ _ _ _ _].
  destruct Hpre as [Hsize Hfirst Hrinc Hene Heinc Hlast _].
  constructor; rewrite ?Hrt, ?Het; auto.
  destruct (at_in_range rateTimes 0 ltac:(lia)) as [r0 Hr0]. eauto.
Qed.

(** ** The money-market cursor *)

Lemma first_at_least_unique (v : list Time) (t : Time) (j j' : Size) :
  0 <= j -> 0 <= j' ->
  first_at_least v t j -> first_at_least v t j' -> j = j'.
Proof.
  intros Hj Hj' [[r [Hr Hle]] Hbelow] [[r' [Hr' Hle']] Hbelow'].
  destruct (Z.lt_trichotomy j j') as [H|[H|H]]; [|exact H|].
  - specialize (Hbelow' j r ltac:(lia) Hr). lra.
  - specialize (Hbelow j' r' ltac:(lia) Hr'). lra.
Qed.

Lemma advance_cursor_spec (ev : EvolutionDescription) (i j : Size) :
  well_formed ev ->
  0 <= i < size (evolutionTimes_ ev) ->
  cursor_ready ev i j ->
  exists j' e,
    advance_cursor (rateTimes_ ev) (evolutionTimes_ ev) i j = Ok j' /\
    at_ (evolutionTimes_ ev) i = Ok e /\
    j <= j' /\
    first_at_least (rateTimes_ ev) e j' /\
    cursor_ready ev (i + 1) j'.
Proof.
  intros [Hsize _ Hrinc Hsteps Heinc Hlast _ _] Hi [Hj Hbelow].
  set (rt := rateTimes_ ev) in *. set (et := evolutionTimes_ ev) in *.
  destruct (at_in_range et i Hi) as [e He].
  destruct (at_in_range rt (size rt - 1) ltac:(lia)) as [rl Hrl].
  destruct (at_in_range et (size et - 1) ltac:(lia)) as [el Hel].
  pose proof (Hlast rl el Hrl Hel) as Hll.
  pose proof (increasing_le et Heinc i (size et - 1) e el ltac:(lia) He Hel)
    as Hel_le.
  unfold advance_cursor.
  rewrite (while_loop_ext _
             (fun j => let* r := at_ rt j in Ok (Qlt_bool r e)))
    by (intros s; destruct (at_ rt s); simpl; [rewrite He|]; reflexivity).
  pose proof (cursor_loop_spec rt (fun r => Qlt_bool r e)
                (S (length rt)) j ltac:(lia) ltac:(lia)
                ltac:(unfold size; lia)) as Hcur.
  unfold cursor_loop in Hcur.
  loop_cases Hcur j' f E.
  - destruct Hcur as [Hj' [[r' [Hr' Hp']] Hbetween]].
    apply Qlt_bool_false in Hp'.
    assert (Hall : forall k r, 0 <= k < j' -> at_ rt k = Ok r -> (r < e)%Q).
    { intros k r Hk Hr. destruct (Z.lt_ge_cases k j) as [Hlo|Hhi].
      - apply (Hbelow k r e); auto. lia.
      - destruct (Hbetween k ltac:(lia)) as [r'' [Hr'' Hp'']].
        rewrite Hr in Hr''. inversion Hr''; subst.
        apply Qlt_bool_true in Hp''. exact Hp''. }
    exists j', e. split; [exact E|]. split; [exact He|]. split; [lia|].
    split; [split; [eauto | exact Hall]|].
    split; [change (rateTimes_ ev) with rt; lia|]. intros k r e' Hk Hr He'.
    pose proof (increasing_lt et Heinc i (i + 1) e e' ltac:(lia) He He').
    specialize (Hall k r Hk Hr). lra.
  - destruct Hcur as [_ Hall].
    destruct (Hall (size rt - 1) ltac:(lia)) as [r [Hr Hp]].
    rewrite Hrl in Hr. inversion Hr; subst.
    apply Qlt_bool_true in Hp. lra.
Qed.

Lemma expected_numeraire_unique (ev : EvolutionDescription)
      (offset i v v' : Size) :
  expected_numeraire ev offset i v -> expected_numeraire ev offset i v' ->
  v = v'.
Proof.
  intros [e [j [He [Hj ->]]]] [e' [j' [He' [Hj' ->]]]].
  rewrite He in He'. inversion He'; subst e'.
  assert (j = j') as ->; [|reflexivity].
  destruct Hj as [[r [Hr Hle]] Hb], Hj' as [[r' [Hr' Hle']] Hb'].
  apply (first_at_least_unique (rateTimes_ ev) e);
    [exact (proj1 (at_Ok_range _ _ _ Hr))
    |exact (proj1 (at_Ok_range _ _ _ Hr'))
    |split; eauto | split; eauto].
Qed.

Lemma cursor_ready_start (ev : EvolutionDescription) :
  well_formed ev -> cursor_ready ev 0 0.
Proof.
  intros Hwf. pose proof (wf_size ev Hwf). split; [lia|]. intros; lia.
Qed.

(** The generator writes the expected numeraire of every step. *)
Lemma moneyMarketPlusMeasure_spec (ev : EvolutionDescription)
      (offset : Size) :
  well_formed ev ->
  offset <= Size_sub (size (rateTimes_ ev)) 1 ->
  exists numeraires,
    moneyMarketPlusMeasure ev offset = Ok numeraires /\
    size numeraires = size (evolutionTimes_ ev) /\
    forall i, 0 <= i < size (evolutionTimes_ ev) ->
      exists v, at_ numeraires i = Ok v /\ expected_numeraire ev offset i v.
Proof.
  intros Hwf Hoff. unfold moneyMarketPlusMeasure, rateTimes, evolutionTimes.
  destruct (Z.leb_spec offset (Size_sub (size (rateTimes_ ev)) 1)); [|lia].
  cbn [QL_REQUIRE bind].
  pose proof (wf_et_max ev Hwf) as Hmax.
  pose proof (size_nonneg (evolutionTimes_ ev)) as Hnn.
  rewrite vector_n_Ok by exact Hmax. cbn [bind].
  match goal with
  | |- exists _, bind (for_loop ?fuel0 ?i0 ?n0 ?body0 ?s0) _ = _ /\ _ =>
      pose proof (for_loop_spec
        (fun i (s : Size * list Size) =>
           cursor_ready ev i (fst s) /\
           size (snd s) = size (evolutionTimes_ ev) /\
           forall i', 0 <= i' < i ->
             exists v, at_ (snd s) i' = Ok v /\
                       expected_numeraire ev offset i' v)
        (fun _ _ => False)
        n0 body0 fuel0 i0 s0 Hnn ltac:(lia)) as Hloop
  end.
  match type of Hloop with ?P -> ?Q -> _ =>
    assert (H1 : P); [|assert (H2 : Q); [|specialize (Hloop H1 H2)]] end.
  - cbn [fst snd]. split; [apply cursor_ready_start; exact Hwf|].
    split; [apply size_replicate; exact Hnn|]. intros; lia.
  - intros k [j nums] Hk (Hready & Hsz & Hdone). cbn [fst snd] in *.
    destruct (advance_cursor_spec ev k j Hwf Hk Hready)
      as [j' [e [Eadv [He [Hjj' [Hfirst Hready']]]]]].
    rewrite Eadv. cbn [bind]. rewrite set_at_Ok by lia. cbn [bind fst snd].
    split; [exact Hready'|]. split; [rewrite size_insert; exact Hsz|].
    intros i' Hi'. destruct (Z.eq_dec i' k) as [->|Hne].
    + eexists. split; [apply at_insert_eq; lia|].
      exists e, j'. auto.
    + destruct (Hdone i' ltac:(lia)) as [v [Hv Hexp]].
      exists v. split; [|exact Hexp]. rewrite at_insert_ne by lia. exact Hv.
  - loop_cases Hloop s f E.
    + destruct s as [j nums]. cbn [fst snd] in Hloop.
      destruct Hloop as (_ & Hsz & Hdone).
      exists nums. split; [|split; [exact Hsz | exact Hdone]].
      eapply bind_Ok; [exact E | reflexivity].
    + destruct Hloop as [k [_ []]].
Qed.

(** The classifier: with a numeraire for every step it answers whether
    each is the expected one; with fewer it reads outside the vector. *)
Lemma isInMoneyMarketPlusMeasure_spec (ev : EvolutionDescription)
      (numeraires : list Size) (offset : Size) :
  well_formed ev ->
  offset <= Size_sub (size (rateTimes_ ev)) 1 ->
  match isInMoneyMarketPlusMeasure ev numeraires offset with
  | Ok b =>
      size (evolutionTimes_ ev) <= size numeraires /\
      (b = true <->
       forall i, 0 <= i < size (evolutionTimes_ ev) ->
         exists v, at_ numeraires i = Ok v /\
                   expected_numeraire ev offset i v)
  | Fail f => f = Undefined /\ size numeraires < size (evolutionTimes_ ev)
  end.
Proof.
  intros Hwf Hoff.
  unfold isInMoneyMarketPlusMeasure, rateTimes, evolutionTimes.
  destruct (Z.leb_spec offset (Size_sub (size (rateTimes_ ev)) 1)); [|lia].
  cbn [QL_REQUIRE bind].
  pose proof (size_nonneg (evolutionTimes_ ev)) as Hnn.
  match goal with
  | |- match bind (for_loop ?fuel0 ?i0 ?n0 ?body0 ?s0) _ with _ => _ end =>
      pose proof (for_loop_spec
        (fun i (s : Size * bool) =>
           cursor_ready ev i (fst s) /\
           i <= size numeraires /\
           (snd s = true <->
            forall i', 0 <= i' < i ->
              exists v, at_ numeraires i' = Ok v /\
                        expected_numeraire ev offset i' v))
        (fun k f => f = Undefined /\ size numeraires <= k)
        n0 body0 fuel0 i0 s0 Hnn ltac:(lia)) as Hloop
  end.
  match type of Hloop with ?P -> ?Q -> _ =>
    assert (H1 : P); [|assert (H2 : Q); [|specialize (Hloop H1 H2)]] end.
  - cbn [fst snd]. split; [apply cursor_ready_start; exact Hwf|].
    pose proof (size_nonneg numeraires).
    split; [lia|]. split; [intros _ i' Hi'; lia | reflexivity].
  - intros k [j res] Hk (Hready & Hle & Hres). cbn [fst snd] in *.
    destruct (advance_cursor_spec ev k j Hwf Hk Hready)
      as [j' [e [Eadv [He [Hjj' [Hfirst Hready']]]]]].
    rewrite Eadv. cbn [bind].
    destruct (at_ numeraires k) as [num|f] eqn:Hnum; cbn [bind fst snd].
    + pose proof (at_Ok_range _ _ _ Hnum) as Hkr.
      split; [exact Hready'|]. split; [lia|].
      assert (Hexp : expected_numeraire ev offset k
                (min_Size (Size_add j' offset)
                          (Size_sub (size (rateTimes_ ev)) 1)))
        by (exists e, j'; auto).
      rewrite andb_true_iff, Z.eqb_eq, Hres. split.
      * intros [-> Hall] i' Hi'. destruct (Z.eq_dec i' k) as [->|Hne].
        -- eexists. split; [exact Hnum | exact Hexp].
        -- apply Hall. lia.
      * intros Hall. split.
        -- destruct (Hall k ltac:(lia)) as [v [Hv Hexpv]].
           rewrite Hnum in Hv. inversion Hv; subst.
           apply (expected_numeraire_unique ev offset k); assumption.
        -- intros i' Hi'. apply Hall. lia.
    + apply at_Fail in Hnum. destruct Hnum as [-> Hout]. split; [reflexivity|].
      lia.
  - loop_cases Hloop s f E.
    + destruct s as [j res]. cbn [fst snd] in Hloop.
      destruct Hloop as (_ & Hle & Hres).
      erewrite bind_Ok; [|exact E|reflexivity]. split; assumption.
    + destruct Hloop as [k [Hk [-> Hle]]].
      erewrite bind_Fail; [|exact E]. split; [reflexivity | lia].
Qed.

(** On any description, also one that was not constructed from checked
    inputs, the cursor loop ends: it stops inside the rate times or reads
    outside a vector. *)
Lemma advance_cursor_outcome (rateTimes evolutionTimes : list Time)
      (i j : Size) :
  0 <= j ->
  match advance_cursor rateTimes evolutionTimes i j with
  | Ok j' => j <= j' < size rateTimes
  | Fail f => f = Undefined
  end.
Proof.
  intros Hj. unfold advance_cursor.
  destruct (at_ evolutionTimes i) as [e|f] eqn:He.
  - rewrite (while_loop_ext _
               (fun j => let* r := at_ rateTimes j in Ok (Qlt_bool r e)))
      by (intros s; destruct (at_ rateTimes s); simpl; try rewrite He;
          reflexivity).
    pose proof (cursor_loop_spec rateTimes (fun r => Qlt_bool r e)
                  (S (length rateTimes)) j Hj ltac:(lia)
                  ltac:(unfold size; lia)) as Hcur.
    unfold cursor_loop in Hcur.
    loop_cases Hcur j' f E; rewrite E.
    + exact (proj1 Hcur).
    + exact (proj1 Hcur).
  - apply at_Fail in He. destruct He as [-> _].
    cbn [while_loop].
    destruct (at_ rateTimes j) as [r|f] eqn:Hr; cbn [bind].
    + reflexivity.
    + apply at_Fail in Hr. tauto.
Qed.

(** The failures of the two money-market-plus functions: the range error
    of the offset, exactly when the offset is too large; a vector that
    cannot be allocated; a read outside a vector.  The fuel is enough. *)
Lemma moneyMarketPlusMeasure_failure (ev : EvolutionDescription)
      (offset : Size) (f : Failure) :
  moneyMarketPlusMeasure ev offset = Fail f ->
  (f = Throw (OffsetTooLarge offset (Size_sub (size (rateTimes ev)) 1)) /\
   Size_sub (size (rateTimes ev)) 1 < offset) \/
  (offset <= Size_sub (size (rateTimes ev)) 1 /\
   (f = LengthError \/ f = Undefined)).
Proof.
  unfold moneyMarketPlusMeasure.
  destruct (Z.leb_spec offset (Size_sub (size (rateTimes ev)) 1)) as [Hle|Hgt];
    cbn [QL_REQUIRE bind].
  2:{ intros H. inversion H. left. split; [reflexivity | lia]. }
  intros H. right. split; [exact Hle|].
  destruct (vector_n (size (evolutionTimes ev)) 0) as [v|f0] eqn:Hv;
    cbn [bind] in H.
  2:{ apply vector_n_Fail in Hv. inversion H. subst. tauto. }
  pose proof (size_nonneg (evolutionTimes ev)) as Hnn.
  match type of H with
  | bind (for_loop ?fuel0 ?i0 ?n0 ?body0 ?s0) _ = _ =>
      pose proof (for_loop_spec
        (fun _ (s : Size * list Size) => 0 <= fst s)
        (fun _ f => f = Undefined)
        n0 body0 fuel0 i0 s0 Hnn ltac:(lia) ltac:(simpl; lia)) as Hloop
  end.
  match type of Hloop with ?P -> _ =>
    assert (H1 : P); [|specialize (Hloop H1)] end.
  - intros k [j nums] Hk Hj. cbn [fst] in Hj.
    pose proof (advance_cursor_outcome (rateTimes ev) (evolutionTimes ev)
                  k j Hj) as Hadv.
    destruct (advance_cursor _ _ k j) as [j'|f']; cbn [bind].
    + unfold set_at.
      destruct ((0 <=? k) && (k <? size nums)); cbn [bind fst];
        [lia | reflexivity].
    + exact Hadv.
  - loop_cases Hloop s f' E.
    + erewrite bind_Ok in H; [|exact E|reflexivity].
      destruct s. discriminate.
    + erewrite bind_Fail in H; [|exact E].
      destruct Hloop as [k [_ ->]]. inversion H. tauto.
Qed.

Lemma isInMoneyMarketPlusMeasure_failure (ev : EvolutionDescription)
      (numeraires : list Size) (offset : Size) (f : Failure) :
  isInMoneyMarketPlusMeasure ev numeraires offset = Fail f ->
  (f = Throw (OffsetTooLarge offset (Size_sub (size (rateTimes ev)) 1)) /\
   Size_sub (size (rateTimes ev)) 1 < offset) \/
  (offset <= Size_sub (size (rateTimes ev)) 1 /\ f = Undefined).
Proof.
  unfold isInMoneyMarketPlusMeasure.
  destruct (Z.leb_spec offset (Size_sub (size (rateTimes ev)) 1)) as [Hle|Hgt];
    cbn [QL_REQUIRE bind].
  2:{ intros H. inversion H. left. split; [reflexivity | lia]. }
  intros H. right. split; [exact Hle|].
  pose proof (size_nonneg (evolutionTimes ev)) as Hnn.
  match type of H with
  | bind (for_loop ?fuel0 ?i0 ?n0 ?body0 ?s0) _ = _ =>
      pose proof (for_loop_spec
        (fun _ (s : Size * bool) => 0 <= fst s)
        (fun _ f => f = Undefined)
        n0 body0 fuel0 i0 s0 Hnn ltac:(lia) ltac:(simpl; lia)) as Hloop
  end.
  match type of Hloop with ?P -> _ =>
    assert (H1 : P); [|specialize (Hloop H1)] end.
  - intros k [j res] Hk Hj. cbn [fst] in Hj.
    pose proof (advance_cursor_outcome (rateTimes ev) (evolutionTimes ev)
                  k j Hj) as Hadv.
    destruct (advance_cursor _ _ k j) as [j'|f']; cbn [bind].
    + destruct (at_ numeraires k) as [num|f'] eqn:Hnum; cbn [bind fst].
      * lia.
      * apply at_Fail in Hnum. tauto.
    + exact Hadv.
  - loop_cases Hloop s f' E.
    + erewrite bind_Ok in H; [|exact E|reflexivity].
      destruct s. discriminate.
    + erewrite bind_Fail in H; [|exact E].
      destruct Hloop as [k [_ ->]]. inversion H. reflexivity.
Qed.

(** ** The terminal measure *)

Lemma min_element_from_spec (v : list Size) :
  forall smallest,
    (min_element_from smallest v = smallest \/
     In (min_element_from smallest v) v) /\
    min_element_from smallest v <= smallest /\
    forall x, In x v -> min_element_from smallest v <= x.
Proof.
  induction v as [|y v IH]; intros smallest; simpl.
  - split; [auto|]. split; [lia|]. intros x [].
  - destruct (IH (if y <? smallest then y else smallest)) as [Hin [Hle Hall]].
    destruct (Z.ltb_spec y smallest) as [Hlt|Hge].
    + split; [destruct Hin as [->|Hin]; auto|]. split; [lia|].
      intros x [<-|Hx]; [exact Hle | apply Hall; exact Hx].
    + split; [destruct Hin as [->|Hin]; auto|]. split; [lia|].
      intros x [<-|Hx]; [lia | apply Hall; exact Hx].
Qed.

Lemma deref_min_element_spec (v : list Size) :
  v <> [] -> exists m, deref_min_element v = Ok m /\ is_minimum m v.
Proof.
  destruct v as [|x v]; [congruence|]. intros _.
  exists (min_element_from x v). split; [reflexivity|].
  destruct (min_element_from_spec v x) as [Hin [Hle Hall]].
  split.
  - destruct Hin as [->|Hin]; [left; reflexivity | right; exact Hin].
  - intros y [<-|Hy]; [exact Hle | apply Hall; exact Hy].
Qed.

Lemma is_minimum_unique (m m' : Size) (v : list Size) :
  is_minimum m v -> is_minimum m' v -> m = m'.
Proof.
  intros [Hin Hall] [Hin' Hall'].
  specialize (Hall m' Hin'). specialize (Hall' m Hin). lia.
Qed.

Lemma is_minimum_replicate (n : nat) (x : Size) :
  (0 < n)%nat -> is_minimum x (replicate n x).
Proof.
  intros Hn. split.
  - destruct n; [lia|]. left. reflexivity.
  - intros y Hy. apply list_elem_of_In in Hy.
    apply elem_of_replicate in Hy. lia.
Qed.

(** ** The compatibility check *)

(** The loop over the steps but the last: it passes when no numeraire has
    expired, and throws at the first one that has. *)
Lemma checkCompatibility_loop (ev : EvolutionDescription)
      (numeraires : list Size) :
  well_formed ev ->
  size numeraires = size (evolutionTimes_ ev) ->
  (forall i num, 0 <= i < size (evolutionTimes_ ev) - 1 ->
                 at_ numeraires i = Ok num ->
                 0 <= num < size (rateTimes_ ev)) ->
  match checkCompatibility ev numeraires with
  | Ok _ =>
      forall i num r e,
        0 <= i < size (evolutionTimes_ ev) - 1 ->
        at_ numeraires i = Ok num -> at_ (rateTimes_ ev) num = Ok r ->
        at_ (evolutionTimes_ ev) i = Ok e -> (e <= r)%Q
  | Fail f =>
      exists i num r e,
        0 <= i < size (evolutionTimes_ ev) - 1 /\
        at_ numeraires i = Ok num /\ at_ (rateTimes_ ev) num = Ok r /\
        at_ (evolutionTimes_ ev) i = Ok e /\ (r < e)%Q /\
        f = Throw (NumeraireExpired i e num r)
  end.
Proof.
  intros Hwf Hsz Hrange. pose proof (wf_steps ev Hwf) as Hsteps.
  unfold checkCompatibility, rateTimes, evolutionTimes.
  rewrite Hsz, Z.eqb_refl. cbn [QL_REQUIRE bind].
  rewrite (Size_sub_ge (size (evolutionTimes_ ev)) 1) by lia.
  match goal with
  | |- match for_loop ?fuel0 ?i0 ?n0 ?body0 ?s0 with _ => _ end =>
      pose proof (for_loop_spec
        (fun k (_ : unit) =>
           forall i num r e, 0 <= i < k ->
             at_ numeraires i = Ok num -> at_ (rateTimes_ ev) num = Ok r ->
             at_ (evolutionTimes_ ev) i = Ok e -> (e <= r)%Q)
        (fun k f =>
           exists num r e,
             at_ numeraires k = Ok num /\ at_ (rateTimes_ ev) num = Ok r /\
             at_ (evolutionTimes_ ev) k = Ok e /\ (r < e)%Q /\
             f = Throw (NumeraireExpired k e num r))
        n0 body0 fuel0 i0 s0 ltac:(lia)
        ltac:(unfold size in *; lia)) as Hloop
  end.
  match type of Hloop with ?P -> ?Q -> _ =>
    assert (H1 : P); [|assert (H2 : Q); [|specialize (Hloop H1 H2)]] end.
  - intros; lia.
  - intros k [] Hk Hinv.
    destruct (at_in_range numeraires k ltac:(lia)) as [num Hnum].
    destruct (at_in_range (rateTimes_ ev) num (Hrange k num Hk Hnum))
      as [r Hr].
    destruct (at_in_range (evolutionTimes_ ev) k ltac:(lia)) as [e He].
    rewrite Hnum. cbn [bind]. rewrite Hr, He. cbn [bind]. unfold QL_REQUIRE.
    destruct (Qle_bool e r) eqn:Hle.
    + apply Qle_bool_true in Hle.
      intros i num' r' e' Hi Hnum' Hr' He'.
      destruct (Z.eq_dec i k) as [->|Hne].
      * rewrite Hnum in Hnum'. inversion Hnum'; subst num'.
        rewrite Hr in Hr'. rewrite He in He'.
        inversion Hr'; inversion He'; subst. exact Hle.
      * apply (Hinv i num' r' e'); auto. lia.
    + apply Qle_bool_false in Hle. exists num, r, e. auto 6.
  - loop_cases Hloop u f E; rewrite E.
    + exact Hloop.
    + destruct Hloop as [k [Hk [num [r [e H]]]]].
      exists k, num, r, e. split; [lia | exact H].
Qed.

(** On any description the check ends with its fuel: it passes, throws,
    or reads outside a vector.  With no step at all, [n-1] wraps and the
    first iteration reads [numeraires[0]] of an empty vector. *)
Lemma checkCompatibility_failure (ev : EvolutionDescription)
      (numeraires : list Size) (f : Failure) :
  checkCompatibility ev numeraires = Fail f ->
  (exists e, f = Throw e) \/ f = Undefined.
Proof.
  unfold checkCompatibility, rateTimes, evolutionTimes.
  destruct (Z.eqb_spec (size numeraires) (size (evolutionTimes_ ev)))
    as [Hsz|Hne]; cbn [QL_REQUIRE bind].
  2:{ intros H. inversion H. eauto. }
  pose proof (size_nonneg numeraires) as Hnn.
  destruct (Z.eq_dec (size numeraires) 0) as [Hz|Hnz].
  - rewrite <- Hsz, Hz. apply size_nil_iff in Hz. subst numeraires.
    cbn. intros H. inversion H. auto.
  - rewrite <- Hsz. rewrite Size_sub_ge by lia.
    match goal with
    | |- for_loop ?fuel0 ?i0 ?n0 ?body0 ?s0 = _ -> _ =>
        pose proof (for_loop_spec
          (fun _ (_ : unit) => True)
          (fun _ f => (exists e, f = Throw e) \/ f = Undefined)
          n0 body0 fuel0 i0 s0 ltac:(lia)
          ltac:(unfold size in *; lia) I) as Hloop
    end.
    match type of Hloop with ?P -> _ =>
      assert (H1 : P); [|specialize (Hloop H1)] end.
    + intros k [] Hk _.
      destruct (at_ numeraires k) as [num|f1] eqn:Hnum; cbn [bind];
        [|apply at_Fail in Hnum; tauto].
      destruct (at_ (rateTimes_ ev) num) as [r|f1] eqn:Hr; cbn [bind];
        [|apply at_Fail in Hr; tauto].
      destruct (at_ (evolutionTimes_ ev) k) as [e|f1] eqn:He; cbn [bind];
        [|apply at_Fail in He; tauto].
      unfold QL_REQUIRE. destruct (Qle_bool e r); [exact I | eauto].
    + intros H. rewrite H in Hloop. destruct Hloop as [k [_ Hk]]. exact Hk.
Qed.

(** ** Scenarios and claims *)

(** On a constructed description no sum [j + offset] wraps, so the
    expected numeraire is the minimum of the integers. *)
Lemma expected_numeraire_value (ev : EvolutionDescription)
      (offset i v : Size) :
  well_formed ev ->
  offset <= size (rateTimes_ ev) - 1 ->
  expected_numeraire ev offset i v ->
  exists e j,
    at_ (evolutionTimes_ ev) i = Ok e /\
    first_at_least (rateTimes_ ev) e j /\
    0 <= j <= size (rateTimes_ ev) - 1 /\
    v = Z.min (j + offset) (size (rateTimes_ ev) - 1).
Proof.
  intros Hwf Hoff [e [j [He [Hj ->]]]].
  pose proof (wf_size ev Hwf). pose proof (wf_rt_max ev Hwf) as Hmax.
  exists e, j. split; [exact He|]. split; [exact Hj|].
  destruct Hj as [[r [Hr _]] _]. apply at_Ok_range in Hr.
  split; [lia|].
  rewrite Size_sub_ge by lia.
  rewrite Size_add_small
    by (unfold max_size, Size_modulus in *; lia).
  unfold min_Size.
  destruct (Z.ltb_spec (size (rateTimes_ ev) - 1) (j + offset)); lia.
Qed.

Lemma first_above_Qeq (v : list Time) (t t' : Time) (f : Size) :
  (t == t')%Q -> first_above v t f -> first_above v t' f.
Proof.
  intros Heq [[r [Hr Hlt]] Hbelow]. split.
  - exists r. split; [exact Hr | lra].
  - intros k r' Hk Hr'. specialize (Hbelow k r' Hk Hr'). lra.
Qed.

Lemma scenario_constructed :
  EvolutionDescription_new scenario_rateTimes [] [] = Ok scenario.
Proof. vm_compute. reflexivity. Qed.

(** A default-constructed description has no rate time and no step.  The
    functions below are outside their domain on it: [n-1] wraps in
    checkCompatibility, which then reads [numeraires[0]] of an empty
    vector, and the terminal measure is empty, so its minimum cannot be
    read. *)
Example default_checkCompatibility :
  checkCompatibility EvolutionDescription_default [] = Fail Undefined.
Proof. reflexivity. Qed.

Example default_terminalMeasure :
  terminalMeasure EvolutionDescription_default = Ok [] /\
  isInTerminalMeasure EvolutionDescription_default [] = Fail Undefined.
Proof. split; reflexivity. Qed.

(** The other numbers of the scenario of the specification. *)
Example scenario_rateTaus : rateTaus scenario = [1; 1; 1]%Q.
Proof. reflexivity. Qed.

Example scenario_terminalMeasure : terminalMeasure scenario = Ok [3; 3; 3].
Proof. reflexivity. Qed.

(** C1, as stated, fails: for rateTimes = [0,1,2,3] and the default
    evolution times [0,1,2] the money-market measure is not [1,2,3]. *)
Lemma scenario_moneyMarketMeasure_is_not_1_2_3 :
  exists ev,
    EvolutionDescription_new [0; 1; 2; 3]%Q [] [] = Ok ev /\
    evolutionTimes ev = [0; 1; 2]%Q /\
    moneyMarketMeasure ev <> Ok [1; 2; 3].
Proof.
  exists scenario. split; [vm_compute; reflexivity|].
  split; [reflexivity|]. vm_compute. discriminate.
Qed.

(** C1, amended: for rateTimes = [0,1,2,3] and an empty evolutionTimes
    argument, which defaults to [0,1,2], moneyMarketMeasure returns
    [0,1,2]: the numeraire of every step is the first rate index whose
    rate time is at least the evolution time of the step. *)
Theorem scenario_moneyMarketMeasure_is_0_1_2 :
  exists ev,
    EvolutionDescription_new [0; 1; 2; 3]%Q [] [] = Ok ev /\
    evolutionTimes ev = [0; 1; 2]%Q /\
    moneyMarketMeasure ev = Ok [0; 1; 2] /\
    forall i, 0 <= i < numberOfSteps ev ->
      exists e j, at_ (evolutionTimes ev) i = Ok e /\
                  first_at_least (rateTimes ev) e j /\
                  at_ [0; 1; 2] i = Ok j.
Proof.
  exists scenario. split; [vm_compute; reflexivity|].
  split; [reflexivity|].
  assert (Hmm : moneyMarketMeasure scenario = Ok [0; 1; 2])
    by (vm_compute; reflexivity).
  split; [exact Hmm|].
  pose proof (EvolutionDescription_new_well_formed _ _ _ _
                scenario_constructed) as Hwf.
  destruct (moneyMarketPlusMeasure_spec scenario 0 Hwf
              ltac:(vm_compute; discriminate))
    as [nums [Hnums [_ Hall]]].
  unfold moneyMarketMeasure in Hmm. rewrite Hmm in Hnums.
  inversion Hnums; subst nums.
  intros i Hi. destruct (Hall i Hi) as [v [Hv Hexp]].
  destruct (expected_numeraire_value scenario 0 i v Hwf
              ltac:(vm_compute; discriminate) Hexp)
    as [e [j [He [Hj [Hjr ->]]]]].
  exists e, j. split; [exact He|]. split; [exact Hj|].
  etransitivity; [exact Hv|]. f_equal. lia.
Qed.

(** C2, as stated, fails: with rateTimes = [0,1,2] and
    evolutionTimes = [-5,1] the description is constructed,
    firstAliveRate()[1] is 1, and rate index 0 already has
    rateTimes[0] = 0 > -5 = evolutionTimes[0]. *)
Lemma firstAliveRate_not_smallest_above_previous :
  exists ev,
    EvolutionDescription_new [0; 1; 2]%Q [-5; 1]%Q [] = Ok ev /\
    previous_time (evolutionTimes ev) 1 = Ok (-5)%Q /\
    at_ (firstAliveRate ev) 1 = Ok 1 /\
    ~ first_above (rateTimes ev) (-5)%Q 1.
Proof.
  eexists. split; [vm_compute; reflexivity|].
  split; [reflexivity|]. split; [reflexivity|].
  intros [_ Hbelow].
  specialize (Hbelow 0 0%Q ltac:(lia) eq_refl). lra.
Qed.

(** C2, amended: for a constructed description and every step j,
    firstAliveRate()[j] is the smallest rate index i with
    rateTimes[i] > max(0, evolutionTimes[j-1]) (with 0 in place of
    evolutionTimes[j-1] when j = 0); when evolutionTimes[0] >= 0 this is
    the smallest i with rateTimes[i] > evolutionTimes[j-1]; and
    firstAliveRate() is non-decreasing. *)
Theorem firstAliveRate_smallest_above_capped_time
        (rateTimes0 evolutionTimes0 : list Time)
        (relevanceRates0 : list (Size * Size)) (ev : EvolutionDescription) :
  EvolutionDescription_new rateTimes0 evolutionTimes0 relevanceRates0
  = Ok ev ->
  size (firstAliveRate ev) = numberOfSteps ev /\
  (forall j, 0 <= j < numberOfSteps ev ->
     exists t f,
       previous_time (evolutionTimes ev) j = Ok t /\
       at_ (firstAliveRate ev) j = Ok f /\
       first_above (rateTimes ev) (Qmax 0 t) f /\
       ((forall e0, at_ (evolutionTimes ev) 0 = Ok e0 -> (0 <= e0)%Q) ->
        first_above (rateTimes ev) t f)) /\
  (forall j j' f f',
     0 <= j <= j' ->
     at_ (firstAliveRate ev) j = Ok f -> at_ (firstAliveRate ev) j' = Ok f' ->
     f <= f').
Proof.
  intros Hnew.
  pose proof (EvolutionDescription_new_well_formed _ _ _ _ Hnew) as Hwf.
  destruct (EvolutionDescription_new_constructed _ _ _ _ Hnew)
    as [Hrt _ _ _ _ _ _ _ Hfsz Hfa].
  unfold firstAliveRate, numberOfSteps, evolutionTimes, rateTimes.
  rewrite <- Hrt in Hfa.
  split; [exact Hfsz|]. split.
  - intros j Hj. destruct (Hfa j Hj) as [t [f [Ht [Hf Hfirst]]]].
    exists t, f. split; [exact Ht|]. split; [exact Hf|].
    split; [exact Hfirst|].
    intros Hnonneg. apply (first_above_Qeq _ (Qmax 0 t)); [|exact Hfirst].
    unfold previous_time in Ht. destruct (Z.eqb_spec j 0) as [->|Hne].
    + inversion Ht; subst. qmax; lra.
    + destruct (at_in_range (evolutionTimes_ ev) 0 ltac:(lia)) as [e0 He0].
      pose proof (increasing_le _ (wf_et_increasing ev Hwf) 0 (j - 1) e0 t
                    ltac:(lia) He0 Ht).
      specialize (Hnonneg e0 He0). qmax; lra.
  - intros j j' f f' Hj Hf Hf'.
    pose proof (at_Ok_range _ _ _ Hf) as Hr. rewrite Hfsz in Hr.
    pose proof (at_Ok_range _ _ _ Hf') as Hr'. rewrite Hfsz in Hr'.
    destruct (Hfa j Hr) as [t [g [Ht [Hg Hfirst]]]].
    destruct (Hfa j' Hr') as [t' [g' [Ht' [Hg' Hfirst']]]].
    rewrite Hf in Hg. rewrite Hf' in Hg'. inversion Hg; inversion Hg'; subst.
    apply (first_above_mono (rateTimes_ ev) (Qmax 0 t) (Qmax 0 t'));
      try assumption.
    + apply (previous_time_mono (evolutionTimes_ ev)
               (wf_et_increasing ev Hwf) j j'); auto.
    + destruct Hfirst' as [[r [Hr0 _]] _]. apply at_Ok_range in Hr0. lia.
Qed.

Lemma firstAliveRate_smallest_above_capped_time_witness :
  EvolutionDescription_new scenario_rateTimes [] [] = Ok scenario /\
  (size (firstAliveRate scenario) = numberOfSteps scenario /\
   (forall j, 0 <= j < numberOfSteps scenario ->
      exists t f,
        previous_time (evolutionTimes scenario) j = Ok t /\
        at_ (firstAliveRate scenario) j = Ok f /\
        first_above (rateTimes scenario) (Qmax 0 t) f /\
        ((forall e0, at_ (evolutionTimes scenario) 0 = Ok e0 -> (0 <= e0)%Q) ->
         first_above (rateTimes scenario) t f)) /\
   (forall j j' f f',
      0 <= j <= j' ->
      at_ (firstAliveRate scenario) j = Ok f ->
      at_ (firstAliveRate scenario) j' = Ok f' ->
      f <= f')).
Proof.
  split; [vm_compute; reflexivity|].
  apply (firstAliveRate_smallest_above_capped_time scenario_rateTimes [] [] scenario).
  vm_compute. reflexivity.
Defined.

(** C3: on a constructed description, checkCompatibility throws the
    size-mismatch error carrying both sizes whenever numeraires.size()
    differs from numberOfSteps(), whatever the numeraires are; otherwise,
    the numeraires of the steps but the last being rate indices, it
    throws the expiry error if and only if some step i other than the
    last has rateTimes[numeraires[i]] < evolutionTimes[i], the error
    carries that step with its times, and it passes when there is none:
    the last step is not checked and
    rateTimes[numeraires[i]] = evolutionTimes[i] passes.  The function
    returns nothing but this outcome; its arguments are constant
    references. *)
Theorem checkCompatibility_spec (rateTimes0 evolutionTimes0 : list Time)
        (relevanceRates0 : list (Size * Size)) (ev : EvolutionDescription)
        (numeraires : list Size) :
  EvolutionDescription_new rateTimes0 evolutionTimes0 relevanceRates0
  = Ok ev ->
  (size numeraires <> numberOfSteps ev ->
   checkCompatibility ev numeraires
   = Fail (Throw (NumerairesSizeMismatch (size numeraires)
                                         (numberOfSteps ev)))) /\
  (size numeraires = numberOfSteps ev ->
   (forall i num, 0 <= i < numberOfSteps ev - 1 ->
                  at_ numeraires i = Ok num ->
                  0 <= num < size (rateTimes ev)) ->
   ((exists i e num r,
       checkCompatibility ev numeraires
       = Fail (Throw (NumeraireExpired i e num r)))
    <->
    (exists i num r e,
       0 <= i < numberOfSteps ev - 1 /\
       at_ numeraires i = Ok num /\ at_ (rateTimes ev) num = Ok r /\
       at_ (evolutionTimes ev) i = Ok e /\ (r < e)%Q)) /\
   (checkCompatibility ev numeraires = Ok tt \/
    exists i num r e,
      0 <= i < numberOfSteps ev - 1 /\
      at_ numeraires i = Ok num /\ at_ (rateTimes ev) num = Ok r /\
      at_ (evolutionTimes ev) i = Ok e /\ (r < e)%Q /\
      checkCompatibility ev numeraires
      = Fail (Throw (NumeraireExpired i e num r)))).
Proof.
  intros Hnew.
  pose proof (EvolutionDescription_new_well_formed _ _ _ _ Hnew) as Hwf.
  unfold numberOfSteps, rateTimes, evolutionTimes in *. split.
  - intros Hne. unfold checkCompatibility, evolutionTimes.
    destruct (Z.eqb_spec (size numeraires) (size (evolutionTimes_ ev)));
      [contradiction | reflexivity].
  - intros Hsz Hrange.
    pose proof (checkCompatibility_loop ev numeraires Hwf Hsz Hrange) as Hloop.
    destruct (checkCompatibility ev numeraires) as [[]|f].
    + split; [|left; reflexivity]. split.
      * intros [i [e [num [r H]]]]. discriminate.
      * intros [i [num [r [e [Hi [Hnum [Hr [He Hlt]]]]]]]].
        specialize (Hloop i num r e Hi Hnum Hr He). lra.
    + destruct Hloop as [i [num [r [e [Hi [Hnum [Hr [He [Hlt ->]]]]]]]]].
      split; [|right; exists i, num, r, e; auto 7].
      split; [intros _; exists i, num, r, e; auto | intros _; eauto].
Qed.

(** The boundary scenario of C3: with evolutionTimes = [0,1],
    rateTimes = [0,1,2] and numeraires = [0,2] the check passes; with
    the one numeraire [9], which is no rate index, it throws the
    size-mismatch error. *)
Lemma checkCompatibility_spec_witness :
  EvolutionDescription_new [0; 1; 2]%Q [0; 1]%Q [] = Ok scenario2 /\
  size [0; 2] = numberOfSteps scenario2 /\
  (forall i num, 0 <= i < numberOfSteps scenario2 - 1 ->
                 at_ [0; 2] i = Ok num ->
                 0 <= num < size (rateTimes scenario2)) /\
  checkCompatibility scenario2 [0; 2] = Ok tt /\
  size [9] <> numberOfSteps scenario2 /\
  checkCompatibility scenario2 [9]
  = Fail (Throw (NumerairesSizeMismatch 1 2)).
Proof.
  assert (Hnew : EvolutionDescription_new [0; 1; 2]%Q [0; 1]%Q []
                 = Ok scenario2) by (vm_compute; reflexivity).
  assert (Hrange : forall i num, 0 <= i < numberOfSteps scenario2 - 1 ->
                     at_ [0; 2] i = Ok num ->
                     0 <= num < size (rateTimes scenario2)).
  { intros i num Hi. change (numberOfSteps scenario2 - 1) with 1 in Hi.
    assert (i = 0) as -> by lia. intros H. inversion H. vm_compute.
    split; [discriminate | reflexivity]. }
  assert (Hne : size [9] <> numberOfSteps scenario2)
    by (vm_compute; discriminate).
  split; [exact Hnew|]. split; [reflexivity|]. split; [exact Hrange|].
  split.
  - destruct (checkCompatibility_spec _ _ _ scenario2 [0; 2] Hnew)
      as [_ Hsame].
    destruct (Hsame eq_refl Hrange) as [_ [Hok|Hexp]]; [exact Hok|].
    destruct Hexp as [i [num [r [e [_ [_ [_ [_ [_ Hfail]]]]]]]]].
    vm_compute in Hfail. discriminate Hfail.
  - split; [exact Hne|].
    destruct (checkCompatibility_spec _ _ _ scenario2 [9] Hnew)
      as [Hmismatch _].
    exact (Hmismatch Hne).
Defined.

Lemma size_evolutionTimes_or_default_le (rateTimes evolutionTimes : list Time) :
  size (evolutionTimes_or_default rateTimes evolutionTimes)
  <= Z.max (size evolutionTimes) (size rateTimes).
Proof.
  unfold evolutionTimes_or_default.
  destruct (size evolutionTimes >? 0); [lia|].
  unfold size. rewrite length_take. lia.
Qed.

(** The failures of the constructor are exceptions: a [QL_REQUIRE] that
    throws, or [std::length_error] from the initialiser of [rateTaus_]
    when there is no rate time ([rateTimes.size()-1] wraps); only when
    both vectors are empty does the initialiser of [evolutionTimes_] step
    outside [rateTimes]. *)
Lemma EvolutionDescription_new_failure
      (rateTimes evolutionTimes : list Time)
      (relevanceRates : list (Size * Size)) (f : Failure) :
  size rateTimes <= max_size ->
  size evolutionTimes <= max_size ->
  EvolutionDescription_new rateTimes evolutionTimes relevanceRates = Fail f ->
  (exists e, f = Throw e) \/
  (f = LengthError /\ rateTimes = []) \/
  (f = Undefined /\ rateTimes = [] /\ evolutionTimes = []).
Proof.
  intros Hb1 Hb2 H0. pose proof H0 as H.
  pose proof (size_nonneg rateTimes) as Hnn.
  pose proof (size_evolutionTimes_or_default_le rateTimes evolutionTimes)
    as Hdle.
  unfold EvolutionDescription_new in H.
  destruct (init_evolutionTimes rateTimes evolutionTimes) as [et|f0] eqn:Hinit;
    cbn [bind] in H.
  2:{ apply init_evolutionTimes_Fail in Hinit. inversion H; subst. tauto. }
  apply init_evolutionTimes_Ok in Hinit. subst et.
  set (et := evolutionTimes_or_default rateTimes evolutionTimes) in *.
  destruct (vector_n (Size_sub (size rateTimes) 1) 0%Q) as [taus0|f0] eqn:Ht;
    cbn [bind] in H.
  2:{ apply vector_n_Fail in Ht. destruct Ht as [-> Ht]. inversion H; subst.
      right. left. split; [reflexivity|]. apply size_nil_iff.
      destruct (Z.eq_dec (size rateTimes) 0) as [|Hne]; [assumption|].
      rewrite Size_sub_ge in Ht by lia. lia. }
  destruct (vector_n (size et) 0) as [fa0|f0] eqn:Hf; cbn [bind] in H.
  2:{ apply vector_n_Fail in Hf. lia. }
  rewrite Z.gtb_ltb in H.
  destruct (Z.ltb_spec 1 (size rateTimes)) as [Hsize|Hsize];
    cbn [QL_REQUIRE bind] in H.
  2:{ inversion H. eauto. }
  destruct (at_in_range rateTimes 0 ltac:(lia)) as [r0 Hr0].
  rewrite Hr0 in H. cbn [bind] in H.
  destruct (Qle_bool 0 r0) eqn:Hfirst; cbn [QL_REQUIRE bind] in H.
  2:{ inversion H. eauto. }
  apply Qle_bool_true in Hfirst.
  pose proof (check_increasing_spec rateTimes RateTimesNotIncreasing) as Hc1.
  destruct (check_increasing rateTimes (size rateTimes) _) as [[]|f1];
    cbn [bind] in H.
  2:{ destruct Hc1 as [-> _]. inversion H. eauto. }
  rewrite Z.gtb_ltb in H.
  destruct (Z.ltb_spec 0 (size et)) as [Hsteps|Hsteps];
    cbn [QL_REQUIRE bind] in H.
  2:{ inversion H. eauto. }
  pose proof (check_increasing_spec et EvolutionTimesNotIncreasing) as Hc2.
  destruct (check_increasing et (size et) _) as [[]|f2]; cbn [bind] in H.
  2:{ destruct Hc2 as [-> _]. inversion H. eauto. }
  destruct (at_in_range rateTimes (size rateTimes - 1) ltac:(lia))
    as [rl Hrl].
  destruct (at_in_range et (size et - 1) ltac:(lia)) as [el Hel].
  unfold back at 1 2 in H. rewrite Hrl, Hel in H. cbn [bind] in H.
  destruct (Qle_bool el rl) eqn:Hlast; cbn [QL_REQUIRE bind] in H.
  2:{ inversion H. eauto. }
  apply Qle_bool_true in Hlast.
  destruct (Z.eqb_spec (size relevanceRates) 0) as [Hz|Hnz].
  - exfalso.
    destruct (EvolutionDescription_new_complete rateTimes evolutionTimes
                relevanceRates ltac:(lia) ltac:(fold et; lia)) as [ev [Hev _]];
      [|congruence].
    constructor; fold et; auto.
    + intros r0' Hr0'. rewrite Hr0 in Hr0'. inversion Hr0'; subst. exact Hfirst.
    + intros r e Hr He. unfold back in Hr, He. rewrite Hrl in Hr.
      rewrite Hel in He. inversion Hr; inversion He; subst. exact Hlast.
    + intros Hne. apply size_nil_iff in Hz. contradiction.
  - destruct (Z.eqb_spec (size relevanceRates) (size et)) as [Heq|Hneq];
      cbn [QL_REQUIRE bind] in H.
    2:{ inversion H. eauto. }
    exfalso.
    destruct (EvolutionDescription_new_complete rateTimes evolutionTimes
                relevanceRates ltac:(lia) ltac:(fold et; lia)) as [ev [Hev _]];
      [|congruence].
    constructor; fold et; auto.
    + intros r0' Hr0'. rewrite Hr0 in Hr0'. inversion Hr0'; subst. exact Hfirst.
    + intros r e Hr He. unfold back in Hr, He. rewrite Hrl in Hr.
      rewrite Hel in He. inversion Hr; inversion He; subst. exact Hlast.
Qed.

(** C4: for a constructed description and an offset k <= rateTimes.size()-1,
    the numeraires that moneyMarketPlusMeasure(ev, k) generates are
    recognised by isInMoneyMarketPlusMeasure(ev, ., k); the numeraire of
    step i is min(j + k, rateTimes.size()-1), where the cursor j stands at
    the first rate time that is not below evolutionTimes[i]. *)
Theorem moneyMarketPlusMeasure_round_trip
        (rateTimes0 evolutionTimes0 : list Time)
        (relevanceRates0 : list (Size * Size)) (ev : EvolutionDescription)
        (k : Size) :
  EvolutionDescription_new rateTimes0 evolutionTimes0 relevanceRates0
  = Ok ev ->
  k <= size (rateTimes ev) - 1 ->
  exists numeraires,
    moneyMarketPlusMeasure ev k = Ok numeraires /\
    isInMoneyMarketPlusMeasure ev numeraires k = Ok true /\
    size numeraires = numberOfSteps ev /\
    forall i, 0 <= i < numberOfSteps ev ->
      exists e j,
        at_ (evolutionTimes ev) i = Ok e /\
        first_at_least (rateTimes ev) e j /\
        at_ numeraires i = Ok (Z.min (j + k) (size (rateTimes ev) - 1)).
Proof.
  intros Hnew Hk.
  pose proof (EvolutionDescription_new_well_formed _ _ _ _ Hnew) as Hwf.
  pose proof (wf_size ev Hwf) as Hsize.
  unfold rateTimes, evolutionTimes, numberOfSteps in *.
  assert (Hk' : k <= Size_sub (size (rateTimes_ ev)) 1)
    by (rewrite Size_sub_ge by lia; exact Hk).
  destruct (moneyMarketPlusMeasure_spec ev k Hwf Hk')
    as [nums [Hgen [Hsz Hall]]].
  exists nums. split; [exact Hgen|].
  pose proof (isInMoneyMarketPlusMeasure_spec ev nums k Hwf Hk') as Hcls.
  destruct (isInMoneyMarketPlusMeasure ev nums k) as [b|f].
  - destruct Hcls as [_ Hb]. split; [f_equal; apply Hb; exact Hall|].
    split; [exact Hsz|].
    intros i Hi. destruct (Hall i Hi) as [v [Hv Hexp]].
    destruct (expected_numeraire_value ev k i v Hwf Hk Hexp)
      as [e [j [He [Hj [_ ->]]]]].
    exists e, j. auto.
  - destruct Hcls as [_ Hlt]. lia.
Qed.

Lemma moneyMarketPlusMeasure_round_trip_witness :
  EvolutionDescription_new scenario_rateTimes [] [] = Ok scenario /\
  2 <= size (rateTimes scenario) - 1 /\
  exists numeraires,
    moneyMarketPlusMeasure scenario 2 = Ok numeraires /\
    isInMoneyMarketPlusMeasure scenario numeraires 2 = Ok true /\
    size numeraires = numberOfSteps scenario /\
    forall i, 0 <= i < numberOfSteps scenario ->
      exists e j,
        at_ (evolutionTimes scenario) i = Ok e /\
        first_at_least (rateTimes scenario) e j /\
        at_ numeraires i
        = Ok (Z.min (j + 2) (size (rateTimes scenario) - 1)).
Proof.
  split; [vm_compute; reflexivity|].
  split; [vm_compute; discriminate|].
  apply (moneyMarketPlusMeasure_round_trip scenario_rateTimes [] []).
  - vm_compute. reflexivity.
  - vm_compute. discriminate.
Defined.

(** C5: for vectors within [max_size], the constructor fails, and builds
    no description, if and only if one of its preconditions is violated:
    rateTimes.size() > 1; rateTimes[0] >= 0; rateTimes strictly
    increasing; the evolution times, after defaulting, non-empty and
    strictly increasing; rateTimes.back() >= evolutionTimes.back(); a
    non-empty relevanceRates as long as the steps.  With one rate time it
    throws "Rate times must have 2 elements at least".  Every failure is
    an exception, but for the two vectors both empty, where the
    initialiser of the evolution times steps outside rateTimes. *)
Theorem EvolutionDescription_new_fails_iff
        (rateTimes0 evolutionTimes0 : list Time)
        (relevanceRates0 : list (Size * Size)) :
  size rateTimes0 <= max_size ->
  size evolutionTimes0 <= max_size ->
  (is_Ok (EvolutionDescription_new rateTimes0 evolutionTimes0 relevanceRates0)
   = false
   <-> ~ preconditions rateTimes0 evolutionTimes0 relevanceRates0) /\
  (size rateTimes0 = 1 ->
   EvolutionDescription_new rateTimes0 evolutionTimes0 relevanceRates0
   = Fail (Throw RateTimesTooFew)) /\
  (forall f,
     EvolutionDescription_new rateTimes0 evolutionTimes0 relevanceRates0
     = Fail f ->
     (exists e, f = Throw e) \/
     (f = LengthError /\ rateTimes0 = []) \/
     (f = Undefined /\ rateTimes0 = [] /\ evolutionTimes0 = [])).
Proof.
  intros Hb1 Hb2.
  pose proof (size_evolutionTimes_or_default_le rateTimes0 evolutionTimes0)
    as Hdle.
  split; [|split].
  - split.
    + intros Hfail Hpre.
      destruct (EvolutionDescription_new_complete rateTimes0 evolutionTimes0
                  relevanceRates0 ltac:(lia) ltac:(lia) Hpre) as [ev [Hev _]].
      rewrite Hev in Hfail. discriminate.
    + intros Hnot.
      destruct (EvolutionDescription_new _ _ _) as [ev|f] eqn:Hnew;
        [|reflexivity].
      destruct (EvolutionDescription_new_sound _ _ _ _ Hnew) as [Hpre _].
      contradiction.
  - intros Hone. unfold EvolutionDescription_new.
    rewrite init_evolutionTimes_total by lia. cbn [bind].
    rewrite Hone. rewrite (vector_n_Ok (Size_sub 1 1)) by (vm_compute; discriminate).
    cbn [bind]. rewrite vector_n_Ok by lia. reflexivity.
  - intros f. apply EvolutionDescription_new_failure; assumption.
Qed.

Lemma EvolutionDescription_new_fails_iff_witness :
  size [1%Q] <= max_size /\
  size (@nil Time) <= max_size /\
  (is_Ok (EvolutionDescription_new [1%Q] [] []) = false
   <-> ~ preconditions [1%Q] [] []) /\
  (size [1%Q] = 1 ->
   EvolutionDescription_new [1%Q] [] [] = Fail (Throw RateTimesTooFew)) /\
  (forall f,
     EvolutionDescription_new [1%Q] [] [] = Fail f ->
     (exists e, f = Throw e) \/
     (f = LengthError /\ [1%Q] = []) \/
     (f = Undefined /\ [1%Q] = [] /\ @nil Time = [])).
Proof.
  assert (H1 : size [1%Q] <= max_size) by (vm_compute; discriminate).
  assert (H2 : size (@nil Time) <= max_size) by (vm_compute; discriminate).
  split; [exact H1|]. split; [exact H2|].
  exact (EvolutionDescription_new_fails_iff [1%Q] [] [] H1 H2).
Defined.

Lemma min_Time_Qmin (a b : Time) : min_Time a b = Qmin a b.
Proof.
  unfold min_Time, Qmin, GenericMinMax.gmin.
  destruct (Qcompare a b) eqn:Hc.
  - apply Qeq_alt in Hc.
    rewrite (proj2 (Qlt_bool_false b a)) by lra. reflexivity.
  - apply Qlt_alt in Hc.
    rewrite (proj2 (Qlt_bool_false b a)) by lra. reflexivity.
  - apply Qgt_alt in Hc.
    rewrite (proj2 (Qlt_bool_true b a)) by lra. reflexivity.
Qed.

Lemma scenario_rateTimes_binary64 : Forall binary64 scenario_rateTimes.
Proof.
  repeat constructor; apply (binary64_inject_Z _); vm_compute; reflexivity.
Qed.

Lemma rateTimes_nonneg (ev : EvolutionDescription) (i : Size) (r : Time) :
  well_formed ev -> at_ (rateTimes_ ev) i = Ok r -> (0 <= r)%Q.
Proof.
  intros Hwf Hr. destruct (wf_first ev Hwf) as [r0 [Hr0 Hpos]].
  pose proof (at_Ok_range _ _ _ Hr) as Hi.
  pose proof (increasing_le _ (wf_rt_increasing ev Hwf) 0 i r0 r
                ltac:(lia) Hr0 Hr).
  lra.
Qed.

Lemma Forall_at {A} (P : A -> Prop) (v : list A) (i : Size) (x : A) :
  Forall P v -> at_ v i = Ok x -> P x.
Proof.
  intros Hall Hx. apply at_Ok_iff in Hx. destruct Hx as [_ Hx].
  exact (Forall_lookup_1 P v _ x Hall Hx).
Qed.

(** C6: for a constructed description, rateTaus()[i] is
    rateTimes[i+1] - rateTimes[i] for every i < numberOfRates(), the
    subtraction being that of doubles: for rate times that are binary64
    values the period is strictly positive, not above rateTimes[i+1]
    and within the relative error 2^-53 of the exact difference, and it
    is the exact difference when that is a binary64 value; and
    effectiveStopTime()[j][i] is min(evolutionTimes[j], rateTimes[i])
    for every step j and rate i. *)
Theorem rateTaus_effectiveStopTime_spec
        (rateTimes0 evolutionTimes0 : list Time)
        (relevanceRates0 : list (Size * Size)) (ev : EvolutionDescription) :
  EvolutionDescription_new rateTimes0 evolutionTimes0 relevanceRates0
  = Ok ev ->
  size (rateTaus ev) = numberOfRates ev /\
  (forall i, 0 <= i < numberOfRates ev ->
     exists a b,
       at_ (rateTimes ev) (i + 1) = Ok a /\ at_ (rateTimes ev) i = Ok b /\
       at_ (rateTaus ev) i = Ok (Time_sub a b) /\
       (binary64 a -> binary64 b ->
        (0 < Time_sub a b)%Q /\ (Time_sub a b <= a)%Q /\
        (Qabs (Time_sub a b - (a - b))
         <= pow2 (- binary64_prec) * (a - b))%Q) /\
       (binary64 (a - b) -> (Time_sub a b == a - b)%Q)) /\
  (forall j i, 0 <= j < numberOfSteps ev -> 0 <= i < numberOfRates ev ->
     exists e r,
       at_ (evolutionTimes ev) j = Ok e /\ at_ (rateTimes ev) i = Ok r /\
       Matrix_get (effectiveStopTime ev) j i = Ok (Qmin e r)).
Proof.
  intros Hnew.
  pose proof (EvolutionDescription_new_well_formed _ _ _ _ Hnew) as Hwf.
  pose proof (wf_size ev Hwf) as Hsize.
  destruct (EvolutionDescription_new_constructed _ _ _ _ Hnew)
    as [Hrt _ _ _ Htsz Htaus _ Heff _ _].
  unfold rateTaus, numberOfRates, numberOfSteps, rateTimes, evolutionTimes,
    effectiveStopTime.
  rewrite <- Hrt in Htsz, Htaus, Heff.
  rewrite (Size_sub_ge (size (rateTimes_ ev)) 1) by lia.
  split; [exact Htsz|]. split.
  - intros i Hi. destruct (Htaus i Hi) as [a [b [Ha [Hb Ht]]]].
    exists a, b. split; [exact Ha|]. split; [exact Hb|]. split; [exact Ht|].
    pose proof (wf_rt_increasing ev Hwf (i + 1) b a) as Hinc.
    replace (i + 1 - 1) with i in Hinc by lia.
    specialize (Hinc Hb Ha).
    pose proof (rateTimes_nonneg ev i b Hwf Hb) as Hb0.
    split; [|apply Time_sub_exact].
    intros Hba Hbb.
    destruct (Time_sub_bounds a b Hba Hbb Hb0 Hinc) as [Hpos Hle].
    split; [exact Hpos|]. split; [exact Hle|].
    apply Time_sub_relative_error; [exact Hba | exact Hbb | lra].
  - intros j i Hj Hi.
    destruct (Heff j i ltac:(lia)
                ltac:(rewrite (Size_sub_ge (size (rateTimes_ ev)) 1) by lia; lia)
                ltac:(lia)) as [e [r [He [Hr Hget]]]].
    exists e, r. split; [exact He|]. split; [exact Hr|].
    rewrite <- min_Time_Qmin. exact Hget.
Qed.

(** On the scenario, whose rate times 0, 1, 2, 3 are binary64 values,
    every accrual period is positive. *)
Lemma rateTaus_effectiveStopTime_spec_witness :
  EvolutionDescription_new scenario_rateTimes [] [] = Ok scenario /\
  Forall binary64 scenario_rateTimes /\
  size (rateTaus scenario) = numberOfRates scenario /\
  (forall i, 0 <= i < numberOfRates scenario ->
     exists t, at_ (rateTaus scenario) i = Ok t /\ (0 < t)%Q) /\
  (forall j i,
     0 <= j < numberOfSteps scenario -> 0 <= i < numberOfRates scenario ->
     exists e r,
       at_ (evolutionTimes scenario) j = Ok e /\
       at_ (rateTimes scenario) i = Ok r /\
       Matrix_get (effectiveStopTime scenario) j i = Ok (Qmin e r)).
Proof.
  assert (Hnew : EvolutionDescription_new scenario_rateTimes [] []
                 = Ok scenario) by (vm_compute; reflexivity).
  pose proof scenario_rateTimes_binary64 as Hdoubles.
  destruct (rateTaus_effectiveStopTime_spec scenario_rateTimes [] []
              scenario Hnew) as [Hsize [Htaus Hstop]].
  split; [exact Hnew|]. split; [exact Hdoubles|]. split; [exact Hsize|].
  split; [|exact Hstop].
  intros i Hi. destruct (Htaus i Hi) as [a [b [Ha [Hb [Ht [Hpos _]]]]]].
  exists (Time_sub a b). split; [exact Ht|].
  apply Hpos; [exact (Forall_at _ _ _ _ Hdoubles Ha)
              | exact (Forall_at _ _ _ _ Hdoubles Hb)].
Defined.

(** C7: for a constructed description, terminalMeasure returns
    numberOfSteps() entries, each rateTimes.size()-1; isInTerminalMeasure,
    on numeraires that are not empty, answers whether their minimum is
    rateTimes.size()-1; and so it answers true on terminalMeasure. *)
Theorem terminalMeasure_spec
        (rateTimes0 evolutionTimes0 : list Time)
        (relevanceRates0 : list (Size * Size)) (ev : EvolutionDescription) :
  EvolutionDescription_new rateTimes0 evolutionTimes0 relevanceRates0
  = Ok ev ->
  (exists numeraires,
     terminalMeasure ev = Ok numeraires /\
     size numeraires = numberOfSteps ev /\
     (forall i, 0 <= i < numberOfSteps ev ->
                at_ numeraires i = Ok (size (rateTimes ev) - 1)) /\
     isInTerminalMeasure ev numeraires = Ok true) /\
  (forall numeraires, numeraires <> [] ->
     exists m b,
       is_minimum m numeraires /\
       isInTerminalMeasure ev numeraires = Ok b /\
       (b = true <-> m = size (rateTimes ev) - 1)).
Proof.
  intros Hnew.
  pose proof (EvolutionDescription_new_well_formed _ _ _ _ Hnew) as Hwf.
  pose proof (wf_size ev Hwf) as Hsize.
  pose proof (wf_steps ev Hwf) as Hsteps.
  pose proof (wf_et_max ev Hwf) as Hmax.
  unfold numberOfSteps, rateTimes, evolutionTimes.
  assert (Hcls : forall numeraires, numeraires <> [] ->
     exists m b,
       is_minimum m numeraires /\
       isInTerminalMeasure ev numeraires = Ok b /\
       (b = true <-> m = size (rateTimes_ ev) - 1)).
  { intros numeraires Hne.
    destruct (deref_min_element_spec numeraires Hne) as [m [Hm Hmin]].
    exists m, (m =? size (rateTimes_ ev) - 1).
    split; [exact Hmin|]. split; [|apply Z.eqb_eq].
    unfold isInTerminalMeasure, rateTimes. rewrite Hm. cbn [bind].
    rewrite Size_sub_ge by lia. reflexivity. }
  split; [|exact Hcls].
  unfold terminalMeasure, rateTimes, evolutionTimes.
  rewrite vector_n_Ok by exact Hmax. rewrite Size_sub_ge by lia.
  eexists. split; [reflexivity|].
  split; [apply size_replicate; lia|].
  split; [intros i Hi; apply at_replicate; exact Hi|].
  set (nums := replicate _ _).
  assert (Hne : nums <> []).
  { unfold nums. destruct (Z.to_nat (size (evolutionTimes_ ev))) eqn:E;
      [lia | discriminate]. }
  destruct (Hcls nums Hne) as [m [b [Hmin [Hb Hiff]]]].
  rewrite Hb. f_equal. apply Hiff.
  apply (is_minimum_unique _ _ nums Hmin).
  apply is_minimum_replicate. lia.
Qed.

Lemma terminalMeasure_spec_witness :
  EvolutionDescription_new scenario_rateTimes [] [] = Ok scenario /\
  ((exists numeraires,
      terminalMeasure scenario = Ok numeraires /\
      size numeraires = numberOfSteps scenario /\
      (forall i, 0 <= i < numberOfSteps scenario ->
                 at_ numeraires i = Ok (size (rateTimes scenario) - 1)) /\
      isInTerminalMeasure scenario numeraires = Ok true) /\
   (forall numeraires, numeraires <> [] ->
      exists m b,
        is_minimum m numeraires /\
        isInTerminalMeasure scenario numeraires = Ok b /\
        (b = true <-> m = size (rateTimes scenario) - 1))).
Proof.
  split; [vm_compute; reflexivity|].
  apply (terminalMeasure_spec scenario_rateTimes [] []).
  vm_compute. reflexivity.
Defined.

(** C8: on any description, moneyMarketPlusMeasure and
    isInMoneyMarketPlusMeasure throw the range error, carrying the offset
    and the maximum rateTimes.size()-1, if and only if the offset is
    above that maximum; with an offset up to the maximum neither throws. *)
Theorem offset_range_error (ev : EvolutionDescription)
        (numeraires : list Size) (offset : Size) :
  (Size_sub (size (rateTimes ev)) 1 < offset <->
   moneyMarketPlusMeasure ev offset
   = Fail (Throw (OffsetTooLarge offset
                                 (Size_sub (size (rateTimes ev)) 1)))) /\
  (Size_sub (size (rateTimes ev)) 1 < offset <->
   isInMoneyMarketPlusMeasure ev numeraires offset
   = Fail (Throw (OffsetTooLarge offset
                                 (Size_sub (size (rateTimes ev)) 1)))) /\
  (offset <= Size_sub (size (rateTimes ev)) 1 ->
   forall e,
     moneyMarketPlusMeasure ev offset <> Fail (Throw e) /\
     isInMoneyMarketPlusMeasure ev numeraires offset <> Fail (Throw e)).
Proof.
  split; [|split].
  - split.
    + intros Hgt. unfold moneyMarketPlusMeasure.
      destruct (Z.leb_spec offset (Size_sub (size (rateTimes ev)) 1));
        [lia | reflexivity].
    + intros H. apply moneyMarketPlusMeasure_failure in H.
      destruct H as [[_ H]|[_ [H|H]]]; [exact H | discriminate | discriminate].
  - split.
    + intros Hgt. unfold isInMoneyMarketPlusMeasure.
      destruct (Z.leb_spec offset (Size_sub (size (rateTimes ev)) 1));
        [lia | reflexivity].
    + intros H. apply isInMoneyMarketPlusMeasure_failure in H.
      destruct H as [[_ H]|[_ H]]; [exact H | discriminate].
  - intros Hle e. split; intros H.
    + apply moneyMarketPlusMeasure_failure in H.
      destruct H as [[_ H]|[_ [H|H]]]; [lia | discriminate | discriminate].
    + apply isInMoneyMarketPlusMeasure_failure in H.
      destruct H as [[_ H]|[_ H]]; [lia | discriminate].
Qed.

(** C9: for inputs that meet the preconditions of the constructor, the
    cursor loops end and stay inside rateTimes.  A read outside a vector
    is the failure [Undefined] and a loop that does not end is
    [OutOfFuel], so an outcome [Ok] has neither.  The constructor returns
    a description whose first alive rates, the cursor after each step of
    the sweep, are at most rateTimes.size()-1; from a cursor that is ready
    for a step, the loop of moneyMarketPlusMeasure and
    isInMoneyMarketPlusMeasure stops at most at rateTimes.size()-1, ready
    for the next step; and both functions return. *)
Theorem cursor_loops_in_bounds (rateTimes0 evolutionTimes0 : list Time)
        (relevanceRates0 : list (Size * Size)) :
  size rateTimes0 <= max_size ->
  size evolutionTimes0 <= max_size ->
  preconditions rateTimes0 evolutionTimes0 relevanceRates0 ->
  exists ev,
    EvolutionDescription_new rateTimes0 evolutionTimes0 relevanceRates0
    = Ok ev /\
    (forall j, 0 <= j < numberOfSteps ev ->
       exists f, at_ (firstAliveRate ev) j = Ok f /\
                 0 <= f <= size (rateTimes ev) - 1) /\
    cursor_ready ev 0 0 /\
    (forall i j, 0 <= i < numberOfSteps ev -> cursor_ready ev i j ->
       exists j',
         advance_cursor (rateTimes ev) (evolutionTimes ev) i j = Ok j' /\
         j <= j' <= size (rateTimes ev) - 1 /\
         cursor_ready ev (i + 1) j') /\
    (forall offset, offset <= size (rateTimes ev) - 1 ->
       (exists numeraires, moneyMarketPlusMeasure ev offset = Ok numeraires) /\
       (forall numeraires, numberOfSteps ev <= size numeraires ->
          exists b, isInMoneyMarketPlusMeasure ev numeraires offset = Ok b)).
Proof.
  intros Hb1 Hb2 Hpre.
  pose proof (size_evolutionTimes_or_default_le rateTimes0 evolutionTimes0)
    as Hdle.
  destruct (EvolutionDescription_new_complete rateTimes0 evolutionTimes0
              relevanceRates0 ltac:(lia) ltac:(lia) Hpre) as [ev [Hnew Hcon]].
  exists ev. split; [exact Hnew|].
  pose proof (EvolutionDescription_new_well_formed _ _ _ _ Hnew) as Hwf.
  pose proof (wf_size ev Hwf) as Hsize.
  destruct Hcon as [Hrt _ _ _ _ _ _ _ _ Hfa].
  unfold numberOfSteps, firstAliveRate, rateTimes, evolutionTimes.
  split; [|split; [|split]].
  - intros j Hj. destruct (Hfa j Hj) as [t [f [_ [Hf [[r [Hr _]] _]]]]].
    exists f. split; [exact Hf|]. rewrite <- Hrt in Hr.
    apply at_Ok_range in Hr. lia.
  - apply cursor_ready_start. exact Hwf.
  - intros i j Hi Hready.
    destruct (advance_cursor_spec ev i j Hwf Hi Hready)
      as [j' [e [Hadv [_ [Hle [_ Hready']]]]]].
    exists j'. split; [exact Hadv|]. split; [|exact Hready'].
    destruct Hready' as [Hr _]. lia.
  - intros offset Hoff.
    assert (Hoff' : offset <= Size_sub (size (rateTimes_ ev)) 1)
      by (rewrite Size_sub_ge by lia; exact Hoff).
    split.
    + destruct (moneyMarketPlusMeasure_spec ev offset Hwf Hoff')
        as [nums [Hnums _]]. eauto.
    + intros numeraires Hlen.
      pose proof (isInMoneyMarketPlusMeasure_spec ev numeraires offset
                    Hwf Hoff') as Hcls.
      destruct (isInMoneyMarketPlusMeasure ev numeraires offset) as [b|f];
        [eauto|]. destruct Hcls as [_ Hlt]. lia.
Qed.

Lemma cursor_loops_in_bounds_witness :
  size scenario_rateTimes <= max_size /\
  size (@nil Time) <= max_size /\
  preconditions scenario_rateTimes [] [] /\
  exists ev,
    EvolutionDescription_new scenario_rateTimes [] [] = Ok ev /\
    (forall j, 0 <= j < numberOfSteps ev ->
       exists f, at_ (firstAliveRate ev) j = Ok f /\
                 0 <= f <= size (rateTimes ev) - 1) /\
    cursor_ready ev 0 0 /\
    (forall i j, 0 <= i < numberOfSteps ev -> cursor_ready ev i j ->
       exists j',
         advance_cursor (rateTimes ev) (evolutionTimes ev) i j = Ok j' /\
         j <= j' <= size (rateTimes ev) - 1 /\
         cursor_ready ev (i + 1) j') /\
    (forall offset, offset <= size (rateTimes ev) - 1 ->
       (exists numeraires, moneyMarketPlusMeasure ev offset = Ok numeraires) /\
       (forall numeraires, numberOfSteps ev <= size numeraires ->
          exists b, isInMoneyMarketPlusMeasure ev numeraires offset = Ok b)).
Proof.
  assert (H1 : size scenario_rateTimes <= max_size)
    by (vm_compute; discriminate).
  assert (H2 : size (@nil Time) <= max_size) by (vm_compute; discriminate).
  assert (H3 : preconditions scenario_rateTimes [] [])
    by exact (proj1 (EvolutionDescription_new_sound _ _ _ _
                       scenario_constructed)).
  split; [exact H1|]. split; [exact H2|]. split; [exact H3|].
  exact (cursor_loops_in_bounds scenario_rateTimes [] [] H1 H2 H3).
Defined.

(** C10: the classifiers do not check the length of numeraires.
    isInTerminalMeasure reads the minimum element: on an empty vector that
    read is outside the vector, on any other it returns.  On a constructed
    description with an offset in range, isInMoneyMarketPlusMeasure reads
    numeraires[i] for every step: with fewer numeraires than steps the
    read is outside the vector, with at least as many it returns.
    Neither throws the size-mismatch error, which checkCompatibility
    throws whenever the sizes differ. *)
Theorem classifiers_do_not_check_size
        (rateTimes0 evolutionTimes0 : list Time)
        (relevanceRates0 : list (Size * Size)) (ev : EvolutionDescription)
        (numeraires : list Size) (offset : Size) :
  EvolutionDescription_new rateTimes0 evolutionTimes0 relevanceRates0
  = Ok ev ->
  offset <= size (rateTimes ev) - 1 ->
  isInTerminalMeasure ev [] = Fail Undefined /\
  (numeraires <> [] -> is_Ok (isInTerminalMeasure ev numeraires) = true) /\
  (size numeraires < numberOfSteps ev ->
   isInMoneyMarketPlusMeasure ev numeraires offset = Fail Undefined) /\
  (numberOfSteps ev <= size numeraires ->
   is_Ok (isInMoneyMarketPlusMeasure ev numeraires offset) = true) /\
  (forall a b,
     isInTerminalMeasure ev numeraires
     <> Fail (Throw (NumerairesSizeMismatch a b)) /\
     isInMoneyMarketPlusMeasure ev numeraires offset
     <> Fail (Throw (NumerairesSizeMismatch a b))) /\
  (size numeraires <> numberOfSteps ev ->
   checkCompatibility ev numeraires
   = Fail (Throw (NumerairesSizeMismatch (size numeraires)
                                         (numberOfSteps ev)))).
Proof.
  intros Hnew Hoff.
  pose proof (EvolutionDescription_new_well_formed _ _ _ _ Hnew) as Hwf.
  pose proof (wf_size ev Hwf) as Hsize.
  unfold numberOfSteps, rateTimes, evolutionTimes in *.
  assert (Hoff' : offset <= Size_sub (size (rateTimes_ ev)) 1)
    by (rewrite Size_sub_ge by lia; exact Hoff).
  pose proof (isInMoneyMarketPlusMeasure_spec ev numeraires offset Hwf Hoff')
    as Hcls.
  split; [reflexivity|].
  split; [|split; [|split; [|split]]].
  - intros Hne. destruct (deref_min_element_spec numeraires Hne) as [m [Hm _]].
    unfold isInTerminalMeasure. rewrite Hm. reflexivity.
  - intros Hlt.
    destruct (isInMoneyMarketPlusMeasure ev numeraires offset) as [b|f].
    + destruct Hcls as [Hle _]. lia.
    + destruct Hcls as [-> _]. reflexivity.
  - intros Hle.
    destruct (isInMoneyMarketPlusMeasure ev numeraires offset) as [b|f];
      [reflexivity|]. destruct Hcls as [_ Hlt]. lia.
  - intros a b. split.
    + unfold isInTerminalMeasure.
      destruct (deref_min_element numeraires) as [m|f] eqn:Hm;
        cbn [bind]; [discriminate|].
      destruct numeraires; simpl in Hm; inversion Hm. discriminate.
    + destruct (isInMoneyMarketPlusMeasure ev numeraires offset) as [b'|f];
        [discriminate|]. destruct Hcls as [-> _]. discriminate.
  - intros Hne. unfold checkCompatibility, evolutionTimes.
    destruct (Z.eqb_spec (size numeraires) (size (evolutionTimes_ ev)));
      [contradiction | reflexivity].
Qed.

Lemma classifiers_do_not_check_size_witness :
  EvolutionDescription_new scenario_rateTimes [] [] = Ok scenario /\
  0 <= size (rateTimes scenario) - 1 /\
  isInTerminalMeasure scenario [] = Fail Undefined /\
  ([3; 3] <> [] -> is_Ok (isInTerminalMeasure scenario [3; 3]) = true) /\
  (size [3; 3] < numberOfSteps scenario ->
   isInMoneyMarketPlusMeasure scenario [3; 3] 0 = Fail Undefined) /\
  (numberOfSteps scenario <= size [3; 3] ->
   is_Ok (isInMoneyMarketPlusMeasure scenario [3; 3] 0) = true) /\
  (forall a b,
     isInTerminalMeasure scenario [3; 3]
     <> Fail (Throw (NumerairesSizeMismatch a b)) /\
     isInMoneyMarketPlusMeasure scenario [3; 3] 0
     <> Fail (Throw (NumerairesSizeMismatch a b))) /\
  (size [3; 3] <> numberOfSteps scenario ->
   checkCompatibility scenario [3; 3]
   = Fail (Throw (NumerairesSizeMismatch (size [3; 3])
                                         (numberOfSteps scenario)))).
Proof.
  split; [vm_compute; reflexivity|].
  split; [vm_compute; discriminate|].
  apply (classifiers_do_not_check_size scenario_rateTimes [] [] scenario
           [3; 3] 0).
  - vm_compute. reflexivity.
  - vm_compute. discriminate.
Defined.

(** * Further properties *)

(** ** The failures of the constructor *)

Lemma default_evolutionTimes_nonempty (rateTimes evolutionTimes : list Time) :
  1 < size rateTimes ->
  0 < size (evolutionTimes_or_default rateTimes evolutionTimes).
Proof.
  intros H. unfold evolutionTimes_or_default. rewrite Z.gtb_ltb.
  destruct (Z.ltb_spec 0 (size evolutionTimes)); [assumption|].
  unfold size in *. rewrite length_take. lia.
Qed.

(** Every failure of the constructor is one of the cases of
    [constructor_failure]. *)
Lemma EvolutionDescription_new_failure_case
      (rateTimes evolutionTimes : list Time)
      (relevanceRates : list (Size * Size)) (f : Failure) :
  EvolutionDescription_new rateTimes evolutionTimes relevanceRates = Fail f ->
  constructor_failure rateTimes evolutionTimes relevanceRates f.
Proof.
  intros H0. pose proof H0 as H.
  pose proof (size_nonneg rateTimes) as Hnn.
  unfold EvolutionDescription_new in H.
  destruct (init_evolutionTimes rateTimes evolutionTimes) as [et|f0] eqn:Hinit;
    cbn [bind] in H.
  2:{ apply init_evolutionTimes_Fail in Hinit. inversion H; subst.
      destruct Hinit as [-> [Hr He]]. apply cf_outside; assumption. }
  assert (Hnotboth : ~ (rateTimes = [] /\ evolutionTimes = [])).
  { intros [-> ->]. discriminate Hinit. }
  apply init_evolutionTimes_Ok in Hinit. subst et.
  set (et := evolutionTimes_or_default rateTimes evolutionTimes) in *.
  destruct (vector_n (Size_sub (size rateTimes) 1) 0%Q) as [taus0|f0] eqn:Ht;
    cbn [bind] in H.
  2:{ apply vector_n_Fail in Ht. destruct Ht as [-> Ht]. inversion H; subst.
      apply cf_length; [assumption|]. intros [Ha _]. lia. }
  apply vector_n_inv in Ht. destruct Ht as [Hb1 _].
  destruct (vector_n (size et) 0) as [fa0|f0] eqn:Hf; cbn [bind] in H.
  2:{ apply vector_n_Fail in Hf. destruct Hf as [-> Hf]. inversion H; subst.
      apply cf_length; [assumption|]. intros [_ Ha]. fold et in Ha. lia. }
  apply vector_n_inv in Hf. destruct Hf as [Hb2 _].
  assert (Halloc : allocatable rateTimes evolutionTimes) by (split; assumption).
  assert (Hne : size rateTimes <> 0).
  { intros Hz. rewrite Hz in Hb1. vm_compute in Hb1. apply Hb1. reflexivity. }
  rewrite Z.gtb_ltb in H.
  destruct (Z.ltb_spec 1 (size rateTimes)) as [Hsize|Hsize];
    cbn [QL_REQUIRE bind] in H.
  2:{ inversion H. apply cf_too_few; [assumption | lia]. }
  destruct (at_in_range rateTimes 0 ltac:(lia)) as [r0 Hr0].
  rewrite Hr0 in H. cbn [bind] in H.
  destruct (Qle_bool 0 r0) eqn:Hfirst; cbn [QL_REQUIRE bind] in H.
  2:{ inversion H. apply Qle_bool_false in Hfirst.
      apply (cf_first_negative _ _ _ Halloc Hsize r0 Hr0 Hfirst). }
  apply Qle_bool_true in Hfirst.
  assert (Hfirst' : forall r, at_ rateTimes 0 = Ok r -> (0 <= r)%Q).
  { intros r Hr. rewrite Hr0 in Hr. inversion Hr; subst. exact Hfirst. }
  pose proof (check_increasing_spec rateTimes RateTimesNotIncreasing) as Hc1.
  destruct (check_increasing rateTimes (size rateTimes) _) as [[]|f1];
    cbn [bind] in H.
  2:{ destruct Hc1 as [-> Hc1]. inversion H.
      apply cf_rates_not_increasing; assumption. }
  pose proof (default_evolutionTimes_nonempty rateTimes evolutionTimes Hsize)
    as Hsteps. fold et in Hsteps.
  rewrite Z.gtb_ltb in H.
  destruct (Z.ltb_spec 0 (size et)); [|lia]. cbn [QL_REQUIRE bind] in H.
  pose proof (check_increasing_spec et EvolutionTimesNotIncreasing) as Hc2.
  destruct (check_increasing et (size et) _) as [[]|f2]; cbn [bind] in H.
  2:{ destruct Hc2 as [-> Hc2]. inversion H.
      apply cf_evolution_not_increasing; assumption. }
  destruct (at_in_range rateTimes (size rateTimes - 1) ltac:(lia))
    as [rl Hrl].
  destruct (at_in_range et (size et - 1) ltac:(lia)) as [el Hel].
  unfold back at 1 2 in H. rewrite Hrl, Hel in H. cbn [bind] in H.
  destruct (Qle_bool el rl) eqn:Hlast; cbn [QL_REQUIRE bind] in H.
  2:{ inversion H. apply Qle_bool_false in Hlast.
      apply (cf_last_past _ _ _ Halloc Hsize Hfirst' Hc1 Hc2 rl el Hrl Hel
               Hlast). }
  apply Qle_bool_true in Hlast.
  assert (Hlast' : forall r e, back rateTimes = Ok r -> back et = Ok e ->
                               (e <= r)%Q).
  { intros r e Hr He. unfold back in Hr, He. rewrite Hrl in Hr.
    rewrite Hel in He. inversion Hr; inversion He; subst. exact Hlast. }
  assert (Hcomplete : preconditions rateTimes evolutionTimes relevanceRates ->
                      False).
  { intros Hpre.
    destruct (EvolutionDescription_new_complete rateTimes evolutionTimes
                relevanceRates) as [ev [Hev _]]; try assumption.
    - rewrite <- (Size_sub_ge (size rateTimes) 1) by lia. exact Hb1.
    - congruence. }
  destruct (Z.eqb_spec (size relevanceRates) 0) as [Hz|Hnz].
  - exfalso. apply Hcomplete. constructor; fold et; auto.
    intros Hnonempty. apply size_nil_iff in Hz. contradiction.
  - destruct (Z.eqb_spec (size relevanceRates) (size et)) as [Heq|Hneq];
      cbn [QL_REQUIRE bind] in H.
    + exfalso. apply Hcomplete. constructor; fold et; auto.
    + inversion H. apply cf_relevance; try assumption.
      intros ->. apply Hnz. reflexivity.
Qed.

Lemma not_allocatable_nil (evolutionTimes : list Time) :
  ~ allocatable [] evolutionTimes.
Proof. intros [H _]. vm_compute in H. apply H. reflexivity. Qed.

Ltac cf_clash :=
  solve
    [ reflexivity
    | contradiction
    | lia
    | subst; match goal with
             | H : allocatable [] _ |- _ =>
                 exfalso; exact (not_allocatable_nil _ H)
             | H : size [] = 1 |- _ => discriminate H
             | H : 1 < size [] |- _ => vm_compute in H; discriminate H
             end
    | match goal with
      | H : forall r0, at_ ?v 0 = Ok r0 -> (0 <= r0)%Q,
        H1 : at_ ?v 0 = Ok ?r |- _ => specialize (H _ H1); lra
      end
    | match goal with
      | H : forall r e, back ?v = Ok r -> back ?w = Ok e -> (e <= r)%Q,
        H1 : back ?v = Ok ?r, H2 : back ?w = Ok ?e |- _ =>
          specialize (H _ _ H1 H2); lra
      end ].

(** The cases exclude one another, and none holds of arguments that meet
    the preconditions and can be allocated. *)
Lemma constructor_failure_functional
      (rateTimes evolutionTimes : list Time)
      (relevanceRates : list (Size * Size)) (f f' : Failure) :
  constructor_failure rateTimes evolutionTimes relevanceRates f ->
  constructor_failure rateTimes evolutionTimes relevanceRates f' ->
  f = f'.
Proof.
  intros H H'. destruct H; destruct H'; try cf_clash; tauto.
Qed.

Lemma constructor_failure_not_preconditions
      (rateTimes evolutionTimes : list Time)
      (relevanceRates : list (Size * Size)) (f : Failure) :
  constructor_failure rateTimes evolutionTimes relevanceRates f ->
  allocatable rateTimes evolutionTimes ->
  preconditions rateTimes evolutionTimes relevanceRates ->
  False.
Proof.
  intros H Halloc [Hsize Hfirst Hrinc Hne Heinc Hlast Hrel].
  destruct H; try cf_clash.
  specialize (Hrel ltac:(assumption)). contradiction.
Qed.

(** X1: the constructor fails with a given failure exactly in the case of
    [constructor_failure] for it: the checks are made in the order rate
    times (count, first not negative, increasing), evolution times
    (increasing, last not past the last rate time), relevance rates, and
    the first that does not hold gives the error; before them, the
    allocation of the derived vectors. *)
Theorem EvolutionDescription_new_failure_iff
        (rateTimes0 evolutionTimes0 : list Time)
        (relevanceRates0 : list (Size * Size)) (f : Failure) :
  EvolutionDescription_new rateTimes0 evolutionTimes0 relevanceRates0 = Fail f
  <-> constructor_failure rateTimes0 evolutionTimes0 relevanceRates0 f.
Proof.
  split; [apply EvolutionDescription_new_failure_case|].
  intros Hcf.
  destruct (EvolutionDescription_new rateTimes0 evolutionTimes0
              relevanceRates0) as [ev|f'] eqn:Hnew.
  - exfalso.
    destruct (EvolutionDescription_new_sound _ _ _ _ Hnew) as [Hpre [Hb1 Hb2]].
    apply (constructor_failure_not_preconditions _ _ _ _ Hcf); [|exact Hpre].
    split; [|exact Hb2].
    rewrite Size_sub_ge by (pose proof (pre_size _ _ _ Hpre); lia).
    exact Hb1.
  - f_equal. apply EvolutionDescription_new_failure_case in Hnew.
    exact (constructor_failure_functional _ _ _ _ _ Hnew Hcf).
Qed.

(** X2: the constructor never throws "Evolution times must have 1
    elements at least": when the check is reached there are two rate
    times at least, and the evolution times are the ones given, not empty,
    or the rate times but the last. *)
Theorem EvolutionDescription_new_never_EvolutionTimesEmpty
        (rateTimes0 evolutionTimes0 : list Time)
        (relevanceRates0 : list (Size * Size)) :
  EvolutionDescription_new rateTimes0 evolutionTimes0 relevanceRates0
  <> Fail (Throw EvolutionTimesEmpty).
Proof.
  intros H. apply EvolutionDescription_new_failure_case in H. inversion H.
Qed.

(** ** What a constructed description holds *)

Lemma relevanceRates_size (rateTimes0 evolutionTimes0 : list Time)
      (relevanceRates0 : list (Size * Size)) (ev : EvolutionDescription) :
  EvolutionDescription_new rateTimes0 evolutionTimes0 relevanceRates0
  = Ok ev ->
  size (relevanceRates_ ev) = size (evolutionTimes_ ev).
Proof.
  intros Hnew.
  destruct (EvolutionDescription_new_sound _ _ _ _ Hnew)
    as [[Hsize _ _ Hne _ _ Hrel] _].
  destruct (EvolutionDescription_new_constructed _ _ _ _ Hnew)
    as [Hrt Het Hsteps Hrr _ _ _ _ _ _].
  rewrite Hrr, Hsteps, Het.
  destruct (Z.eqb_spec (size relevanceRates0) 0) as [Hz|Hnz].
  - apply size_replicate. lia.
  - apply Hrel. intros ->. apply Hnz. reflexivity.
Qed.

(** X3: a constructed description holds the rate times as given and the
    evolution times as given when there are any; it has one step at
    least and one rate at least, numberOfRates() is rateTimes.size()-1
    without wrap; and it holds one pair of relevance rates for every step:
    the ones given, or (0, numberOfRates()) for every step when none are
    given. *)
Theorem constructed_data (rateTimes0 evolutionTimes0 : list Time)
        (relevanceRates0 : list (Size * Size)) (ev : EvolutionDescription) :
  EvolutionDescription_new rateTimes0 evolutionTimes0 relevanceRates0
  = Ok ev ->
  rateTimes ev = rateTimes0 /\
  (evolutionTimes0 <> [] -> evolutionTimes ev = evolutionTimes0) /\
  steps_ ev = numberOfSteps ev /\
  1 <= numberOfSteps ev /\
  numberOfRates ev = size rateTimes0 - 1 /\
  1 <= numberOfRates ev /\
  size (relevanceRates ev) = numberOfSteps ev /\
  (relevanceRates0 <> [] -> relevanceRates ev = relevanceRates0) /\
  (relevanceRates0 = [] ->
   forall j, 0 <= j < numberOfSteps ev ->
             at_ (relevanceRates ev) j = Ok (0, numberOfRates ev)).
Proof.
  intros Hnew.
  destruct (EvolutionDescription_new_sound _ _ _ _ Hnew)
    as [[Hsize _ _ Hne _ _ Hrel] _].
  destruct (EvolutionDescription_new_constructed _ _ _ _ Hnew)
    as [Hrt Het Hsteps Hrr _ _ _ _ _ _].
  unfold rateTimes, evolutionTimes, numberOfSteps, numberOfRates,
    relevanceRates.
  rewrite Hrt, Het, Hsteps, Het. rewrite Size_sub_ge by lia.
  split; [reflexivity|]. split.
  { intros Hnonempty. unfold evolutionTimes_or_default. rewrite Z.gtb_ltb.
    destruct (Z.ltb_spec 0 (size evolutionTimes0)) as [|Hz]; [reflexivity|].
    pose proof (size_nonneg evolutionTimes0).
    exfalso. apply Hnonempty. apply size_nil_iff. lia. }
  split; [reflexivity|]. split; [lia|]. split; [reflexivity|]. split; [lia|].
  rewrite Hrr, Hsteps, Het.
  destruct (Z.eqb_spec (size relevanceRates0) 0) as [Hz|Hnz].
  - apply size_nil_iff in Hz. subst relevanceRates0.
    split; [apply size_replicate; lia|]. split; [congruence|].
    intros _ j Hj. apply at_replicate. exact Hj.
  - assert (Hnonempty : relevanceRates0 <> [])
      by (intros ->; apply Hnz; reflexivity).
    split; [exact (Hrel Hnonempty)|]. split; [reflexivity|]. congruence.
Qed.

Lemma constructed_data_witness :
  EvolutionDescription_new scenario_rateTimes [] [] = Ok scenario /\
  size (relevanceRates scenario) = numberOfSteps scenario.
Proof.
  split; [vm_compute; reflexivity|].
  apply (constructed_data scenario_rateTimes [] [] scenario).
  vm_compute. reflexivity.
Defined.

(** X4: the constructor reproduces a description from what its accessors
    return: constructing again from rateTimes(), evolutionTimes() and
    relevanceRates() succeeds and gives the same description. *)
Theorem reconstruct_from_accessors
        (rateTimes0 evolutionTimes0 : list Time)
        (relevanceRates0 : list (Size * Size)) (ev : EvolutionDescription) :
  EvolutionDescription_new rateTimes0 evolutionTimes0 relevanceRates0
  = Ok ev ->
  EvolutionDescription_new (rateTimes ev) (evolutionTimes ev)
                           (relevanceRates ev) = Ok ev.
Proof.
  intros Hnew.
  pose proof (relevanceRates_size _ _ _ _ Hnew) as Hrrsz.
  pose proof (wf_steps ev (EvolutionDescription_new_well_formed _ _ _ _ Hnew))
    as Hsteps.
  destruct (EvolutionDescription_new_constructed _ _ _ _ Hnew)
    as [Hrt Het _ _ _ _ _ _ _ _].
  unfold rateTimes, evolutionTimes, relevanceRates, numberOfSteps in *.
  pose proof Hnew as H. unfold EvolutionDescription_new in H.
  bind_inv H et Hinit. apply init_evolutionTimes_Ok in Hinit.
  bind_inv H taus0 Htaus0. bind_inv H fa0 Hfa0. bind_inv H u1 H1.
  bind_inv H r0 Hr0. bind_inv H u2 H2. bind_inv H u3 H3. bind_inv H u4 H4.
  bind_inv H u5 H5. bind_inv H rl Hrl. bind_inv H el Hel. bind_inv H u6 H6.
  bind_inv H rr Hrr. bind_inv H taus Htaus. bind_inv H m Hm.
  bind_inv H fa Hfa. inversion H as [Hev].
  rewrite <- Hev in *. cbn [rateTimes_ evolutionTimes_ relevanceRates_] in *.
  unfold EvolutionDescription_new.
  assert (Hinit' : init_evolutionTimes rateTimes0 et = Ok et).
  { unfold init_evolutionTimes. rewrite Z.gtb_ltb.
    destruct (Z.ltb_spec 0 (size et)); [reflexivity | lia]. }
  eapply bind_Ok; [exact Hinit'|]. cbv zeta.
  eapply bind_Ok; [exact Htaus0|]. eapply bind_Ok; [exact Hfa0|].
  eapply bind_Ok; [exact H1|]. eapply bind_Ok; [exact Hr0|].
  eapply bind_Ok; [exact H2|]. eapply bind_Ok; [exact H3|].
  eapply bind_Ok; [exact H4|]. eapply bind_Ok; [exact H5|].
  eapply bind_Ok; [exact Hrl|]. eapply bind_Ok; [exact Hel|].
  eapply bind_Ok; [exact H6|].
  eapply (bind_Ok _ _ rr).
  { unfold Size in *.
    destruct (Z.eqb_spec (size rr) 0) as [Hz|Hnz]; [lia|].
    rewrite Hrrsz, Z.eqb_refl. reflexivity. }
  eapply bind_Ok; [exact Htaus|]. eapply bind_Ok; [exact Hm|].
  eapply bind_Ok; [exact Hfa|]. reflexivity.
Qed.

Lemma reconstruct_from_accessors_witness :
  EvolutionDescription_new scenario_rateTimes [] [] = Ok scenario /\
  EvolutionDescription_new (rateTimes scenario) (evolutionTimes scenario)
                           (relevanceRates scenario) = Ok scenario.
Proof.
  split; [vm_compute; reflexivity|].
  apply (reconstruct_from_accessors scenario_rateTimes [] [] scenario).
  vm_compute. reflexivity.
Defined.

(** ** Default evolution times *)

Lemma at_take {A} (v : list A) (n i : Size) :
  0 <= i < n -> at_ (take (Z.to_nat n) v) i = at_ v i.
Proof.
  intros H. unfold at_. destruct (i <? 0); [reflexivity|].
  rewrite lookup_take_lt by lia. reflexivity.
Qed.

Lemma at_lookup {A} (v : list A) (n : nat) :
  at_ v (Z.of_nat n) = match v !! n with
                       | Some x => Ok x
                       | None => Fail Undefined
                       end.
Proof.
  unfold at_. destruct (Z.ltb_spec (Z.of_nat n) 0); [lia|].
  rewrite Nat2Z.id. reflexivity.
Qed.

(** Two vectors with the same reads are the same vector. *)
Lemma vector_eq {A} (v w : list A) :
  (forall i, 0 <= i -> at_ v i = at_ w i) -> v = w.
Proof.
  intros H. apply list_eq. intros n.
  specialize (H (Z.of_nat n) ltac:(lia)). rewrite !at_lookup in H.
  destruct (v !! n), (w !! n); congruence.
Qed.

Lemma first_above_unique (v : list Time) (t : Time) (f g : Size) :
  first_above v t f -> first_above v t g -> f = g.
Proof.
  intros [[r [Hr Hlt]] Hbelow] [[r' [Hr' Hlt']] Hbelow'].
  pose proof (at_Ok_range _ _ _ Hr). pose proof (at_Ok_range _ _ _ Hr').
  destruct (Z.lt_trichotomy f g) as [H1|[H1|H1]]; [|exact H1|].
  - specialize (Hbelow' f r ltac:(lia) Hr). lra.
  - specialize (Hbelow g r' ltac:(lia) Hr'). lra.
Qed.

(** In an increasing vector every index is the first whose element is at
    least its own, and the first whose element is above the one before. *)
Lemma first_at_least_self (v : list Time) (i : Size) (r : Time) :
  increasing v -> at_ v i = Ok r -> first_at_least v r i.
Proof.
  intros Hinc Hr. split; [exists r; split; [exact Hr | lra]|].
  intros k r' Hk Hr'. apply (increasing_lt v Hinc k i); auto. lia.
Qed.

Lemma first_above_next (v : list Time) (i : Size) (a b : Time) :
  increasing v -> at_ v (i - 1) = Ok a -> at_ v i = Ok b ->
  first_above v a i.
Proof.
  intros Hinc Ha Hb. split; [exists b; split; [exact Hb|]|].
  - apply (Hinc i); assumption.
  - intros k r Hk Hr. apply (increasing_le v Hinc k (i - 1)); auto. lia.
Qed.

Lemma default_evolutionTimes_nil (rateTimes0 : list Time) :
  evolutionTimes_or_default rateTimes0 []
  = take (Z.to_nat (size rateTimes0 - 1)) rateTimes0.
Proof. reflexivity. Qed.

Lemma size_default_evolutionTimes_nil (rateTimes0 : list Time) :
  1 <= size rateTimes0 ->
  size (evolutionTimes_or_default rateTimes0 []) = size rateTimes0 - 1.
Proof.
  intros H. rewrite default_evolutionTimes_nil.
  unfold size in *. rewrite length_take. lia.
Qed.

Lemma at_default_evolutionTimes (rateTimes0 : list Time) (i : Size) :
  0 <= i < size rateTimes0 - 1 ->
  at_ (evolutionTimes_or_default rateTimes0 []) i = at_ rateTimes0 i.
Proof.
  intros H. rewrite default_evolutionTimes_nil. apply at_take. exact H.
Qed.

Lemma default_evolutionTimes_reads (rateTimes0 : list Time)
      (relevanceRates0 : list (Size * Size)) (ev : EvolutionDescription) :
  EvolutionDescription_new rateTimes0 [] relevanceRates0 = Ok ev ->
  size (evolutionTimes_ ev) = size (rateTimes_ ev) - 1 /\
  forall i, 0 <= i < size (evolutionTimes_ ev) ->
            at_ (evolutionTimes_ ev) i = at_ (rateTimes_ ev) i.
Proof.
  intros Hnew.
  pose proof (EvolutionDescription_new_well_formed _ _ _ _ Hnew) as Hwf.
  pose proof (wf_size ev Hwf) as Hsize.
  destruct (EvolutionDescription_new_constructed _ _ _ _ Hnew)
    as [Hrt Het _ _ _ _ _ _ _ _].
  assert (Hsteps : size (evolutionTimes_ ev) = size (rateTimes_ ev) - 1).
  { rewrite Het, Hrt. apply size_default_evolutionTimes_nil.
    rewrite <- Hrt. lia. }
  split; [exact Hsteps|].
  intros i Hi. rewrite Het, Hrt. apply at_default_evolutionTimes.
  rewrite <- Hrt. lia.
Qed.

(** X5: with no evolution times given, the steps are the rates: there are
    as many, evolutionTimes[i] is rateTimes[i], and the numeraire of step
    i in the money-market-plus measure of offset k is
    min(i + k, numberOfRates()); the money-market measure is 0, 1, 2, ... *)
Theorem default_evolutionTimes_measure (rateTimes0 : list Time)
        (relevanceRates0 : list (Size * Size)) (ev : EvolutionDescription)
        (k : Size) :
  EvolutionDescription_new rateTimes0 [] relevanceRates0 = Ok ev ->
  0 <= k <= numberOfRates ev ->
  numberOfSteps ev = numberOfRates ev /\
  (forall i, 0 <= i < numberOfSteps ev ->
             at_ (evolutionTimes ev) i = at_ (rateTimes ev) i) /\
  exists numeraires,
    moneyMarketPlusMeasure ev k = Ok numeraires /\
    size numeraires = numberOfSteps ev /\
    forall i, 0 <= i < numberOfSteps ev ->
              at_ numeraires i = Ok (Z.min (i + k) (numberOfRates ev)).
Proof.
  intros Hnew Hk.
  pose proof (EvolutionDescription_new_well_formed _ _ _ _ Hnew) as Hwf.
  pose proof (wf_size ev Hwf) as Hsize.
  destruct (EvolutionDescription_new_constructed _ _ _ _ Hnew)
    as [Hrt Het _ _ _ _ _ _ _ _].
  unfold numberOfSteps, numberOfRates, evolutionTimes, rateTimes in *.
  rewrite Size_sub_ge in * by lia.
  destruct (default_evolutionTimes_reads _ _ _ Hnew) as [Hsteps Hat].
  split; [exact Hsteps|]. split; [exact Hat|].
  assert (Hk' : k <= Size_sub (size (rateTimes_ ev)) 1)
    by (rewrite Size_sub_ge by lia; lia).
  destruct (moneyMarketPlusMeasure_spec ev k Hwf Hk')
    as [nums [Hgen [Hsz Hall]]].
  exists nums. split; [exact Hgen|]. split; [exact Hsz|].
  intros i Hi. destruct (Hall i Hi) as [v [Hv Hexp]].
  destruct (expected_numeraire_value ev k i v Hwf ltac:(lia) Hexp)
    as [e [j [He [Hj [Hjr ->]]]]].
  rewrite Hv. f_equal. f_equal. f_equal.
  rewrite (Hat i Hi) in He.
  pose proof (first_at_least_self _ i e (wf_rt_increasing ev Hwf) He) as Hself.
  apply (first_at_least_unique (rateTimes_ ev) e); try assumption; lia.
Qed.

Lemma default_evolutionTimes_measure_witness :
  EvolutionDescription_new scenario_rateTimes [] [] = Ok scenario /\
  0 <= 1 <= numberOfRates scenario /\
  numberOfSteps scenario = numberOfRates scenario /\
  (forall i, 0 <= i < numberOfSteps scenario ->
             at_ (evolutionTimes scenario) i = at_ (rateTimes scenario) i) /\
  exists numeraires,
    moneyMarketPlusMeasure scenario 1 = Ok numeraires /\
    size numeraires = numberOfSteps scenario /\
    forall i, 0 <= i < numberOfSteps scenario ->
              at_ numeraires i = Ok (Z.min (i + 1) (numberOfRates scenario)).
Proof.
  split; [vm_compute; reflexivity|].
  split; [vm_compute; split; discriminate|].
  apply (default_evolutionTimes_measure scenario_rateTimes []).
  - vm_compute. reflexivity.
  - vm_compute. split; discriminate.
Defined.

(** X6: with no evolution times given, the first alive rate of step j is
    j for every step after the first; at the first step it is 0 when
    rateTimes[0] > 0 and 1 when rateTimes[0] is 0. *)
Theorem default_evolutionTimes_firstAliveRate (rateTimes0 : list Time)
        (relevanceRates0 : list (Size * Size)) (ev : EvolutionDescription) :
  EvolutionDescription_new rateTimes0 [] relevanceRates0 = Ok ev ->
  (forall j, 1 <= j < numberOfSteps ev -> at_ (firstAliveRate ev) j = Ok j) /\
  (forall r0, at_ (rateTimes ev) 0 = Ok r0 ->
     at_ (firstAliveRate ev) 0 = Ok (if Qlt_bool 0%Q r0 then 0 else 1)).
Proof.
  intros Hnew.
  pose proof (EvolutionDescription_new_well_formed _ _ _ _ Hnew) as Hwf.
  pose proof (wf_size ev Hwf) as Hsize.
  pose proof (wf_steps ev Hwf) as Hsteps.
  pose proof (wf_rt_increasing ev Hwf) as Hinc.
  destruct (EvolutionDescription_new_constructed _ _ _ _ Hnew)
    as [Hrt Het _ _ _ _ _ _ _ Hfa].
  destruct (default_evolutionTimes_reads _ _ _ Hnew) as [Hn Hat].
  unfold numberOfSteps, numberOfRates, firstAliveRate, evolutionTimes,
    rateTimes in *.
  rewrite <- Hrt in Hfa.
  destruct (wf_first ev Hwf) as [r0 [Hr0 Hr0pos]].
  split.
  - intros j Hj. destruct (Hfa j ltac:(lia)) as [t [f [Ht [Hf Hfirst]]]].
    rewrite Hf. f_equal.
    unfold previous_time in Ht. destruct (Z.eqb_spec j 0); [lia|].
    rewrite (Hat (j - 1)) in Ht by lia.
    destruct (at_in_range (rateTimes_ ev) j ltac:(lia)) as [b Hb].
    pose proof (increasing_le _ Hinc 0 (j - 1) r0 t ltac:(lia) Hr0 Ht).
    apply (first_above_unique (rateTimes_ ev) t).
    + apply (first_above_Qeq _ (Qmax 0 t)); [qmax; lra | exact Hfirst].
    + apply (first_above_next _ j t b); assumption.
  - intros r0' Hr0'. rewrite Hr0 in Hr0'. inversion Hr0'; subst r0'.
    destruct (Hfa 0 ltac:(lia)) as [t [f [Ht [Hf Hfirst]]]].
    rewrite Hf. f_equal. unfold previous_time in Ht. cbn in Ht.
    inversion Ht; subst t.
    apply (first_above_Qeq _ _ 0%Q) in Hfirst; [|qmax; lra].
    apply (first_above_unique (rateTimes_ ev) 0%Q); [exact Hfirst|].
    destruct (Qlt_bool 0%Q r0) eqn:Hlt.
    + apply Qlt_bool_true in Hlt. split; [eauto|]. intros; lia.
    + apply Qlt_bool_false in Hlt.
      destruct (at_in_range (rateTimes_ ev) 1 ltac:(lia)) as [r1 Hr1].
      pose proof (Hinc 1 r0 r1 Hr0 Hr1).
      split; [exists r1; split; [exact Hr1 | lra]|].
      intros k r Hk Hr. assert (k = 0) as -> by lia.
      rewrite Hr0 in Hr. inversion Hr; subst. exact Hlt.
Qed.

Lemma default_evolutionTimes_firstAliveRate_witness :
  EvolutionDescription_new scenario_rateTimes [] [] = Ok scenario /\
  (forall j, 1 <= j < numberOfSteps scenario ->
             at_ (firstAliveRate scenario) j = Ok j) /\
  (forall r0, at_ (rateTimes scenario) 0 = Ok r0 ->
     at_ (firstAliveRate scenario) 0 = Ok (if Qlt_bool 0%Q r0 then 0 else 1)).
Proof.
  split; [vm_compute; reflexivity|].
  apply (default_evolutionTimes_firstAliveRate scenario_rateTimes []).
  vm_compute. reflexivity.
Defined.

(** ** The generated measures *)

(** The entries of the money-market-plus measure, on the integers. *)
Lemma moneyMarketPlusMeasure_entries (ev : EvolutionDescription) (k : Size) :
  well_formed ev ->
  k <= size (rateTimes_ ev) - 1 ->
  exists numeraires,
    moneyMarketPlusMeasure ev k = Ok numeraires /\
    size numeraires = size (evolutionTimes_ ev) /\
    forall i, 0 <= i < size (evolutionTimes_ ev) ->
      exists e j,
        at_ (evolutionTimes_ ev) i = Ok e /\
        first_at_least (rateTimes_ ev) e j /\
        0 <= j <= size (rateTimes_ ev) - 1 /\
        at_ numeraires i = Ok (Z.min (j + k) (size (rateTimes_ ev) - 1)).
Proof.
  intros Hwf Hk. pose proof (wf_size ev Hwf) as Hsize.
  assert (Hk' : k <= Size_sub (size (rateTimes_ ev)) 1)
    by (rewrite Size_sub_ge by lia; exact Hk).
  destruct (moneyMarketPlusMeasure_spec ev k Hwf Hk')
    as [nums [Hgen [Hsz Hall]]].
  exists nums. split; [exact Hgen|]. split; [exact Hsz|].
  intros i Hi. destruct (Hall i Hi) as [v [Hv Hexp]].
  destruct (expected_numeraire_value ev k i v Hwf Hk Hexp)
    as [e [j [He [Hj [Hjr ->]]]]].
  exists e, j. auto.
Qed.

Lemma first_at_least_mono (v : list Time) (t u : Time) (j j' : Size) :
  (t <= u)%Q -> first_at_least v t j -> first_at_least v u j' -> j <= j'.
Proof.
  intros Htu [[r [Hr Hle]] Hbelow] [[r' [Hr' Hle']] Hbelow'].
  pose proof (at_Ok_range _ _ _ Hr'). 
  destruct (Z.le_gt_cases j j') as [H1|H1]; [exact H1|].
  specialize (Hbelow j' r' ltac:(lia) Hr'). lra.
Qed.

(** X7: on a constructed description, the numeraires of
    moneyMarketPlusMeasure(ev, k) are rate indices from k to
    numberOfRates(), they do not decrease from a step to the next, and
    none has expired at its step: rateTimes[numeraires[i]] >=
    evolutionTimes[i] for every step, the last one too. *)
Theorem moneyMarketPlusMeasure_numeraires
        (rateTimes0 evolutionTimes0 : list Time)
        (relevanceRates0 : list (Size * Size)) (ev : EvolutionDescription)
        (k : Size) :
  EvolutionDescription_new rateTimes0 evolutionTimes0 relevanceRates0
  = Ok ev ->
  0 <= k <= numberOfRates ev ->
  exists numeraires,
    moneyMarketPlusMeasure ev k = Ok numeraires /\
    (forall i num, at_ numeraires i = Ok num ->
       k <= num <= numberOfRates ev /\
       exists r e, at_ (rateTimes ev) num = Ok r /\
                   at_ (evolutionTimes ev) i = Ok e /\ (e <= r)%Q) /\
    (forall i i' num num',
       i <= i' -> at_ numeraires i = Ok num -> at_ numeraires i' = Ok num' ->
       num <= num').
Proof.
  intros Hnew Hk.
  pose proof (EvolutionDescription_new_well_formed _ _ _ _ Hnew) as Hwf.
  pose proof (wf_size ev Hwf) as Hsize.
  unfold numberOfRates, rateTimes, evolutionTimes in *.
  rewrite Size_sub_ge in * by lia.
  destruct (moneyMarketPlusMeasure_entries ev k Hwf ltac:(lia))
    as [nums [Hgen [Hsz Hall]]].
  exists nums. split; [exact Hgen|]. split.
  - intros i num Hnum.
    pose proof (at_Ok_range _ _ _ Hnum) as Hi. rewrite Hsz in Hi.
    destruct (Hall i Hi) as [e [j [He [[[rj [Hrj Hle]] Hb] [Hjr Hv]]]]].
    rewrite Hnum in Hv. inversion Hv; subst num.
    split; [lia|].
    destruct (at_in_range (rateTimes_ ev)
                (Z.min (j + k) (size (rateTimes_ ev) - 1)) ltac:(lia))
      as [r Hr].
    exists r, e. split; [exact Hr|]. split; [exact He|].
    pose proof (increasing_le _ (wf_rt_increasing ev Hwf) j
                  (Z.min (j + k) (size (rateTimes_ ev) - 1)) rj r
                  ltac:(lia) Hrj Hr).
    lra.
  - intros i i' num num' Hii Hnum Hnum'.
    pose proof (at_Ok_range _ _ _ Hnum) as Hi. rewrite Hsz in Hi.
    pose proof (at_Ok_range _ _ _ Hnum') as Hi'. rewrite Hsz in Hi'.
    destruct (Hall i Hi) as [e [j [He [Hj [Hjr Hv]]]]].
    destruct (Hall i' Hi') as [e' [j' [He' [Hj' [Hjr' Hv']]]]].
    rewrite Hnum in Hv. rewrite Hnum' in Hv'.
    inversion Hv; inversion Hv'; subst.
    pose proof (increasing_le _ (wf_et_increasing ev Hwf) i i' e e'
                  Hii He He').
    pose proof (first_at_least_mono _ e e' j j' ltac:(assumption) Hj Hj').
    lia.
Qed.

Lemma moneyMarketPlusMeasure_numeraires_witness :
  EvolutionDescription_new scenario_rateTimes [] [] = Ok scenario /\
  0 <= 1 <= numberOfRates scenario /\
  exists numeraires,
    moneyMarketPlusMeasure scenario 1 = Ok numeraires /\
    (forall i num, at_ numeraires i = Ok num ->
       1 <= num <= numberOfRates scenario /\
       exists r e, at_ (rateTimes scenario) num = Ok r /\
                   at_ (evolutionTimes scenario) i = Ok e /\ (e <= r)%Q) /\
    (forall i i' num num',
       i <= i' -> at_ numeraires i = Ok num -> at_ numeraires i' = Ok num' ->
       num <= num').
Proof.
  split; [vm_compute; reflexivity|].
  split; [vm_compute; split; discriminate|].
  apply (moneyMarketPlusMeasure_numeraires scenario_rateTimes [] []).
  - vm_compute. reflexivity.
  - vm_compute. split; discriminate.
Defined.

(** X8: the measures that are generated pass the compatibility check:
    on a constructed description checkCompatibility accepts
    moneyMarketPlusMeasure(ev, k) for every offset k up to
    numberOfRates(), and terminalMeasure(ev). *)
Theorem generated_measures_are_compatible
        (rateTimes0 evolutionTimes0 : list Time)
        (relevanceRates0 : list (Size * Size)) (ev : EvolutionDescription)
        (k : Size) :
  EvolutionDescription_new rateTimes0 evolutionTimes0 relevanceRates0
  = Ok ev ->
  0 <= k <= numberOfRates ev ->
  (exists numeraires,
     moneyMarketPlusMeasure ev k = Ok numeraires /\
     checkCompatibility ev numeraires = Ok tt) /\
  (exists numeraires,
     terminalMeasure ev = Ok numeraires /\
     checkCompatibility ev numeraires = Ok tt).
Proof.
  intros Hnew Hk.
  pose proof (EvolutionDescription_new_well_formed _ _ _ _ Hnew) as Hwf.
  pose proof (wf_size ev Hwf) as Hsize.
  pose proof (wf_steps ev Hwf) as Hsteps.
  pose proof (wf_rt_increasing ev Hwf) as Hrinc.
  unfold numberOfRates, rateTimes in Hk. rewrite Size_sub_ge in Hk by lia.
  assert (Hcheck : forall nums,
    size nums = size (evolutionTimes_ ev) ->
    (forall i num, 0 <= i < size (evolutionTimes_ ev) -> at_ nums i = Ok num ->
       0 <= num < size (rateTimes_ ev) /\
       forall r e, at_ (rateTimes_ ev) num = Ok r ->
                   at_ (evolutionTimes_ ev) i = Ok e -> (e <= r)%Q) ->
    checkCompatibility ev nums = Ok tt).
  { intros nums Hsz Hgood.
    pose proof (checkCompatibility_loop ev nums Hwf Hsz
                  ltac:(intros i num Hi Hnum;
                        apply (Hgood i num ltac:(lia) Hnum))) as Hloop.
    destruct (checkCompatibility ev nums) as [[]|f]; [reflexivity|].
    destruct Hloop as [i [num [r [e [Hi [Hnum [Hr [He [Hlt _]]]]]]]]].
    destruct (Hgood i num ltac:(lia) Hnum) as [_ Hle].
    specialize (Hle r e Hr He). lra. }
  split.
  - destruct (moneyMarketPlusMeasure_entries ev k Hwf ltac:(lia))
      as [nums [Hgen [Hsz Hall]]].
    exists nums. split; [exact Hgen|]. apply Hcheck; [exact Hsz|].
    intros i num Hi Hnum.
    destruct (Hall i Hi) as [e [j [He [[[rj [Hrj Hle]] Hb] [Hjr Hv]]]]].
    pose proof (eq_trans (eq_sym Hnum) Hv) as Heq. inversion Heq; subst num.
    split; [lia|]. intros r e' Hr He'. rewrite He in He'.
    inversion He'; subst e'.
    pose proof (increasing_le _ Hrinc j
                  (Z.min (j + k) (size (rateTimes_ ev) - 1)) rj r
                  ltac:(lia) Hrj Hr).
    lra.
  - unfold terminalMeasure, rateTimes, evolutionTimes.
    rewrite vector_n_Ok by exact (wf_et_max ev Hwf).
    rewrite Size_sub_ge by lia.
    eexists. split; [reflexivity|]. apply Hcheck.
    + apply size_replicate. lia.
    + intros i num Hi Hnum. rewrite at_replicate in Hnum by exact Hi.
      inversion Hnum; subst num. split; [lia|].
      intros r e Hr He.
      destruct (at_in_range (evolutionTimes_ ev)
                  (size (evolutionTimes_ ev) - 1) ltac:(lia)) as [el Hel].
      pose proof (wf_last ev Hwf r el Hr Hel).
      pose proof (increasing_le _ (wf_et_increasing ev Hwf) i
                    (size (evolutionTimes_ ev) - 1) e el
                    ltac:(lia) He Hel).
      lra.
Qed.

Lemma generated_measures_are_compatible_witness :
  EvolutionDescription_new scenario_rateTimes [] [] = Ok scenario /\
  0 <= 1 <= numberOfRates scenario /\
  (exists numeraires,
     moneyMarketPlusMeasure scenario 1 = Ok numeraires /\
     checkCompatibility scenario numeraires = Ok tt) /\
  (exists numeraires,
     terminalMeasure scenario = Ok numeraires /\
     checkCompatibility scenario numeraires = Ok tt).
Proof.
  split; [vm_compute; reflexivity|].
  split; [vm_compute; split; discriminate|].
  apply (generated_measures_are_compatible scenario_rateTimes [] []).
  - vm_compute. reflexivity.
  - vm_compute. split; discriminate.
Defined.

(** X9: on a constructed description moneyMarketMeasure returns, for
    every step, the first rate index whose rate time is not below the
    evolution time of the step, the shortest bond that has not expired,
    and isInMoneyMarketMeasure recognises the result. *)
Theorem moneyMarketMeasure_shortest_alive
        (rateTimes0 evolutionTimes0 : list Time)
        (relevanceRates0 : list (Size * Size)) (ev : EvolutionDescription) :
  EvolutionDescription_new rateTimes0 evolutionTimes0 relevanceRates0
  = Ok ev ->
  exists numeraires,
    moneyMarketMeasure ev = Ok numeraires /\
    size numeraires = numberOfSteps ev /\
    (forall i, 0 <= i < numberOfSteps ev ->
       exists e j, at_ (evolutionTimes ev) i = Ok e /\
                   at_ numeraires i = Ok j /\
                   first_at_least (rateTimes ev) e j) /\
    isInMoneyMarketMeasure ev numeraires = Ok true.
Proof.
  intros Hnew.
  pose proof (EvolutionDescription_new_well_formed _ _ _ _ Hnew) as Hwf.
  pose proof (wf_size ev Hwf) as Hsize.
  unfold moneyMarketMeasure, isInMoneyMarketMeasure, numberOfSteps,
    rateTimes, evolutionTimes.
  assert (H0 : 0 <= Size_sub (size (rateTimes_ ev)) 1)
    by (rewrite Size_sub_ge by lia; lia).
  destruct (moneyMarketPlusMeasure_spec ev 0 Hwf H0)
    as [nums [Hgen [Hsz Hall]]].
  exists nums. split; [exact Hgen|]. split; [exact Hsz|]. split.
  - intros i Hi. destruct (Hall i Hi) as [v [Hv Hexp]].
    destruct (expected_numeraire_value ev 0 i v Hwf ltac:(lia) Hexp)
      as [e [j [He [Hj [Hjr ->]]]]].
    exists e, j. split; [exact He|]. split; [|exact Hj].
    rewrite Hv. f_equal. lia.
  - pose proof (isInMoneyMarketPlusMeasure_spec ev nums 0 Hwf H0) as Hcls.
    destruct (isInMoneyMarketPlusMeasure ev nums 0) as [b|f].
    + f_equal. apply (proj2 Hcls). exact Hall.
    + destruct Hcls as [_ Hlt]. lia.
Qed.

Lemma moneyMarketMeasure_shortest_alive_witness :
  EvolutionDescription_new scenario_rateTimes [] [] = Ok scenario /\
  exists numeraires,
    moneyMarketMeasure scenario = Ok numeraires /\
    size numeraires = numberOfSteps scenario /\
    (forall i, 0 <= i < numberOfSteps scenario ->
       exists e j, at_ (evolutionTimes scenario) i = Ok e /\
                   at_ numeraires i = Ok j /\
                   first_at_least (rateTimes scenario) e j) /\
    isInMoneyMarketMeasure scenario numeraires = Ok true.
Proof.
  split; [vm_compute; reflexivity|].
  apply (moneyMarketMeasure_shortest_alive scenario_rateTimes [] []).
  vm_compute. reflexivity.
Defined.

(** X10: the money-market-plus measure is the money-market measure moved
    by the offset and capped: numeraire i of moneyMarketPlusMeasure(ev, k)
    is min(m + k, numberOfRates()) for numeraire m of step i of
    moneyMarketMeasure(ev). *)
Theorem moneyMarketPlusMeasure_shifts_moneyMarketMeasure
        (rateTimes0 evolutionTimes0 : list Time)
        (relevanceRates0 : list (Size * Size)) (ev : EvolutionDescription)
        (k : Size) :
  EvolutionDescription_new rateTimes0 evolutionTimes0 relevanceRates0
  = Ok ev ->
  k <= numberOfRates ev ->
  exists base numeraires,
    moneyMarketMeasure ev = Ok base /\
    moneyMarketPlusMeasure ev k = Ok numeraires /\
    size numeraires = size base /\
    forall i m, at_ base i = Ok m ->
                at_ numeraires i = Ok (Z.min (m + k) (numberOfRates ev)).
Proof.
  intros Hnew Hk.
  pose proof (EvolutionDescription_new_well_formed _ _ _ _ Hnew) as Hwf.
  pose proof (wf_size ev Hwf) as Hsize.
  unfold moneyMarketMeasure, numberOfRates, rateTimes in *.
  rewrite Size_sub_ge in * by lia.
  destruct (moneyMarketPlusMeasure_entries ev 0 Hwf ltac:(lia))
    as [base [Hbase [Hbsz Hball]]].
  destruct (moneyMarketPlusMeasure_entries ev k Hwf Hk)
    as [nums [Hgen [Hsz Hall]]].
  exists base, nums. split; [exact Hbase|]. split; [exact Hgen|].
  split; [congruence|].
  intros i m Hm.
  pose proof (at_Ok_range _ _ _ Hm) as Hi. rewrite Hbsz in Hi.
  destruct (Hball i Hi) as [e [j [He [Hj [Hjr Hv]]]]].
  destruct (Hall i Hi) as [e' [j' [He' [Hj' [Hjr' Hv']]]]].
  rewrite He in He'. inversion He'; subst e'.
  assert (j = j') as <-
      by (apply (first_at_least_unique (rateTimes_ ev) e); auto; lia).
  pose proof (eq_trans (eq_sym Hm) Hv) as Heq. inversion Heq; subst m.
  rewrite Hv'. f_equal. lia.
Qed.

Lemma moneyMarketPlusMeasure_shifts_moneyMarketMeasure_witness :
  EvolutionDescription_new scenario_rateTimes [] [] = Ok scenario /\
  2 <= numberOfRates scenario /\
  exists base numeraires,
    moneyMarketMeasure scenario = Ok base /\
    moneyMarketPlusMeasure scenario 2 = Ok numeraires /\
    size numeraires = size base /\
    forall i m, at_ base i = Ok m ->
                at_ numeraires i = Ok (Z.min (m + 2) (numberOfRates scenario)).
Proof.
  split; [vm_compute; reflexivity|].
  split; [vm_compute; discriminate|].
  apply (moneyMarketPlusMeasure_shifts_moneyMarketMeasure
           scenario_rateTimes [] []).
  - vm_compute. reflexivity.
  - vm_compute. discriminate.
Defined.

(** X11: with the largest offset the money-market-plus measure is the
    terminal measure: moneyMarketPlusMeasure(ev, numberOfRates()) and
    terminalMeasure(ev) return the same vector. *)
Theorem moneyMarketPlusMeasure_largest_offset_is_terminal
        (rateTimes0 evolutionTimes0 : list Time)
        (relevanceRates0 : list (Size * Size)) (ev : EvolutionDescription) :
  EvolutionDescription_new rateTimes0 evolutionTimes0 relevanceRates0
  = Ok ev ->
  moneyMarketPlusMeasure ev (numberOfRates ev) = terminalMeasure ev.
Proof.
  intros Hnew.
  pose proof (EvolutionDescription_new_well_formed _ _ _ _ Hnew) as Hwf.
  pose proof (wf_size ev Hwf) as Hsize.
  pose proof (wf_steps ev Hwf) as Hsteps.
  unfold numberOfRates, terminalMeasure, rateTimes, evolutionTimes.
  rewrite Size_sub_ge by lia.
  destruct (moneyMarketPlusMeasure_entries ev (size (rateTimes_ ev) - 1) Hwf
              ltac:(lia)) as [nums [Hgen [Hsz Hall]]].
  rewrite Hgen. rewrite vector_n_Ok by exact (wf_et_max ev Hwf).
  f_equal. apply vector_eq. intros i Hi.
  destruct (Z.lt_ge_cases i (size (evolutionTimes_ ev))) as [Hlt|Hge].
  - destruct (Hall i ltac:(lia)) as [e [j [_ [_ [Hjr Hv]]]]].
    rewrite Hv, at_replicate by lia. f_equal. lia.
  - rewrite !at_out_of_range; [reflexivity| |].
    + rewrite size_replicate by lia. lia.
    + lia.
Qed.

Lemma moneyMarketPlusMeasure_largest_offset_is_terminal_witness :
  EvolutionDescription_new scenario_rateTimes [] [] = Ok scenario /\
  moneyMarketPlusMeasure scenario (numberOfRates scenario)
  = terminalMeasure scenario.
Proof.
  split; [vm_compute; reflexivity|].
  apply (moneyMarketPlusMeasure_largest_offset_is_terminal
           scenario_rateTimes [] []).
  vm_compute. reflexivity.
Defined.

(** ** The classifiers *)

(** X12: isInMoneyMarketPlusMeasure looks at the numeraires of the steps
    and at nothing after them: on a constructed description, with an
    offset in range and a numeraire for every step at least, it answers
    true exactly when the first numberOfSteps() numeraires are the vector
    that moneyMarketPlusMeasure generates. *)
Theorem isInMoneyMarketPlusMeasure_iff_generated
        (rateTimes0 evolutionTimes0 : list Time)
        (relevanceRates0 : list (Size * Size)) (ev : EvolutionDescription)
        (numeraires : list Size) (k : Size) :
  EvolutionDescription_new rateTimes0 evolutionTimes0 relevanceRates0
  = Ok ev ->
  k <= numberOfRates ev ->
  numberOfSteps ev <= size numeraires ->
  (isInMoneyMarketPlusMeasure ev numeraires k = Ok true <->
   moneyMarketPlusMeasure ev k
   = Ok (take (Z.to_nat (numberOfSteps ev)) numeraires)) /\
  (isInMoneyMarketPlusMeasure ev numeraires k = Ok true \/
   isInMoneyMarketPlusMeasure ev numeraires k = Ok false).
Proof.
  intros Hnew Hk Hlen.
  pose proof (EvolutionDescription_new_well_formed _ _ _ _ Hnew) as Hwf.
  pose proof (wf_size ev Hwf) as Hsize.
  pose proof (wf_steps ev Hwf) as Hsteps.
  unfold numberOfRates, numberOfSteps, rateTimes, evolutionTimes in *.
  destruct (moneyMarketPlusMeasure_spec ev k Hwf Hk)
    as [gen [Hgen [Hsz Hall]]].
  pose proof (isInMoneyMarketPlusMeasure_spec ev numeraires k Hwf Hk) as Hcls.
  set (n := size (evolutionTimes_ ev)) in *.
  assert (Htake : size (take (Z.to_nat n) numeraires) = n)
    by (unfold size in *; rewrite length_take; lia).
  destruct (isInMoneyMarketPlusMeasure ev numeraires k) as [b|f].
  2:{ destruct Hcls as [_ Hlt]. lia. }
  destruct Hcls as [_ Hb].
  split; [|destruct b; auto].
  rewrite Hgen. split.
  - intros Hbt. inversion Hbt; subst b. f_equal. apply vector_eq.
    intros i Hi. destruct (Z.lt_ge_cases i n) as [Hlt|Hge].
    + rewrite at_take by lia.
      destruct (Hall i ltac:(lia)) as [v [Hv Hexp]].
      destruct (proj1 Hb eq_refl i ltac:(lia)) as [v' [Hv' Hexp']].
      rewrite Hv, Hv'. f_equal.
      exact (expected_numeraire_unique ev k i v v' Hexp Hexp').
    + rewrite !at_out_of_range; [reflexivity | lia | lia].
  - intros Heq. inversion Heq as [Hgen_eq]. f_equal. apply Hb.
    intros i Hi. destruct (Hall i Hi) as [v [Hv Hexp]].
    exists v. split; [|exact Hexp].
    rewrite Hgen_eq in Hv. rewrite at_take in Hv by lia. exact Hv.
Qed.

Lemma isInMoneyMarketPlusMeasure_iff_generated_witness :
  EvolutionDescription_new scenario_rateTimes [] [] = Ok scenario /\
  1 <= numberOfRates scenario /\
  numberOfSteps scenario <= size [1; 2; 3; 9] /\
  (isInMoneyMarketPlusMeasure scenario [1; 2; 3; 9] 1 = Ok true <->
   moneyMarketPlusMeasure scenario 1
   = Ok (take (Z.to_nat (numberOfSteps scenario)) [1; 2; 3; 9])) /\
  (isInMoneyMarketPlusMeasure scenario [1; 2; 3; 9] 1 = Ok true \/
   isInMoneyMarketPlusMeasure scenario [1; 2; 3; 9] 1 = Ok false).
Proof.
  split; [vm_compute; reflexivity|].
  split; [vm_compute; discriminate|].
  split; [vm_compute; discriminate|].
  apply (isInMoneyMarketPlusMeasure_iff_generated scenario_rateTimes [] []).
  - vm_compute. reflexivity.
  - vm_compute. discriminate.
  - vm_compute. discriminate.
Defined.

Lemma all_equal_replicate {A} (l : list A) (a : A) :
  (forall x, In x l -> x = a) -> l = replicate (length l) a.
Proof.
  induction l as [|y l IH]; intros H; [reflexivity|].
  cbn [length replicate]. f_equal.
  - apply H. left. reflexivity.
  - apply IH. intros x Hx. apply H. right. exact Hx.
Qed.

(** X13: isInTerminalMeasure compares only the smallest numeraire.  On
    numeraires that are not empty and are at most numberOfRates() it
    answers true exactly when every one of them is numberOfRates(); the
    number of numeraires is not compared with the number of steps. *)
Theorem isInTerminalMeasure_iff_all_terminal (ev : EvolutionDescription)
        (numeraires : list Size) :
  numeraires <> [] ->
  (forall x, In x numeraires -> x <= numberOfRates ev) ->
  (isInTerminalMeasure ev numeraires = Ok true <->
   numeraires = replicate (length numeraires) (numberOfRates ev)).
Proof.
  intros Hne Hrange. unfold isInTerminalMeasure, numberOfRates, rateTimes in *.
  set (n := Size_sub (size (rateTimes_ ev)) 1) in *.
  destruct (deref_min_element_spec numeraires Hne) as [m [Hm [Hin Hmin]]].
  rewrite Hm. cbn [bind]. split.
  - intros H. inversion H as [Heq]. apply Z.eqb_eq in Heq. subst m.
    apply all_equal_replicate. intros x Hx.
    pose proof (Hmin x Hx). pose proof (Hrange x Hx). lia.
  - intros Heq. f_equal. apply Z.eqb_eq.
    rewrite Heq in Hin. apply list_elem_of_In in Hin.
    apply elem_of_replicate in Hin. tauto.
Qed.

Lemma isInTerminalMeasure_iff_all_terminal_witness :
  [3; 3] <> [] /\
  (forall x, In x [3; 3] -> x <= numberOfRates scenario) /\
  (isInTerminalMeasure scenario [3; 3] = Ok true <->
   [3; 3] = replicate (length [3; 3]) (numberOfRates scenario)).
Proof.
  assert (H1 : [3; 3] <> @nil Size) by discriminate.
  assert (H2 : forall x, In x [3; 3] -> x <= numberOfRates scenario).
  { intros x [<-|[<-|[]]]; vm_compute; discriminate. }
  split; [exact H1|]. split; [exact H2|].
  exact (isInTerminalMeasure_iff_all_terminal scenario [3; 3] H1 H2).
Defined.

(** ** More on the compatibility check *)

(** Two bodies that agree on the range of a [for] loop give the same
    loop. *)
Lemma for_loop_ext_range {S} (n : Size) (body body' : Size -> S -> Outcome S) :
  forall (fuel : nat) (i : Size) (s : S),
    (forall k t, i <= k < n -> body k t = body' k t) ->
    for_loop fuel i n body s = for_loop fuel i n body' s.
Proof.
  induction fuel as [|fuel IH]; intros i s Hext; simpl; [reflexivity|].
  destruct (Z.ltb_spec i n); [|reflexivity].
  rewrite (Hext i s) by lia. destruct (body' i s) as [t|f]; simpl; [|reflexivity].
  apply IH. intros k t' Hk. apply Hext. lia.
Qed.

(** The rule of the [for] loop without a bound on the fuel: a failure
    that is not the end of the fuel is the failure of a body that ran in
    a state of the invariant. *)
Lemma for_loop_failure {S} (I : Size -> S -> Prop)
      (F : Size -> Failure -> Prop) (n : Size)
      (body : Size -> S -> Outcome S) :
  forall (fuel : nat) (i : Size) (s : S) (f : Failure),
    I i s ->
    (forall k t, i <= k < n -> I k t ->
                 match body k t with
                 | Ok t' => I (k + 1) t'
                 | Fail f => F k f
                 end) ->
    for_loop fuel i n body s = Fail f ->
    f = OutOfFuel \/ exists k, i <= k < n /\ F k f.
Proof.
  induction fuel as [|fuel IH]; intros i s f Hinv Hbody; simpl.
  - destruct (Z.ltb_spec i n) as [Hlt|Hge]; [|discriminate].
    intros Hres. inversion Hres. auto.
  - destruct (Z.ltb_spec i n) as [Hlt|Hge]; [|discriminate].
    specialize (Hbody i s ltac:(lia) Hinv) as Hb.
    destruct (body i s) as [t'|f']; simpl.
    + intros Hres.
      destruct (IH (i + 1) t' f Hb
                  ltac:(intros k t Hk; apply Hbody; lia) Hres)
        as [Hf|[k [Hk HF]]]; [auto|].
      right. exists k. split; [lia | exact HF].
    + intros Hres. inversion Hres; subst. right. exists i. split; [lia | exact Hb].
Qed.

Lemma size_app {A} (v w : list A) : size (v ++ w) = size v + size w.
Proof. unfold size. rewrite length_app. lia. Qed.

Lemma at_app_l {A} (v w : list A) (i : Size) :
  i < size v -> at_ (v ++ w) i = at_ v i.
Proof.
  intros H. unfold at_. destruct (Z.ltb_spec i 0); [reflexivity|].
  rewrite lookup_app_l by (unfold size in H; lia). reflexivity.
Qed.

(** X14: checkCompatibility never looks at the numeraire of the last
    step: on any description, two numeraire vectors that differ only in
    their last entry get the same outcome, whatever that entry is. *)
Theorem checkCompatibility_ignores_last_numeraire
        (ev : EvolutionDescription) (numeraires : list Size) (a b : Size) :
  checkCompatibility ev (numeraires ++ [a])
  = checkCompatibility ev (numeraires ++ [b]).
Proof.
  unfold checkCompatibility, evolutionTimes, rateTimes.
  rewrite !size_app, !length_app. cbn [length].
  change (size [a]) with 1. change (size [b]) with 1.
  pose proof (size_nonneg numeraires) as Hnn.
  destruct (Z.eqb_spec (size numeraires + 1) (size (evolutionTimes_ ev)))
    as [Heq|Hne]; cbn [QL_REQUIRE bind]; [|reflexivity].
  rewrite <- Heq. rewrite Size_sub_ge by lia.
  apply for_loop_ext_range. intros k [] Hk.
  rewrite !at_app_l by lia. reflexivity.
Qed.

(** X15: the expiry error of checkCompatibility is about the first step
    whose numeraire has expired: when it throws for step i, it carries
    evolutionTimes[i], numeraires[i] and the rate time of that numeraire,
    which is below the evolution time, i is not the last step, and the
    numeraire of every step before i has a rate time that is not below
    the evolution time of its step. *)
Theorem checkCompatibility_reports_first_expired
        (ev : EvolutionDescription) (numeraires : list Size)
        (i : Size) (e : Time) (num : Size) (r : Time) :
  checkCompatibility ev numeraires = Fail (Throw (NumeraireExpired i e num r)) ->
  size numeraires = numberOfSteps ev /\
  0 <= i < numberOfSteps ev - 1 /\
  at_ numeraires i = Ok num /\
  at_ (rateTimes ev) num = Ok r /\
  at_ (evolutionTimes ev) i = Ok e /\
  (r < e)%Q /\
  forall i', 0 <= i' < i ->
    exists num' r' e',
      at_ numeraires i' = Ok num' /\ at_ (rateTimes ev) num' = Ok r' /\
      at_ (evolutionTimes ev) i' = Ok e' /\ (e' <= r')%Q.
Proof.
  unfold checkCompatibility, numberOfSteps, evolutionTimes, rateTimes.
  destruct (Z.eqb_spec (size numeraires) (size (evolutionTimes_ ev)))
    as [Hsz|Hne]; cbn [QL_REQUIRE bind]; [|discriminate].
  intros H. split; [exact Hsz|].
  set (n := size (evolutionTimes_ ev)) in *.
  assert (Hn : Size_sub n 1 = n - 1 \/ n = 0).
  { pose proof (size_nonneg (evolutionTimes_ ev)). fold n in H0.
    destruct (Z.eq_dec n 0); [auto|]. left. apply Size_sub_ge. lia. }
  apply (for_loop_failure
           (fun k (_ : unit) =>
              forall i', 0 <= i' < k ->
                exists num' r' e',
                  at_ numeraires i' = Ok num' /\
                  at_ (rateTimes_ ev) num' = Ok r' /\
                  at_ (evolutionTimes_ ev) i' = Ok e' /\ (e' <= r')%Q)
           (fun k f =>
              f = Undefined \/
              (f = Throw (NumeraireExpired i e num r) ->
               k = i /\ at_ numeraires i = Ok num /\
               at_ (rateTimes_ ev) num = Ok r /\
               at_ (evolutionTimes_ ev) i = Ok e /\ (r < e)%Q /\
               forall i', 0 <= i' < i ->
                 exists num' r' e',
                   at_ numeraires i' = Ok num' /\
                   at_ (rateTimes_ ev) num' = Ok r' /\
                   at_ (evolutionTimes_ ev) i' = Ok e' /\ (e' <= r')%Q)))
    in H.
  - destruct H as [H|[k [Hk [H|H]]]]; try discriminate.
    destruct (H eq_refl) as (-> & Hnum & Hr & He & Hlt & Hbefore).
    assert (Hi : 0 <= i < n - 1).
    { destruct Hn as [Hn|Hn]; [lia|].
      apply at_Ok_range in He. fold n in He. lia. }
    auto 8.
  - intros i' Hi'. lia.
  - intros k [] Hk Hinv.
    destruct (at_ numeraires k) as [num0|f0] eqn:Hnum0; cbn [bind];
      [|apply at_Fail in Hnum0; tauto].
    destruct (at_ (rateTimes_ ev) num0) as [r0|f0] eqn:Hr0; cbn [bind];
      [|apply at_Fail in Hr0; tauto].
    destruct (at_ (evolutionTimes_ ev) k) as [e0|f0] eqn:He0; cbn [bind];
      [|apply at_Fail in He0; tauto].
    unfold QL_REQUIRE. destruct (Qle_bool e0 r0) eqn:Hle.
    + apply Qle_bool_true in Hle. intros i' Hi'.
      destruct (Z.eq_dec i' k) as [->|Hne']; [eauto 8|].
      apply Hinv. lia.
    + apply Qle_bool_false in Hle. right. intros Heq.
      inversion Heq; subst. auto 8.
Qed.

Lemma checkCompatibility_reports_first_expired_witness :
  EvolutionDescription_new [0; 1; 2]%Q [1; 2]%Q [] = Ok scenario3 /\
  checkCompatibility scenario3 [0; 2]
  = Fail (Throw (NumeraireExpired 0 1%Q 0 0%Q)) /\
  at_ [0; 2] 0 = Ok 0 /\ (0 < 1)%Q.
Proof.
  assert (H : checkCompatibility scenario3 [0; 2]
              = Fail (Throw (NumeraireExpired 0 1%Q 0 0%Q)))
    by (vm_compute; reflexivity).
  split; [vm_compute; reflexivity|]. split; [exact H|].
  destruct (checkCompatibility_reports_first_expired _ _ _ _ _ _ H)
    as (_ & _ & Hnum & _ & _ & Hlt & _).
  split; [exact Hnum | exact Hlt].
Defined.

(** ** Defaults and the two cursors *)

(** X16: leaving the evolution times out is the same as giving the rate
    times but the last: the constructor returns the same outcome, a
    description or a failure, on the evolution times given and on the
    evolution times after defaulting. *)
Theorem explicit_default_evolutionTimes
        (rateTimes0 evolutionTimes0 : list Time)
        (relevanceRates0 : list (Size * Size)) :
  EvolutionDescription_new rateTimes0 evolutionTimes0 relevanceRates0
  = EvolutionDescription_new rateTimes0
      (evolutionTimes_or_default rateTimes0 evolutionTimes0) relevanceRates0.
Proof.
  unfold evolutionTimes_or_default. rewrite Z.gtb_ltb.
  destruct (Z.ltb_spec 0 (size evolutionTimes0)) as [Hpos|Hz]; [reflexivity|].
  pose proof (size_nonneg evolutionTimes0).
  assert (evolutionTimes0 = []) as -> by (apply size_nil_iff; lia).
  set (d := take (Z.to_nat (size rateTimes0 - 1)) rateTimes0).
  destruct (Z.ltb_spec 0 (size d)) as [Hd|Hd].
  - assert (Hr : size rateTimes0 <> 0).
    { intros Hz0. apply size_nil_iff in Hz0. subst rateTimes0.
      vm_compute in Hd. discriminate Hd. }
    unfold EvolutionDescription_new.
    assert (H1 : init_evolutionTimes rateTimes0 [] = Ok d).
    { unfold init_evolutionTimes, vector_but_last.
      change (size (@nil Time) >? 0) with false. cbv iota.
      destruct (Z.eqb_spec (size rateTimes0) 0) as [E|E];
        [contradiction | reflexivity]. }
    assert (H2 : init_evolutionTimes rateTimes0 d = Ok d).
    { unfold init_evolutionTimes. rewrite Z.gtb_ltb.
      destruct (Z.ltb_spec 0 (size d)); [reflexivity | lia]. }
    rewrite H1, H2. reflexivity.
  - pose proof (size_nonneg d).
    assert (d = []) as -> by (apply size_nil_iff; lia). reflexivity.
Qed.

(** X17: the two cursors of a constructed description agree up to one
    index: the first alive rate of a step after the first is the
    money-market numeraire of the step before it, or the rate index that
    follows. *)
Theorem firstAliveRate_follows_moneyMarketMeasure
        (rateTimes0 evolutionTimes0 : list Time)
        (relevanceRates0 : list (Size * Size)) (ev : EvolutionDescription) :
  EvolutionDescription_new rateTimes0 evolutionTimes0 relevanceRates0
  = Ok ev ->
  exists numeraires,
    moneyMarketMeasure ev = Ok numeraires /\
    forall j m f,
      1 <= j ->
      at_ numeraires (j - 1) = Ok m ->
      at_ (firstAliveRate ev) j = Ok f ->
      m <= f <= m + 1.
Proof.
  intros Hnew.
  pose proof (EvolutionDescription_new_well_formed _ _ _ _ Hnew) as Hwf.
  pose proof (wf_size ev Hwf) as Hsize.
  pose proof (wf_rt_increasing ev Hwf) as Hinc.
  destruct (wf_first ev Hwf) as [r0 [Hr0 Hr0pos]].
  destruct (EvolutionDescription_new_constructed _ _ _ _ Hnew)
    as [Hrt _ _ _ _ _ _ _ Hfsz Hfa].
  rewrite <- Hrt in Hfa.
  unfold moneyMarketMeasure, firstAliveRate.
  destruct (moneyMarketPlusMeasure_entries ev 0 Hwf ltac:(lia))
    as [nums [Hgen [Hsz Hall]]].
  exists nums. split; [exact Hgen|].
  intros j m f Hj Hm Hf.
  pose proof (at_Ok_range _ _ _ Hm) as Hjr. rewrite Hsz in Hjr.
  pose proof (at_Ok_range _ _ _ Hf) as Hjr'. rewrite Hfsz in Hjr'.
  destruct (Hall (j - 1) Hjr) as [e [c [He [[[rc [Hrc Hle]] Hbelow] [Hcr Hv]]]]].
  pose proof (eq_trans (eq_sym Hm) Hv) as Heq. inversion Heq as [Hmc].
  replace (Z.min (c + 0) (size (rateTimes_ ev) - 1)) with c in Hmc by lia.
  subst m.
  destruct (Hfa j Hjr') as [t [g [Ht [Hg [[rg [Hrg Hgt]] Hgbelow]]]]].
  rewrite Hf in Hg. inversion Hg; subst g.
  unfold previous_time in Ht. destruct (Z.eqb_spec j 0); [lia|].
  rewrite He in Ht. inversion Ht; subst t.
  pose proof (at_Ok_range _ _ _ Hrg) as Hfr.
  assert (Hc : Z.min (c + 0) (size (rateTimes_ ev) - 1) = c) by lia.
  rewrite ?Hc. split.
  - destruct (Z.le_gt_cases c f) as [|Hlt]; [assumption|].
    specialize (Hbelow f rg ltac:(lia) Hrg). revert Hgt. qmax; lra.
  - destruct (Z.le_gt_cases f (c + 1)) as [|Hlt]; [assumption|].
    destruct (at_in_range (rateTimes_ ev) (c + 1) ltac:(lia)) as [rn Hrn].
    specialize (Hgbelow (c + 1) rn ltac:(lia) Hrn).
    pose proof (Hinc (c + 1) rc rn
                  ltac:(replace (c + 1 - 1) with c by lia; exact Hrc) Hrn).
    pose proof (increasing_le _ Hinc 0 c r0 rc ltac:(lia) Hr0 Hrc).
    revert Hgbelow. qmax; lra.
Qed.

Lemma firstAliveRate_follows_moneyMarketMeasure_witness :
  EvolutionDescription_new scenario_rateTimes [] [] = Ok scenario /\
  exists numeraires,
    moneyMarketMeasure scenario = Ok numeraires /\
    forall j m f,
      1 <= j ->
      at_ numeraires (j - 1) = Ok m ->
      at_ (firstAliveRate scenario) j = Ok f ->
      m <= f <= m + 1.
Proof.
  split; [vm_compute; reflexivity|].
  apply (firstAliveRate_follows_moneyMarketMeasure scenario_rateTimes [] []).
  vm_compute. reflexivity.
Defined.

(** ** A description without steps *)

(** X18: on a description without evolution times, as the default
    constructor builds it, the generators return empty vectors and
    isInMoneyMarketPlusMeasure answers true for any numeraires, as long
    as the offset passes the range check; with no rate time either,
    numberOfRates() wraps to 2^64-1, so that every offset passes; and
    checkCompatibility and isInTerminalMeasure on the empty numeraires
    read outside the vector. *)
Theorem no_steps_measures (ev : EvolutionDescription)
        (numeraires : list Size) (offset : Size) :
  evolutionTimes ev = [] ->
  offset <= numberOfRates ev ->
  moneyMarketPlusMeasure ev offset = Ok [] /\
  isInMoneyMarketPlusMeasure ev numeraires offset = Ok true /\
  terminalMeasure ev = Ok [] /\
  isInTerminalMeasure ev [] = Fail Undefined /\
  checkCompatibility ev [] = Fail Undefined /\
  (rateTimes ev = [] -> numberOfRates ev = Size_modulus - 1).
Proof.
  unfold evolutionTimes, numberOfRates, rateTimes. intros Het Hoff.
  unfold moneyMarketPlusMeasure, isInMoneyMarketPlusMeasure, terminalMeasure,
    isInTerminalMeasure, checkCompatibility, evolutionTimes, rateTimes.
  rewrite Het.
  destruct (Z.leb_spec offset (Size_sub (size (rateTimes_ ev)) 1)); [|lia].
  cbn [QL_REQUIRE bind].
  split; [reflexivity|]. split; [reflexivity|]. split; [reflexivity|].
  split; [reflexivity|]. split; [reflexivity|].
  intros ->. reflexivity.
Qed.

Lemma no_steps_measures_witness :
  evolutionTimes EvolutionDescription_default = [] /\
  5 <= numberOfRates EvolutionDescription_default /\
  moneyMarketPlusMeasure EvolutionDescription_default 5 = Ok [] /\
  isInMoneyMarketPlusMeasure EvolutionDescription_default [7] 5 = Ok true /\
  terminalMeasure EvolutionDescription_default = Ok [] /\
  isInTerminalMeasure EvolutionDescription_default [] = Fail Undefined /\
  checkCompatibility EvolutionDescription_default [] = Fail Undefined /\
  (rateTimes EvolutionDescription_default = [] ->
   numberOfRates EvolutionDescription_default = Size_modulus - 1).
Proof.
  split; [reflexivity|]. split; [vm_compute; discriminate|].
  apply (no_steps_measures EvolutionDescription_default [7] 5).
  - reflexivity.
  - vm_compute. discriminate.
Defined.

(** ** More on the derived tables *)

Lemma Qsum_app (v : list Time) (x : Time) :
  (Qsum (v ++ [x]) == Qsum v + x)%Q.
Proof.
  induction v as [|y v IH]; cbn [app Qsum fold_right].
  - apply Qplus_comm.
  - fold (Qsum (v ++ [x])). fold (Qsum v). rewrite IH. apply Qplus_assoc.
Qed.

Lemma Qtelescope (a r m : Q) : (m - r + (a - m) == a - r)%Q.
Proof. ring. Qed.

Lemma Qabs_sum_step (s t a m r c : Q) :
  (Qabs (s - (m - r)) <= c * (m - r))%Q ->
  (Qabs (t - (a - m)) <= c * (a - m))%Q ->
  (Qabs (s + t - (a - r)) <= c * (a - r))%Q.
Proof.
  intros Hs Ht.
  assert (Heq : (s + t - (a - r) == (s - (m - r)) + (t - (a - m)))%Q) by ring.
  rewrite Heq.
  eapply Qle_trans; [apply Qabs_triangle|].
  assert (Hc : (c * (a - r) == c * (m - r) + c * (a - m))%Q) by ring.
  rewrite Hc. apply Qplus_le_compat; assumption.
Qed.

(** X19: the accrual periods add up to the span of the rate times, up to
    rounding: on a constructed description whose rate times are binary64
    values the sum of rateTaus()[0..k-1] is within the relative error
    2^-53 of rateTimes[k] - rateTimes[0] for every k up to
    numberOfRates(); the sum is that difference when each of the
    differences rateTimes[i+1] - rateTimes[i] below k is a binary64
    value. *)
Theorem rateTaus_sum (rateTimes0 evolutionTimes0 : list Time)
        (relevanceRates0 : list (Size * Size)) (ev : EvolutionDescription) :
  EvolutionDescription_new rateTimes0 evolutionTimes0 relevanceRates0
  = Ok ev ->
  forall k, 0 <= k <= numberOfRates ev ->
    exists r0 rk,
      at_ (rateTimes ev) 0 = Ok r0 /\ at_ (rateTimes ev) k = Ok rk /\
      (Forall binary64 (rateTimes ev) ->
       (Qabs (Qsum (take (Z.to_nat k) (rateTaus ev)) - (rk - r0))
        <= pow2 (- binary64_prec) * (rk - r0))%Q) /\
      ((forall i a b, 0 <= i < k ->
          at_ (rateTimes ev) (i + 1) = Ok a -> at_ (rateTimes ev) i = Ok b ->
          binary64 (a - b)) ->
       (Qsum (take (Z.to_nat k) (rateTaus ev)) == rk - r0)%Q).
Proof.
  intros Hnew.
  pose proof (EvolutionDescription_new_well_formed _ _ _ _ Hnew) as Hwf.
  pose proof (wf_size ev Hwf) as Hsize.
  destruct (EvolutionDescription_new_constructed _ _ _ _ Hnew)
    as [Hrt _ _ _ Htsz Htaus _ _ _ _].
  unfold numberOfRates, rateTimes, rateTaus.
  rewrite <- Hrt in Htsz, Htaus. rewrite Size_sub_ge by lia.
  destruct (at_in_range (rateTimes_ ev) 0 ltac:(lia)) as [r0 Hr0].
  assert (Hsum : forall m : nat, Z.of_nat m <= size (rateTimes_ ev) - 1 ->
            exists rk, at_ (rateTimes_ ev) (Z.of_nat m) = Ok rk /\
              (Forall binary64 (rateTimes_ ev) ->
               (Qabs (Qsum (take m (rateTaus_ ev)) - (rk - r0))
                <= pow2 (- binary64_prec) * (rk - r0))%Q) /\
              ((forall i a b, 0 <= i < Z.of_nat m ->
                  at_ (rateTimes_ ev) (i + 1) = Ok a ->
                  at_ (rateTimes_ ev) i = Ok b -> binary64 (a - b)) ->
               (Qsum (take m (rateTaus_ ev)) == rk - r0)%Q)).
  { induction m as [|m IH]; intros Hm.
    - exists r0. split; [exact Hr0|].
      assert (Hz : (Qsum (take 0 (rateTaus_ ev)) == r0 - r0)%Q)
        by (symmetry; apply Qplus_opp_r).
      split; [|intros _; exact Hz].
      intros _.
      assert (Hd : (Qsum (take 0 (rateTaus_ ev)) - (r0 - r0) == 0)%Q)
        by (rewrite Hz; apply Qplus_opp_r).
      rewrite Hd, (Qplus_opp_r r0), Qmult_0_r. apply Qle_refl.
    - destruct (IH ltac:(lia)) as [rm [Hrm [Hbound Hexact]]].
      destruct (Htaus (Z.of_nat m) ltac:(lia)) as [a [b [Ha [Hb Ht]]]].
      rewrite Hrm in Hb. inversion Hb; subst b.
      pose proof (wf_rt_increasing ev Hwf (Z.of_nat m + 1) rm a) as Hinc.
      replace (Z.of_nat m + 1 - 1) with (Z.of_nat m) in Hinc by lia.
      specialize (Hinc Hrm Ha).
      assert (Ha' : at_ (rateTimes_ ev) (Z.of_nat (S m)) = Ok a)
        by (replace (Z.of_nat (S m)) with (Z.of_nat m + 1) by lia; exact Ha).
      exists a. split; [exact Ha'|].
      apply at_Ok_iff in Ht. destruct Ht as [_ Ht]. rewrite Nat2Z.id in Ht.
      rewrite (take_S_r _ _ _ Ht), Qsum_app. split.
      + intros Hdoubles.
        apply (Qabs_sum_step _ _ a rm r0); [exact (Hbound Hdoubles)|].
        apply Time_sub_relative_error;
          [exact (Forall_at _ _ _ _ Hdoubles Ha)
          | exact (Forall_at _ _ _ _ Hdoubles Hrm)
          | apply Qlt_le_weak; exact Hinc].
      + intros Hdiff.
        rewrite Hexact by (intros i x y Hi; apply Hdiff; lia).
        rewrite (Time_sub_exact a rm)
          by (apply (Hdiff (Z.of_nat m)); [lia | exact Ha | exact Hrm]).
        apply Qtelescope. }
  intros k Hk. destruct (Hsum (Z.to_nat k) ltac:(lia)) as [rk [Hrk Hs]].
  rewrite Z2Nat.id in Hrk, Hs by lia. exists r0, rk. auto.
Qed.

(** On the scenario, rate times 0, 1, 2, 3, the three periods add up to
    the span within the bound. *)
Lemma rateTaus_sum_witness :
  EvolutionDescription_new scenario_rateTimes [] [] = Ok scenario /\
  0 <= 3 <= numberOfRates scenario /\
  Forall binary64 (rateTimes scenario) /\
  exists r0 rl,
    at_ (rateTimes scenario) 0 = Ok r0 /\
    at_ (rateTimes scenario) 3 = Ok rl /\
    (Qabs (Qsum (take (Z.to_nat 3) (rateTaus scenario)) - (rl - r0))
     <= pow2 (- binary64_prec) * (rl - r0))%Q.
Proof.
  assert (Hnew : EvolutionDescription_new scenario_rateTimes [] []
                 = Ok scenario) by (vm_compute; reflexivity).
  assert (Hk : 0 <= 3 <= numberOfRates scenario)
    by (vm_compute; split; discriminate).
  split; [exact Hnew|]. split; [exact Hk|].
  split; [exact scenario_rateTimes_binary64|].
  destruct (rateTaus_sum scenario_rateTimes [] [] scenario Hnew 3 Hk)
    as [r0 [rl [Hr0 [Hrl [Hbound _]]]]].
  exists r0, rl. split; [exact Hr0|]. split; [exact Hrl|].
  exact (Hbound scenario_rateTimes_binary64).
Defined.

(** The sum is not the span in general: for the doubles nearest to 0.1
    and 0.3 and the rate time 1 the two stored periods add up to less
    than 1 less the first rate time. *)
Example rateTaus_sum_rounded :
  exists ev,
    EvolutionDescription_new
      [3602879701896397 # 36028797018963968;
       5404319552844595 # 18014398509481984; 1]%Q [] [] = Ok ev /\
    (Qsum (rateTaus ev)
     < 1 - (3602879701896397 # 36028797018963968))%Q.
Proof.
  eexists. split; [vm_compute; reflexivity|]. vm_compute. reflexivity.
Qed.

Lemma min_Time_mono (e r e' r' : Time) :
  (e <= e')%Q -> (r <= r')%Q -> (min_Time e r <= min_Time e' r')%Q.
Proof.
  intros He Hr. unfold min_Time.
  destruct (Qlt_bool r e) eqn:H1; destruct (Qlt_bool r' e') eqn:H2;
    try apply Qlt_bool_true in H1; try apply Qlt_bool_false in H1;
    try apply Qlt_bool_true in H2; try apply Qlt_bool_false in H2; lra.
Qed.

(** X20: on a constructed description the effective stop times are a
    table of numberOfSteps() rows of numberOfRates() entries each, and
    they do not decrease along a row or down a column: the stop time of
    step j and rate i is at most that of step j' >= j and rate i' >= i. *)
Theorem effectiveStopTime_shape_monotone
        (rateTimes0 evolutionTimes0 : list Time)
        (relevanceRates0 : list (Size * Size)) (ev : EvolutionDescription) :
  EvolutionDescription_new rateTimes0 evolutionTimes0 relevanceRates0
  = Ok ev ->
  size (effectiveStopTime ev) = numberOfSteps ev /\
  (forall j row, at_ (effectiveStopTime ev) j = Ok row ->
                 size row = numberOfRates ev) /\
  (forall j i j' i' x y,
     j <= j' -> i <= i' ->
     Matrix_get (effectiveStopTime ev) j i = Ok x ->
     Matrix_get (effectiveStopTime ev) j' i' = Ok y ->
     (x <= y)%Q).
Proof.
  intros Hnew.
  pose proof (EvolutionDescription_new_well_formed _ _ _ _ Hnew) as Hwf.
  pose proof (wf_size ev Hwf) as Hsize.
  destruct (EvolutionDescription_new_constructed _ _ _ _ Hnew)
    as [Hrt _ _ _ _ _ [Hrows Hcols] Heff _ _].
  unfold effectiveStopTime, numberOfSteps, numberOfRates, evolutionTimes,
    rateTimes.
  rewrite <- Hrt in Hcols, Heff. rewrite Size_sub_ge by lia.
  split; [exact Hrows|]. split; [exact Hcols|].
  assert (Hget : forall j i x, Matrix_get (effStopTime_ ev) j i = Ok x ->
            exists e r, at_ (evolutionTimes_ ev) j = Ok e /\
                        at_ (rateTimes_ ev) i = Ok r /\ x = min_Time e r).
  { intros j i x Hx. unfold Matrix_get in Hx.
    destruct (at_ (effStopTime_ ev) j) as [row|f] eqn:Hrow; cbn [bind] in Hx;
      [|discriminate].
    pose proof (at_Ok_range _ _ _ Hrow) as Hj.
    pose proof (at_Ok_range _ _ _ Hx) as Hi.
    rewrite (Hcols j row Hrow) in Hi.
    destruct (Heff j i ltac:(lia)
                ltac:(rewrite Size_sub_ge by lia; lia) ltac:(lia))
      as [e [r [He [Hr Hg]]]].
    exists e, r. split; [exact He|]. split; [exact Hr|].
    unfold Matrix_get in Hg. rewrite Hrow in Hg. cbn [bind] in Hg.
    congruence. }
  intros j i j' i' x y Hj Hi Hx Hy.
  destruct (Hget j i x Hx) as [e [r [He [Hr ->]]]].
  destruct (Hget j' i' y Hy) as [e' [r' [He' [Hr' ->]]]].
  apply min_Time_mono.
  - exact (increasing_le _ (wf_et_increasing ev Hwf) j j' e e' Hj He He').
  - exact (increasing_le _ (wf_rt_increasing ev Hwf) i i' r r' Hi Hr Hr').
Qed.

Lemma effectiveStopTime_shape_monotone_witness :
  EvolutionDescription_new scenario_rateTimes [] [] = Ok scenario /\
  size (effectiveStopTime scenario) = numberOfSteps scenario.
Proof.
  split; [vm_compute; reflexivity|].
  apply (effectiveStopTime_shape_monotone scenario_rateTimes [] []).
  vm_compute. reflexivity.
Defined.

(** ** The Singapore calendar *)

(** X21: the table of [isBusinessDay] has its holidays of a single year
    in 2004 to 2009 only.  In every year a weekend, 1 January, Good
    Friday, 1 May, 9 August and 25 December are not business days; in a
    year before 2004 or after 2009 every other day is one. *)
Theorem isBusinessDay_recurring (isWeekend : Weekday -> bool)
        (easterMonday : Year -> Day) (date : Date) :
  (recurring_holiday isWeekend easterMonday date = true ->
   isBusinessDay isWeekend easterMonday date = false) /\
  (year date < 2004 \/ 2009 < year date ->
   isBusinessDay isWeekend easterMonday date
   = negb (recurring_holiday isWeekend easterMonday date)).
Proof.
  unfold isBusinessDay, recurring_holiday. cbv zeta.
  destruct date as [w d dd m y]. cbn [weekday dayOfMonth dayOfYear month year].
  split.
  - intros H. apply orb_true_iff in H. destruct H as [H|H].
    + repeat (apply orb_true_iff in H; destruct H as [H|H]);
        rewrite H; rewrite ?orb_true_r; reflexivity.
    + rewrite H. rewrite ?orb_true_r. reflexivity.
  - intros Hy.
    assert (E4 : (y =? 2004) = false) by (apply Z.eqb_neq; lia).
    assert (E5 : (y =? 2005) = false) by (apply Z.eqb_neq; lia).
    assert (E6 : (y =? 2006) = false) by (apply Z.eqb_neq; lia).
    assert (E7 : (y =? 2007) = false) by (apply Z.eqb_neq; lia).
    assert (E8 : (y =? 2008) = false) by (apply Z.eqb_neq; lia).
    assert (E9 : (y =? 2009) = false) by (apply Z.eqb_neq; lia).
    rewrite E4, E5, E6, E7, E8, E9.
    rewrite ?andb_false_r, ?orb_false_r.
    match goal with |- (if ?c then false else true) = negb ?c' =>
      destruct c; reflexivity end.
Qed.

Lemma isBusinessDay_recurring_witness :
  2009 < 2010 /\
  isBusinessDay (fun w => match w with
                          | Saturday | Sunday => true
                          | _ => false
                          end) (fun _ => 95)
    {| weekday := Monday; dayOfMonth := 4; dayOfYear := 4;
       month := January; year := 2010 |} = true.
Proof.
  split; [lia|].
  rewrite (proj2 (isBusinessDay_recurring _ _ _)); [reflexivity|].
  right. cbn. lia.
Defined.
